(** * MONAI spatial transforms: coordinate grids, affine composition,
      randomised parameter sampling and resampling

    A shallow embedding of [monai/transforms/transforms.py] (the classes
    [AffineGrid], [RandAffineGrid], [RandDeformGrid], [Resample], [Affine],
    [RandAffine], [Rand2DElastic], [Rand3DElastic], and the array transforms
    [SpatialCrop], [Rotate90], [RandRotate90]) together with the properties
    stated about them.

    Modelling conventions.
    - Numbers.  Array entries are floating-point numbers in the source.  They
      are modelled by [num]: an exact rational ([Qc]) or one of the IEEE
      special values [PInf], [NInf], [NaN].  Finite arithmetic is exact (no
      rounding, no overflow, no signed zero); division by zero and arithmetic
      on the special values follow IEEE 754, which is what numpy and torch
      implement.  A statement over all images that depends on which pixel
      a computed position is rounded to carries a bound on the axis sizes,
      under which the [float32] rounding of the position cannot change that
      pixel.
      User supplied scalars (ranges, probabilities, affine
      parameters) and the entries of affine matrices are finite: [Qc].
    - Arrays.  An n-dimensional array of shape [(n, *spatial)] is a [tensor]:
      its spatial shape and its [n] leading-axis rows, each row flattened in
      row-major order.  [NdArray] and [Tensor] distinguish numpy arrays from
      torch tensors, [Tensor] carrying its device.
    - Aliasing.  [Resample.__call__] assigns into its [grid] argument; arrays
      live in a [store] and are passed by location.
    - Errors.  A Python exception is a value of [exn]; fallible code returns
      [result].
    - Randomness.  The seeded draw source [self.R] is a [RandomState]. *)

From Stdlib Require Import QArith Qcanon Qround ZArith Lia Lqa List Bool.
From stdpp Require Import base tactics option list numbers.
From Stdlib Require String.

Local Open Scope Z_scope.
Local Open Scope Qc_scope.

(** ** Numbers *)

Inductive num : Type :=
  | Fin (q : Qc)
  | PInf
  | NInf
  | NaN.

#[global] Instance num_eq_dec : EqDecision num.
Proof. solve_decision. Defined.

Definition is_finite (x : num) : bool :=
  match x with Fin _ => true | _ => false end.

Definition Qc_ltb (a b : Qc) : bool := bool_decide (a < b).
Definition Qc_eqb (a b : Qc) : bool := bool_decide (a = b).

(** The infinity of the given sign: [neg = true] is minus infinity. *)
Definition inf_of (neg : bool) : num := if neg then NInf else PInf.

(** [sign_neg x]: the sign bit of a non-NaN value (zero counts as positive:
    the model has no negative zero). *)
Definition sign_neg (x : num) : bool :=
  match x with
  | Fin q => Qc_ltb q 0
  | NInf => true
  | _ => false
  end.

Definition nadd (x y : num) : num :=
  match x, y with
  | NaN, _ | _, NaN => NaN
  | Fin a, Fin b => Fin (a + b)
  | PInf, NInf | NInf, PInf => NaN
  | PInf, _ | _, PInf => PInf
  | NInf, _ | _, NInf => NInf
  end.

Definition nmul (x y : num) : num :=
  match x, y with
  | NaN, _ | _, NaN => NaN
  | Fin a, Fin b => Fin (a * b)
  | Fin a, i | i, Fin a =>
      if Qc_eqb a 0 then NaN else inf_of (xorb (Qc_ltb a 0) (sign_neg i))
  | i, j => inf_of (xorb (sign_neg i) (sign_neg j))
  end.

Definition ndiv (x y : num) : num :=
  match x, y with
  | NaN, _ | _, NaN => NaN
  | Fin a, Fin b =>
      if Qc_eqb b 0
      then (if Qc_eqb a 0 then NaN else inf_of (Qc_ltb a 0))
      else Fin (a / b)
  | Fin _, _ => Fin 0
  | i, Fin b => inf_of (xorb (sign_neg i) (Qc_ltb b 0))
  | _, _ => NaN
  end.

Definition Qc_of_nat (n : nat) : Qc := Qc_of_Z (Z.of_nat n).

(** ** Exceptions and results *)

Inductive exn : Type :=
  | ValueError
  | IndexError
  | RuntimeError.

#[global] Instance exn_eq_dec : EqDecision exn.
Proof. solve_decision. Defined.

Inductive result (A : Type) : Type :=
  | Ok (a : A)
  | Raise (e : exn).
Arguments Ok {A} a.
Arguments Raise {A} e.

Definition rbind {A B} (r : result A) (k : A → result B) : result B :=
  match r with
  | Ok a => k a
  | Raise e => Raise e
  end.

#[global] Instance result_eq_dec {A} `{EqDecision A} : EqDecision (result A).
Proof. solve_decision. Defined.

(** ** Arrays, tensors and the object store *)

Inductive device : Type :=
  | cpu
  | cuda.

#[global] Instance device_eq_dec : EqDecision device.
Proof. solve_decision. Defined.

(** An array of shape [(length rows, *spatial)]; every row holds the
    [prod spatial] entries of one leading-axis slice in row-major order. *)
Record tensor : Type := mkTensor {
  spatial : list nat;
  rows : list (list num)
}.

#[global] Instance tensor_eq_dec : EqDecision tensor.
Proof. solve_decision. Defined.

Definition numel (dims : list nat) : nat := fold_right Nat.mul 1%nat dims.

Definition shape (t : tensor) : list nat := length (rows t) :: spatial t.

(** [wf_tensor t]: the rows have the length the shape announces. *)
Definition wf_tensor (t : tensor) : bool :=
  forallb (λ r, Nat.eqb (length r) (numel (spatial t))) (rows t).

(** A numpy [ndarray] or a [torch.Tensor] placed on a device. *)
Inductive array : Type :=
  | NdArray (t : tensor)
  | Tensor (t : tensor) (d : device).

#[global] Instance array_eq_dec : EqDecision array.
Proof. solve_decision. Defined.

Definition data (a : array) : tensor :=
  match a with NdArray t => t | Tensor t _ => t end.

(** [torch.is_tensor] *)
Definition is_tensor (a : array) : bool :=
  match a with Tensor _ _ => true | NdArray _ => false end.

Abbreviation loc := nat.
Abbreviation store := (list array).

(** State-and-exception monad of code that reads and writes the store. *)
Definition M (A : Type) : Type := store → store * result A.

Definition ret {A} (a : A) : M A := λ σ, (σ, Ok a).
Definition raise {A} (e : exn) : M A := λ σ, (σ, Raise e).
Definition bind {A B} (m : M A) (k : A → M B) : M B :=
  λ σ, match m σ with
       | (σ', Ok a) => k a σ'
       | (σ', Raise e) => (σ', Raise e)
       end.
Definition lift {A} (r : result A) : M A := λ σ, (σ, r).

Notation "'let*' x := m 'in' k" := (bind m (λ x, k))
  (at level 10, x name, m at level 100, k at level 200).

(** Dereference a name.  Names always denote live objects in Python; a
    location outside the store is reported as [RuntimeError]. *)
Definition load (l : loc) : M array :=
  λ σ, match σ !! l with
       | Some a => (σ, Ok a)
       | None => (σ, Raise RuntimeError)
       end.

Definition alloc (a : array) : M loc := λ σ, (σ ++ [a], Ok (length σ)).

(** [torch.tensor(x)]: always a fresh copy, on the default device. *)
Definition torch_tensor (l : loc) : M loc :=
  let* a := load l in alloc (Tensor (data a) cpu).

(** [x.to(d)]: the tensor itself when it already lives on [d], otherwise a
    copy on [d]. *)
Definition to_device (l : loc) (d : device) : M loc :=
  let* a := load l in
  match a with
  | Tensor t d' => if bool_decide (d' = d) then ret l else alloc (Tensor t d)
  | NdArray t => alloc (Tensor t d)
  end.

(** [x[i]] on the leading axis, for [0 <= i]. *)
Definition getitem (l : loc) (i : nat) : M (list num) :=
  let* a := load l in
  match rows (data a) !! i with
  | Some r => ret r
  | None => raise IndexError
  end.

(** [x[i] = r]: assignment into the object at [l], visible through every
    alias of it. *)
Definition setitem (l : loc) (i : nat) (r : list num) : M unit :=
  λ σ, match σ !! l with
       | Some a =>
           if bool_decide (i < length (rows (data a)))%nat then
             let t := mkTensor (spatial (data a)) (<[i := r]> (rows (data a))) in
             let a' := match a with
                       | NdArray _ => NdArray t
                       | Tensor _ d => Tensor t d
                       end in
             (<[l := a']> σ, Ok tt)
           else (σ, Raise IndexError)
       | None => (σ, Raise RuntimeError)
       end.

(** ** The Coordinate Grid Builder *)

(** All multi-indices of an array of shape [dims], in row-major order. *)
Fixpoint positions (dims : list nat) : list (list nat) :=
  match dims with
  | [] => [[]]
  | d :: ds => flat_map (λ k, map (cons k) (positions ds)) (seq 0 d)
  end.

(** The [k]-th of [d] unit-spaced coordinates centred on zero. *)
Definition centred (d k : nat) : Qc := Qc_of_nat k - (Qc_of_nat d - 1) / 2.

(** Modelled from the spec: [create_grid] lives in [monai.transforms.utils],
    whose source is not available.  The Coordinate Grid Builder "produces a
    homogeneous coordinate grid of shape (D+1, *spatial_size)" whose leading
    axis holds "(x, y[, z], 1) for every output position"; the coordinates
    are unit-spaced and centred on the middle of the grid, the only placement
    that [Resample]'s rescaling [2 * grid[i] / (dim_i - 1)] sends onto
    [[-1, 1]] and that makes translations relative to the image centre. *)
Definition create_grid (spatial_size : list nat) : tensor :=
  let pos := positions spatial_size in
  mkTensor spatial_size
    (imap (λ i d, map (λ idx, Fin (centred d (nth i idx 0%nat))) pos) spatial_size
     ++ [map (λ _, Fin 1) pos]).

(** ** The sampling primitive [torch.nn.functional.grid_sample] *)

Inductive interp_mode : Type :=
  | nearest
  | bilinear.

Inductive padding : Type :=
  | zeros
  | border
  | reflection.

(** A tensor of shape [out_spatial + (D,)]: one coordinate tuple per output
    position, in row-major order of the positions. *)
Record coord_field : Type := mkField {
  out_spatial : list nat;
  points : list (list num)
}.

Definition Qc_floor (p : Qc) : Z := Qfloor (this p).

Definition Qc_abs (p : Qc) : Qc := if Qc_ltb p 0 then - p else p.

Definition Qc_min (a b : Qc) : Qc := if Qc_ltb b a then b else a.
Definition Qc_max (a b : Qc) : Qc := if Qc_ltb a b then b else a.

(** Rounding to the nearest integer, ties to the even one ([nearbyint]). *)
Definition nearbyint (p : Qc) : Z :=
  let f := Qc_floor p in
  let d := p - Qc_of_Z f in
  if Qc_ltb d (1 / 2) then f
  else if Qc_ltb (1 / 2) d then (f + 1)%Z
  else if Z.even f then f else (f + 1)%Z.

(** From normalised [[-1, 1]] to pixel coordinates with
    [align_corners=False]: [-1] and [1] are the outer edges of the first and
    last pixel. *)
Definition unnormalize (x : Qc) (size : nat) : Qc :=
  ((x + 1) * Qc_of_nat size - 1) / 2.

Definition clip_coordinates (p : Qc) (size : nat) : Qc :=
  Qc_min (Qc_of_nat size - 1) (Qc_max p 0).

Definition reflect_coordinates (p : Qc) (twice_low twice_high : Z) : Qc :=
  if bool_decide (twice_low = twice_high) then 0
  else
    let lo := Qc_of_Z twice_low / 2 in
    let span := Qc_of_Z (twice_high - twice_low) / 2 in
    let a := Qc_abs (p - lo) in
    let flips := Qc_floor (a / span) in
    let extra := a - Qc_of_Z flips * span in
    if Z.even flips then extra + lo else span - extra + lo.

Definition compute_coordinates (pad : padding) (p : Qc) (size : nat) : Qc :=
  match pad with
  | zeros => p
  | border => clip_coordinates p size
  | reflection =>
      clip_coordinates
        (reflect_coordinates p (-1) (2 * Z.of_nat size - 1)) size
  end.

(** The pixels read along one axis, with their weights. *)
Definition taps (mode : interp_mode) (p : Qc) : list (Z * Qc) :=
  match mode with
  | nearest => [(nearbyint p, 1)]
  | bilinear =>
      let f := Qc_floor p in
      [(f, Qc_of_Z (f + 1) - p); ((f + 1)%Z, p - Qc_of_Z f)]
  end.

(** Combinations of one tap per axis: the multi-index and the product of the
    weights. *)
Fixpoint corners (axes : list (list (Z * Qc))) : list (list Z * Qc) :=
  match axes with
  | [] => [([], 1)]
  | ts :: rest =>
      flat_map (λ t, map (λ c, (t.1 :: c.1, t.2 * c.2)) (corners rest)) ts
  end.

Definition in_bounds (idx : list Z) (dims : list nat) : bool :=
  forallb (λ p, Z.leb 0 p.1 && Z.ltb p.1 (Z.of_nat p.2)) (zip idx dims).

(** Row-major offset of a multi-index. *)
Definition flat_index (idx : list Z) (dims : list nat) : nat :=
  Z.to_nat (fold_left (λ acc p, acc * Z.of_nat p.2 + p.1)%Z (zip idx dims) 0%Z).

(** Value of one channel at a multi-index; zero outside the image. *)
Definition pixel (dims : list nat) (chan : list num) (idx : list Z) : num :=
  if in_bounds idx dims then default NaN (chan !! flat_index idx dims)
  else Fin 0.

Definition finite_point (pt : list num) : option (list Qc) :=
  mapM (λ x, match x with Fin q => Some q | _ => None end) pt.

(** The kernels of the primitive: on the CPU the vectorised kernel serves
    inputs with two spatial axes and the generic one inputs with three; a
    CUDA tensor is served by the CUDA kernel.  The kernels compute the same
    values at finite coordinates and differ at non-finite ones. *)
Inductive kernel : Type :=
  | Vectorised
  | Generic
  | Cuda.

Definition kernel_of (dev : device) (D : nat) : kernel :=
  match dev with
  | cuda => Cuda
  | cpu => if Nat.eqb D 2 then Vectorised else Generic
  end.

(** The pixel a non-finite coordinate is clamped to: the ends of the axis
    for the infinities; for NaN the first pixel, but the last one in the
    generic kernel, whose [std::min(size - 1, std::max(x, 0))] keeps its
    first argument when a comparison with NaN fails. *)
Definition clip_non_finite (k : kernel) (x : num) (size : nat) : Z :=
  match x, k with
  | NInf, _ => 0%Z
  | PInf, _ => (Z.of_nat size - 1)%Z
  | _, Generic => (Z.of_nat size - 1)%Z
  | _, _ => 0%Z
  end.

(** The coordinate that stands for a non-finite one without clamping: a
    position outside every image. *)
Definition outside : Qc := Qc_of_Z (-100).

(** The pixels read along one axis of [size] pixels for the normalised
    coordinate [x], with their weights; [None] when the weights are NaN.  A
    finite coordinate is unnormalised and padded.  A non-finite coordinate
    is clamped onto the axis by [border] padding; reflecting it gives NaN,
    which is clamped as well; with [zeros] padding it reads outside the
    image, except that the vectorised kernel computes the bilinear weights
    from the coordinate itself. *)
Definition axis_taps (k : kernel) (mode : interp_mode) (pad : padding)
    (x : num) (size : nat) : option (list (Z * Qc)) :=
  match x with
  | Fin q => Some (taps mode (compute_coordinates pad (unnormalize q size) size))
  | _ =>
      match pad with
      | zeros =>
          match mode, k with
          | bilinear, Vectorised => None
          | _, _ => Some (taps mode outside)
          end
      | border => Some (taps mode (Qc_of_Z (clip_non_finite k x size)))
      | reflection => Some (taps mode (Qc_of_Z (clip_non_finite k NaN size)))
      end
  end.

(** A bound, in pixels, of the error of the position the primitive computes
    in [float32] on an axis of [d] pixels.  The normalised coordinate [x],
    of magnitude at most 1, is rounded on its way in; the sum [x + 1], the
    product with the size and the difference are rounded once each, on
    values of at most [2 * d]; each rounding is off by at most [2^-24] of
    the value.  Halved with the result, the four errors add up to less
    than [4 * d * 2^-24 = d / 2^22] pixels. *)
Definition float32_position_error (d : nat) : Qc :=
  Qc_of_nat d / Qc_of_Z (2 ^ 22).

(** One output value.  The point lists its coordinates fastest axis first
    ([x] along the last image axis), so the axes are visited in reverse.
    Coordinates and weights are computed exactly where the primitive
    computes them in [float32]: the value is the primitive's up to rounding
    as long as no rounded position is moved across a pixel boundary, which
    [float32_position_error] bounds. *)
Definition sample_point (k : kernel) (mode : interp_mode) (pad : padding)
    (dims : list nat) (chan : list num) (pt : list num) : num :=
  match mapM (λ xd, axis_taps k mode pad xd.1 xd.2) (zip (reverse pt) dims) with
  | None => NaN
  | Some axes =>
      fold_right (λ c acc, nadd (nmul (Fin c.2) (pixel dims chan c.1)) acc)
                 (Fin 0) (corners axes)
  end.

(** [grid_sample(input[None], grid[None], mode, padding_mode,
    align_corners=False)[0]] for an [input] of shape [(C, *spatial)] on the
    device [dev] and a [grid] of shape [out_spatial + (D,)].  The primitive
    accepts 4-D and 5-D batched inputs with non-empty spatial dimensions, a
    grid of the same rank, and as many coordinates per point as the input
    has spatial axes. *)
Definition grid_sample (dev : device) (input : tensor) (grid : coord_field)
    (mode : interp_mode) (pad : padding) : result tensor :=
  let D := length (spatial input) in
  if negb (Nat.eqb D 2 || Nat.eqb D 3) then Raise RuntimeError
  else if negb (Nat.eqb (length (out_spatial grid)) D) then Raise RuntimeError
  else if negb (forallb (λ pt, Nat.eqb (length pt) D) (points grid))
       then Raise RuntimeError
  else if negb (forallb (λ d, Nat.ltb 0 d) (spatial input)) then Raise RuntimeError
  else Ok (mkTensor (out_spatial grid)
             (map (λ chan,
                     map (sample_point (kernel_of dev D) mode pad
                            (spatial input) chan)
                         (points grid))
                  (rows input))).

(** ** [Resample] *)

Record Resample : Type := mkResample {
  rs_padding_mode : padding;
  rs_as_tensor_output : bool;
  rs_device : option device
}.

(** [Resample()]: the constructor's defaults. *)
Definition Resample_default : Resample := mkResample zeros false None.

(** [2. * grid[i] / (dim - 1.)] on one row. *)
Definition normalise_row (dim : nat) (r : list num) : list num :=
  map (λ x, ndiv (nmul (Fin 2) x) (Fin (Qc_of_nat dim - 1))) r.

(** [for i, dim in enumerate(img.shape[1:]): grid[i] = 2. * grid[i] / (dim - 1.)],
    entered at index [i] with the remaining dimensions [dims]. *)
Fixpoint normalise_rows (grid : loc) (i : nat) (dims : list nat) : M unit :=
  match dims with
  | [] => ret tt
  | dim :: rest =>
      let* r := getitem grid i in
      let* _ := setitem grid i (normalise_row dim r) in
      normalise_rows grid (S i) rest
  end.

(** [grid[:-1] / grid[-1:]]: every row but the last, divided entrywise by
    the last. *)
Definition hom_divide (g : tensor) : tensor :=
  let n := length (rows g) in
  match rows g !! (n - 1)%nat with
  | None => g
  | Some h =>
      mkTensor (spatial g) (map (λ r, zip_with ndiv r h) (take (n - 1) (rows g)))
  end.

(** [grid[idx]] with a sequence of non-negative row indices. *)
Definition index_rows (g : tensor) (idx : list nat) : result tensor :=
  match mapM (λ i, rows g !! i) idx with
  | Some rs => Ok (mkTensor (spatial g) rs)
  | None => Raise IndexError
  end.

(** [grid.permute(list(range(grid.ndim))[1:] + [0])]: the leading axis
    becomes the last one. *)
Definition permute (g : tensor) : coord_field :=
  mkField (spatial g)
    (map (λ j, map (λ r, default NaN (r !! j)) (rows g))
         (seq 0 (numel (spatial g)))).

Definition device_of (a : array) : device :=
  match a with Tensor _ d => d | NdArray _ => cpu end.

Definition Resample_call (self : Resample) (img grid : loc)
    (mode : interp_mode) : M array :=
  let* a := load img in
  let* img := (if is_tensor a then ret img else torch_tensor img) in
  let* b := load grid in
  let* grid := (if is_tensor b then ret grid else torch_tensor grid) in
  let* moved :=
    match rs_device self with
    | Some d =>
        let* img' := to_device img d in
        let* grid' := to_device grid d in
        ret (img', grid')
    | None => ret (img, grid)
    end in
  let img := moved.1 in
  let grid := moved.2 in
  let* im := load img in
  let* _ := normalise_rows grid 0 (spatial (data im)) in
  let* g := load grid in
  let grid1 := hom_divide (data g) in
  let* grid2 :=
    lift (index_rows grid1 (reverse (seq 0 (length (spatial (data im)))))) in
  let grid3 := permute grid2 in
  let* out :=
    lift (if bool_decide (device_of im = device_of g)
          then grid_sample (device_of im) (data im) grid3 mode
                 (rs_padding_mode self)
          else Raise RuntimeError) in
  if rs_as_tensor_output self then ret (Tensor out (device_of im))
  else ret (NdArray out).

(** A call on two arrays nobody else refers to: [img] is stored at location
    0 and [grid] at location 1 of an otherwise empty store. *)
Definition Resample_apply (self : Resample) (img grid : array)
    (mode : interp_mode) : result array :=
  (Resample_call self 0%nat 1%nat mode [img; grid]).2.

(** ** Affine matrices *)

(** A numpy matrix, as the list of its rows. *)
Definition matrix : Type := list (list Qc).

(** [np.eye(n)] *)
Definition eye (n : nat) : matrix :=
  map (λ i, map (λ j, if Nat.eqb i j then 1 else 0) (seq 0 n)) (seq 0 n).

Definition dot (a b : list Qc) : Qc := fold_right Qcplus 0 (zip_with Qcmult a b).

Definition col (j : nat) (B : matrix) : list Qc :=
  map (λ r, default 0 (r !! j)) B.

Definition ncols (B : matrix) : nat :=
  match B with [] => 0%nat | r :: _ => length r end.

(** [A @ B] *)
Definition matmul (A B : matrix) : matrix :=
  map (λ r, map (λ j, dot r (col j B)) (seq 0 (ncols B))) A.

Infix "@@" := matmul (at level 40, left associativity).

(** [is_square n A]: [A] has [n] rows of [n] entries. *)
Definition is_square (n : nat) (A : matrix) : bool :=
  Nat.eqb (length A) n && forallb (λ r, Nat.eqb (length r) n) A.

(** A parameter group as a caller may pass it: [None], a number, or a
    sequence of numbers. *)
Inductive params : Type :=
  | PNone
  | PScalar (x : Qc)
  | PSeq (l : list Qc).

#[global] Instance params_eq_dec : EqDecision params.
Proof. solve_decision. Defined.

(** Python truthiness of a parameter group: [None], zero and the empty
    sequence are falsy. *)
Definition truthy (p : params) : bool :=
  match p with
  | PNone => false
  | PScalar x => negb (Qc_eqb x 0)
  | PSeq l => negb (Nat.eqb (length l) 0)
  end.

(** ** The seeded draw source *)

(** What a draw asked for. *)
Inductive draw : Type :=
  | DRand
  | DUniform (low high : Qc) (size : list nat)
  | DNormal (size : list nat).

#[global] Instance draw_eq_dec : EqDecision draw.
Proof. solve_decision. Defined.

(** Modelled from the spec: [Randomizable] lives in
    [monai.transforms.compose], whose source is not available; its [R] is a
    [numpy.random.RandomState].  The draw source is "a source of
    uniform and normal random draws, seedable and independently reproducible
    per instance".  A state holds the unit samples (in [[0, 1)]) and the
    standard-normal samples it will hand out, the position of the next one,
    and the record of the draws made so far, oldest first. *)
Record RandomState : Type := mkRandomState {
  unit_samples : nat → Qc;
  normal_samples : nat → Qc;
  cursor : nat;
  drawn : list draw
}.

Definition advance (R : RandomState) (n : nat) (d : draw) : RandomState :=
  mkRandomState (unit_samples R) (normal_samples R) (cursor R + n) (drawn R ++ [d]).

(** [R.rand()] *)
Definition R_rand (R : RandomState) : Qc * RandomState :=
  (unit_samples R (cursor R), advance R 1 DRand).

(** The value [uniform(low, high)] makes from the unit sample [u]. *)
Definition uniform_value (low high u : Qc) : Qc := low + (high - low) * u.

(** [R.uniform(low, high)] *)
Definition R_uniform (low high : Qc) (R : RandomState) : Qc * RandomState :=
  (uniform_value low high (unit_samples R (cursor R)),
   advance R 1 (DUniform low high [])).

(** [R.uniform(low, high, size)]: an array of shape [size], flattened. *)
Definition R_uniform_array (low high : Qc) (size : list nat)
    (R : RandomState) : list Qc * RandomState :=
  (map (λ k, uniform_value low high (unit_samples R (cursor R + k)))
       (seq 0 (numel size)),
   advance R (numel size) (DUniform low high size)).

(** [R.normal(size=size)]: an array of shape [size], flattened. *)
Definition R_normal (size : list nat) (R : RandomState) : list Qc * RandomState :=
  (map (λ k, normal_samples R (cursor R + k)) (seq 0 (numel size)),
   advance R (numel size) (DNormal size)).

(** ** The transforms *)

Section Transforms.

(** The Affine Matrix Builder, the control-grid builder and the two library
    filters are used through their interface only: [create_rotate],
    [create_shear], [create_translate], [create_scale] and
    [create_control_grid] of [monai.transforms.utils],
    [torch.nn.functional.interpolate(grid[None], size, mode='bicubic',
    align_corners=False)[0]] and
    [scipy.ndimage.gaussian_filter(x, sigma, mode='constant', cval=0)] on an
    array [x] given by its shape and its flattened entries. *)
Variables create_rotate create_shear create_translate create_scale :
  nat → params → matrix.
Variable create_control_grid : list nat → list nat → tensor.
Variable interpolate_bicubic : tensor → list nat → tensor.
Variable gaussian_filter : list nat → list Qc → Qc → list Qc.

(** *** [AffineGrid] *)

Record AffineGrid : Type := mkAffineGrid {
  ag_rotate_params : params;
  ag_shear_params : params;
  ag_translate_params : params;
  ag_scale_params : params;
  ag_as_tensor_output : bool;
  ag_device : option device
}.

(** The matrix [AffineGrid.__call__] builds for a grid with [spatial_dims]
    spatial axes. *)
Definition affine_matrix (self : AffineGrid) (spatial_dims : nat) : matrix :=
  let affine := eye (spatial_dims + 1) in
  let affine :=
    if truthy (ag_rotate_params self)
    then affine @@ create_rotate spatial_dims (ag_rotate_params self)
    else affine in
  let affine :=
    if truthy (ag_shear_params self)
    then affine @@ create_shear spatial_dims (ag_shear_params self)
    else affine in
  let affine :=
    if truthy (ag_translate_params self)
    then affine @@ create_translate spatial_dims (ag_translate_params self)
    else affine in
  let affine :=
    if truthy (ag_scale_params self)
    then affine @@ create_scale spatial_dims (ag_scale_params self)
    else affine in
  affine.

Definition ndot (a : list Qc) (c : list num) : num :=
  fold_right nadd (Fin 0) (zip_with (λ x y, nmul (Fin x) y) a c).

(** [(affine @ grid.reshape((grid.shape[0], -1))).reshape([-1] + list(grid.shape[1:]))];
    the product needs as many grid rows as the matrix has columns.  A grid
    without entries cannot be reshaped: the size that [-1] stands for is
    ambiguous, in the first reshape when the leading axis is empty and in the
    second one when a spatial axis is. *)
Definition apply_affine (affine : matrix) (g : tensor) : result tensor :=
  if Nat.eqb (length (rows g) * numel (spatial g)) 0 then Raise RuntimeError
  else if forallb (λ a, Nat.eqb (length a) (length (rows g))) affine then
    Ok (mkTensor (spatial g)
          (map (λ a, map (λ j, ndot a (map (λ r, default NaN (r !! j)) (rows g)))
                         (seq 0 (numel (spatial g))))
               affine))
  else Raise RuntimeError.

Definition AffineGrid_call (self : AffineGrid)
    (spatial_size : option (list nat)) (grid : option array) : result array :=
  rbind
    match grid with
    | Some g => Ok g
    | None =>
        match spatial_size with
        | Some s => Ok (NdArray (create_grid s))
        | None => Raise ValueError
        end
    end
    (λ grid,
      let spatial_dims := (length (shape (data grid)) - 1)%nat in
      let affine := affine_matrix self spatial_dims in
      let affine_dev := default cpu (ag_device self) in
      let grid_dev := default (device_of grid) (ag_device self) in
      if bool_decide (affine_dev = grid_dev) then
        rbind (apply_affine affine (data grid))
          (λ out,
            if ag_as_tensor_output self then Ok (Tensor out grid_dev)
            else Ok (NdArray out))
      else Raise RuntimeError).

(** *** [RandAffineGrid] *)

(** The range fields hold what [ensure_tuple] made of the constructor's
    arguments: a tuple of per-axis bounds, [None] marking an axis without
    perturbation. *)
Record RandAffineGrid : Type := mkRandAffineGrid {
  rag_rotate_range : list (option Qc);
  rag_shear_range : list (option Qc);
  rag_translate_range : list (option Qc);
  rag_scale_range : list (option Qc);
  rag_rotate_params : params;
  rag_shear_params : params;
  rag_translate_params : params;
  rag_scale_params : params;
  rag_as_tensor_output : bool;
  rag_device : option device;
  rag_R : RandomState
}.

(** [[post(R.uniform(-f, f)) for f in range if f is not None]] *)
Fixpoint sample_range (post : Qc → Qc) (range : list (option Qc))
    (R : RandomState) : list Qc * RandomState :=
  match range with
  | [] => ([], R)
  | None :: rest => sample_range post rest R
  | Some f :: rest =>
      let (v, R1) := R_uniform (- f) f R in
      let (vs, R2) := sample_range post rest R1 in
      (post v :: vs, R2)
  end.

(** [if range: params = [...]]: a non-empty tuple is truthy. *)
Definition sample_group (post : Qc → Qc) (range : list (option Qc))
    (old : params) (R : RandomState) : params * RandomState :=
  match range with
  | [] => (old, R)
  | _ :: _ => let (vs, R') := sample_range post range R in (PSeq vs, R')
  end.

Definition RandAffineGrid_randomize (self : RandAffineGrid) : RandAffineGrid :=
  let (rotate, R1) :=
    sample_group (λ v, v) (rag_rotate_range self) (rag_rotate_params self)
                 (rag_R self) in
  let (shear, R2) :=
    sample_group (λ v, v) (rag_shear_range self) (rag_shear_params self) R1 in
  let (translate, R3) :=
    sample_group (λ v, v) (rag_translate_range self) (rag_translate_params self) R2 in
  let (scale, R4) :=
    sample_group (λ v, v + 1) (rag_scale_range self) (rag_scale_params self) R3 in
  mkRandAffineGrid (rag_rotate_range self) (rag_shear_range self)
    (rag_translate_range self) (rag_scale_range self)
    rotate shear translate scale
    (rag_as_tensor_output self) (rag_device self) R4.

Definition RandAffineGrid_call (self : RandAffineGrid)
    (spatial_size : option (list nat)) (grid : option array)
    : RandAffineGrid * result array :=
  let self := RandAffineGrid_randomize self in
  let _affine_grid :=
    mkAffineGrid (rag_rotate_params self) (rag_shear_params self)
      (rag_translate_params self) (rag_scale_params self)
      (rag_as_tensor_output self) (rag_device self) in
  (self, AffineGrid_call _affine_grid spatial_size grid).

(** [RandAffineGrid(rotate_range, shear_range, translate_range, scale_range,
    as_tensor_output, device)] with the ranges already made tuples. *)
Definition RandAffineGrid_init (rotate_range shear_range translate_range
    scale_range : list (option Qc)) (as_tensor_output : bool)
    (dev : option device) (R : RandomState) : RandAffineGrid :=
  mkRandAffineGrid rotate_range shear_range translate_range scale_range
    PNone PNone PNone PNone as_tensor_output dev R.

(** *** [RandDeformGrid] *)

(** [random_offset] is kept as the rows of the offset field, one per spatial
    axis of the control grid (the constructor's placeholder [0.0] is the
    empty field). *)
Record RandDeformGrid : Type := mkRandDeformGrid {
  rdg_spacing : list nat;
  rdg_magnitude : Qc * Qc;
  rdg_rand_mag : Qc;
  rdg_as_tensor_output : bool;
  rdg_random_offset : list (list Qc);
  rdg_device : option device;
  rdg_R : RandomState
}.

(** The [n] rows of [k] entries of a flattened array of shape [(n, k)]. *)
Definition reshape_rows (n k : nat) (l : list Qc) : list (list Qc) :=
  map (λ i, take k (drop (i * k) l)) (seq 0 n).

Definition RandDeformGrid_randomize (self : RandDeformGrid)
    (grid_size : list nat) : RandDeformGrid :=
  let (offset, R1) := R_normal (length grid_size :: grid_size) (rdg_R self) in
  let (mag, R2) := R_uniform (rdg_magnitude self).1 (rdg_magnitude self).2 R1 in
  mkRandDeformGrid (rdg_spacing self) (rdg_magnitude self) mag
    (rdg_as_tensor_output self)
    (reshape_rows (length grid_size) (numel grid_size) offset)
    (rdg_device self) R2.

(** [a[:d] += b] for an array [a] given by its rows and a field [b] with the
    same trailing shape: numpy adds row by row when [b] has as many rows as
    the slice, repeats a single row of [b], and rejects anything else. *)
Definition iadd_leading (a : list (list num)) (d : nat) (b : list (list Qc))
    : result (list (list num)) :=
  let s := length (take d a) in
  let add_row (r : list num) (o : list Qc) := zip_with (λ x y, nadd x (Fin y)) r o in
  if Nat.eqb (length b) s then
    Ok (zip_with add_row (take d a) b ++ drop d a)
  else
    match b with
    | [o] => Ok (map (λ r, add_row r o) (take d a) ++ drop d a)
    | _ => Raise ValueError
    end.

Definition RandDeformGrid_call (self : RandDeformGrid) (spatial_size : list nat)
    : RandDeformGrid * result array :=
  let control_grid := create_control_grid spatial_size (rdg_spacing self) in
  let self := RandDeformGrid_randomize self (spatial control_grid) in
  (self,
   rbind (iadd_leading (rows control_grid) (length spatial_size)
            (map (map (Qcmult (rdg_rand_mag self))) (rdg_random_offset self)))
     (λ rs,
       let control_grid := mkTensor (spatial control_grid) rs in
       if rdg_as_tensor_output self
       then Ok (Tensor control_grid (default cpu (rdg_device self)))
       else Ok (NdArray control_grid))).

Definition RandDeformGrid_init (spacing : list nat) (magnitude_range : Qc * Qc)
    (as_tensor_output : bool) (dev : option device) (R : RandomState)
    : RandDeformGrid :=
  mkRandDeformGrid spacing magnitude_range 1 as_tensor_output [] dev R.

(** *** [Affine] *)

Record Affine : Type := mkAffine {
  af_affine_grid : AffineGrid;
  af_resampler : Resample
}.

Definition Affine_init (rotate_params shear_params translate_params
    scale_params : params) (padding_mode : padding) (as_tensor_output : bool)
    (dev : option device) : Affine :=
  mkAffine
    (mkAffineGrid rotate_params shear_params translate_params scale_params
       true dev)
    (mkResample padding_mode as_tensor_output dev).

Definition Affine_call (self : Affine) (img : array) (spatial_size : list nat)
    (mode : interp_mode) : result array :=
  rbind (AffineGrid_call (af_affine_grid self) (Some spatial_size) None)
    (λ grid, Resample_apply (af_resampler self) img grid mode).

(** *** [RandAffine] *)

Record RandAffine : Type := mkRandAffine {
  ra_rand_affine_grid : RandAffineGrid;
  ra_resampler : Resample;
  ra_do_transform : bool;
  ra_prob : Qc;
  ra_R : RandomState
}.

(** The two draw sources are the ones [set_random_state] installs in the
    transform and in its nested grid sampler. *)
Definition RandAffine_init (prob : Qc) (rotate_range shear_range
    translate_range scale_range : list (option Qc)) (padding_mode : padding)
    (as_tensor_output : bool) (dev : option device)
    (R_grid R : RandomState) : RandAffine :=
  mkRandAffine
    (RandAffineGrid_init rotate_range shear_range translate_range scale_range
       true dev R_grid)
    (mkResample padding_mode as_tensor_output dev)
    false prob R.

Definition RandAffine_randomize (self : RandAffine) : RandAffine :=
  let (r, R') := R_rand (ra_R self) in
  mkRandAffine (ra_rand_affine_grid self) (ra_resampler self)
    (Qc_ltb r (ra_prob self)) (ra_prob self) R'.

Definition RandAffine_call (self : RandAffine) (img : array)
    (spatial_size : list nat) (mode : interp_mode)
    : RandAffine * result array :=
  let self := RandAffine_randomize self in
  if ra_do_transform self then
    let (rag, grid) :=
      RandAffineGrid_call (ra_rand_affine_grid self) (Some spatial_size) None in
    (mkRandAffine rag (ra_resampler self) (ra_do_transform self)
       (ra_prob self) (ra_R self),
     rbind grid (λ grid, Resample_apply (ra_resampler self) img grid mode))
  else
    let grid := NdArray (create_grid spatial_size) in
    (self, Resample_apply (ra_resampler self) img grid mode).

(** *** [Rand2DElastic] *)

Record Rand2DElastic : Type := mkRand2DElastic {
  r2_deform_grid : RandDeformGrid;
  r2_rand_affine_grid : RandAffineGrid;
  r2_resampler : Resample;
  r2_prob : Qc;
  r2_do_transform : bool;
  r2_R : RandomState
}.

Definition Rand2DElastic_init (spacing : list nat) (magnitude_range : Qc * Qc)
    (prob : Qc) (rotate_range shear_range translate_range
    scale_range : list (option Qc)) (padding_mode : padding)
    (as_tensor_output : bool) (dev : option device)
    (R_deform R_grid R : RandomState) : Rand2DElastic :=
  mkRand2DElastic
    (RandDeformGrid_init spacing magnitude_range true dev R_deform)
    (RandAffineGrid_init rotate_range shear_range translate_range scale_range
       true dev R_grid)
    (mkResample padding_mode as_tensor_output dev)
    prob false R.

Definition Rand2DElastic_randomize (self : Rand2DElastic) : Rand2DElastic :=
  let (r, R') := R_rand (r2_R self) in
  mkRand2DElastic (r2_deform_grid self) (r2_rand_affine_grid self)
    (r2_resampler self) (r2_prob self) (Qc_ltb r (r2_prob self)) R'.

Definition Rand2DElastic_call (self : Rand2DElastic) (img : array)
    (spatial_size : list nat) (mode : interp_mode)
    : Rand2DElastic * result array :=
  let self := Rand2DElastic_randomize self in
  if r2_do_transform self then
    let (dg, grid) := RandDeformGrid_call (r2_deform_grid self) spatial_size in
    match grid with
    | Raise e =>
        (mkRand2DElastic dg (r2_rand_affine_grid self) (r2_resampler self)
           (r2_prob self) (r2_do_transform self) (r2_R self), Raise e)
    | Ok grid =>
        let (rag, grid) :=
          RandAffineGrid_call (r2_rand_affine_grid self) None (Some grid) in
        (mkRand2DElastic dg rag (r2_resampler self) (r2_prob self)
           (r2_do_transform self) (r2_R self),
         rbind grid
           (λ grid,
             let grid :=
               Tensor (interpolate_bicubic (data grid) spatial_size)
                      (device_of grid) in
             Resample_apply (r2_resampler self) img grid mode))
    end
  else
    let grid := NdArray (create_grid spatial_size) in
    (self, Resample_apply (r2_resampler self) img grid mode).

(** *** [Rand3DElastic] *)

(** [rand_offset] is [None] until the first transformed call; afterwards it
    holds the three rows of the offset field. *)
Record Rand3DElastic : Type := mkRand3DElastic {
  r3_rand_affine_grid : RandAffineGrid;
  r3_resampler : Resample;
  r3_sigma_range : Qc * Qc;
  r3_magnitude_range : Qc * Qc;
  r3_prob : Qc;
  r3_do_transform : bool;
  r3_rand_offset : option (list (list Qc));
  r3_magnitude : Qc;
  r3_sigma : Qc;
  r3_R : RandomState
}.

Definition Rand3DElastic_init (sigma_range magnitude_range : Qc * Qc)
    (prob : Qc) (rotate_range shear_range translate_range
    scale_range : list (option Qc)) (padding_mode : padding)
    (as_tensor_output : bool) (dev : option device)
    (R_grid R : RandomState) : Rand3DElastic :=
  mkRand3DElastic
    (RandAffineGrid_init rotate_range shear_range translate_range scale_range
       true dev R_grid)
    (mkResample padding_mode as_tensor_output dev)
    sigma_range magnitude_range prob false None 1 1 R.

Definition Rand3DElastic_randomize (self : Rand3DElastic)
    (grid_size : list nat) : Rand3DElastic :=
  let (r, R1) := R_rand (r3_R self) in
  let do_transform := Qc_ltb r (r3_prob self) in
  let (rand_offset, R2) :=
    if do_transform then
      let (o, R') := R_uniform_array (-1) 1 (3%nat :: grid_size) R1 in
      (Some (reshape_rows 3 (numel grid_size) o), R')
    else (r3_rand_offset self, R1) in
  let (magnitude, R3) :=
    R_uniform (r3_magnitude_range self).1 (r3_magnitude_range self).2 R2 in
  let (sigma, R4) :=
    R_uniform (r3_sigma_range self).1 (r3_sigma_range self).2 R3 in
  mkRand3DElastic (r3_rand_affine_grid self) (r3_resampler self)
    (r3_sigma_range self) (r3_magnitude_range self) (r3_prob self)
    do_transform rand_offset magnitude sigma R4.

(** [for i in range(3): grid[i] += gaussian_filter(rand_offset[i], sigma,
    mode='constant', cval=0) * magnitude], entered at index [i] with [n]
    rounds to go. *)
Fixpoint add_smoothed_offsets (self : Rand3DElastic) (offset : list (list Qc))
    (g : tensor) (i n : nat) : result tensor :=
  match n with
  | O => Ok g
  | S n' =>
      match offset !! i, rows g !! i with
      | Some o, Some r =>
          let smooth := gaussian_filter (spatial g) o (r3_sigma self) in
          let r' :=
            zip_with (λ x y, nadd x (Fin (y * r3_magnitude self))) r smooth in
          add_smoothed_offsets self offset
            (mkTensor (spatial g) (<[i := r']> (rows g))) (S i) n'
      | _, _ => Raise IndexError
      end
  end.

Definition Rand3DElastic_call (self : Rand3DElastic) (img : array)
    (spatial_size : list nat) (mode : interp_mode)
    : Rand3DElastic * result array :=
  let self := Rand3DElastic_randomize self spatial_size in
  let grid := create_grid spatial_size in
  if r3_do_transform self then
    match add_smoothed_offsets self (default [] (r3_rand_offset self)) grid 0 3 with
    | Raise e => (self, Raise e)
    | Ok grid =>
        let (rag, grid) :=
          RandAffineGrid_call (r3_rand_affine_grid self) None
            (Some (NdArray grid)) in
        (mkRand3DElastic rag (r3_resampler self) (r3_sigma_range self)
           (r3_magnitude_range self) (r3_prob self) (r3_do_transform self)
           (r3_rand_offset self) (r3_magnitude self) (r3_sigma self)
           (r3_R self),
         rbind grid (λ grid, Resample_apply (r3_resampler self) img grid mode))
    end
  else (self, Resample_apply (r3_resampler self) img (NdArray grid) mode).

End Transforms.

(** ** [Resample.__call__] as a function of its two arrays

    Definitions used to reason about [Resample_call]: the pure counterpart
    of its loop and of its result, and its two phases. *)

(** The rows of the grid after the rounds of the loop that start at row [i]
    and run through the dimensions [dims]. *)
Fixpoint normalised_from (i : nat) (dims : list nat) (rs : list (list num))
    : list (list num) :=
  match dims with
  | [] => rs
  | dim :: rest => normalised_from (S i) rest (alter (normalise_row dim) i rs)
  end.

(** The grid after the loop, or the [IndexError] of a grid with fewer rows
    than the image has spatial axes. *)
Definition normalised (img grid : tensor) : result tensor :=
  if bool_decide (length (spatial img) ≤ length (rows grid))%nat
  then Ok (mkTensor (spatial grid) (normalised_from 0 (spatial img) (rows grid)))
  else Raise IndexError.

(** The coordinates handed to the sampling primitive. *)
Definition sampling_grid (img grid : tensor) : result coord_field :=
  rbind (normalised img grid) (λ g,
  rbind (index_rows (hom_divide g) (reverse (seq 0 (length (spatial img)))))
    (λ g2, Ok (permute g2))).

(** The device an array is on when the sampling primitive is reached. *)
Definition placed (self : Resample) (a : array) : device :=
  default (device_of a) (rs_device self).

Definition resample_result (self : Resample) (img grid : array)
    (mode : interp_mode) : result array :=
  rbind (sampling_grid (data img) (data grid)) (λ c,
  rbind (if bool_decide (placed self img = placed self grid)
         then grid_sample (placed self img) (data img) c mode
                (rs_padding_mode self)
         else Raise RuntimeError)
    (λ out,
      if rs_as_tensor_output self then Ok (Tensor out (placed self img))
      else Ok (NdArray out))).

(** The two phases of [Resample.__call__]: making [img] and [grid] tensors on
    the requested device, and everything from the loop on. *)
Definition to_tensors (self : Resample) (img grid : loc) : M (loc * loc) :=
  let* a := load img in
  let* img := (if is_tensor a then ret img else torch_tensor img) in
  let* b := load grid in
  let* grid := (if is_tensor b then ret grid else torch_tensor grid) in
  match rs_device self with
  | Some d =>
      let* img' := to_device img d in
      let* grid' := to_device grid d in
      ret (img', grid')
  | None => ret (img, grid)
  end.

Definition sample_on (self : Resample) (img grid : loc) (mode : interp_mode)
    : M array :=
  let* im := load img in
  let* _ := normalise_rows grid 0 (spatial (data im)) in
  let* g := load grid in
  let grid1 := hom_divide (data g) in
  let* grid2 :=
    lift (index_rows grid1 (reverse (seq 0 (length (spatial (data im)))))) in
  let grid3 := permute grid2 in
  let* out :=
    lift (if bool_decide (device_of im = device_of g)
          then grid_sample (device_of im) (data im) grid3 mode
                 (rs_padding_mode self)
          else Raise RuntimeError) in
  if rs_as_tensor_output self then ret (Tensor out (device_of im))
  else ret (NdArray out).

(** The array [a] with its leading-axis rows replaced. *)
Definition with_rows (a : array) (rs : list (list num)) : array :=
  match a with
  | NdArray t => NdArray (mkTensor (spatial t) rs)
  | Tensor t d => Tensor (mkTensor (spatial t) rs) d
  end.


(** ** The specification's description of the affine matrix, of the
       sampling law and of the deformation *)

(** The factor a parameter group contributes to the affine matrix in the
    words of the specification: the builder's matrix when the group is
    provided and non-empty, the identity otherwise. *)
Definition factor (create : nat → params → matrix) (spatial_dims : nat)
    (p : params) : matrix :=
  if truthy p then create spatial_dims p else eye (spatial_dims + 1).

(** The composed Affine Matrix of the specification:
    identity, rotate, shear, translate, scale, multiplied in this order. *)
Definition composed_affine
    (create_rotate create_shear create_translate create_scale : nat → params → matrix)
    (rotate shear translate scale : params) (spatial_dims : nat) : matrix :=
  eye (spatial_dims + 1)
    @@ factor create_rotate spatial_dims rotate
    @@ factor create_shear spatial_dims shear
    @@ factor create_translate spatial_dims translate
    @@ factor create_scale spatial_dims scale.

(** The entries of a range group that are not [None], in sequence order. *)
Definition axis_bounds (range : list (option Qc)) : list Qc := omap id range.

(** The parameters the specification's sampling law yields for the bounds
    [fs] when the draws use the unit samples of [R] from position [first] on:
    the [k]-th is [post (uniform(-f, f))] made from sample [first + k]. *)
Definition sampled_params (post : Qc → Qc) (R : RandomState) (first : nat)
    (fs : list Qc) : list Qc :=
  imap (λ k f, post (uniform_value (- f) f (unit_samples R (first + k)))) fs.

(** The draws the law asks for, in order. *)
Definition uniform_draws (fs : list Qc) : list draw :=
  map (λ f, DUniform (- f) f []) fs.

(** Row [i] of a control grid with [K] entries per row after the
    perturbation of the specification: entry [j] has gained [mag] times the
    standard-normal sample of position [i * K + j] of the offset field. *)
Definition perturbed_row (R : RandomState) (mag : Qc) (K i : nat)
    (r : list num) : list num :=
  imap (λ j x, nadd x (Fin (mag * normal_samples R (cursor R + (i * K + j))))) r.

(** ** Concrete builders *)

Definition param_list (p : params) : list Qc :=
  match p with
  | PNone => []
  | PScalar x => [x]
  | PSeq l => l
  end.

(** Modelled from the spec: [create_translate] lives in
    [monai.transforms.utils], whose source is not available.  The Affine
    Matrix Builder "returns a
    (D+1)x(D+1) homogeneous transform matrix" for a translation: the identity
    with the shift of axis [i] in row [i] of the last column. *)
Definition create_translate (spatial_dims : nat) (shift : params) : matrix :=
  map (λ i, map (λ j,
      if Nat.eqb i j then 1
      else if Nat.eqb j spatial_dims then default 0 (param_list shift !! i)
      else 0) (seq 0 (spatial_dims + 1)))
    (seq 0 (spatial_dims + 1)).

(** Modelled from the spec: [create_scale] lives in
    [monai.transforms.utils], whose source is not available.  The homogeneous
    matrix of a scaling: the
    diagonal matrix of the per-axis factors (1 for an axis without factor)
    followed by 1. *)
Definition create_scale (spatial_dims : nat) (factor : params) : matrix :=
  map (λ i, map (λ j,
      if Nat.eqb i j then
        (if Nat.ltb i spatial_dims then default 1 (param_list factor !! i) else 1)
      else 0) (seq 0 (spatial_dims + 1)))
    (seq 0 (spatial_dims + 1)).

(** Stand-in for a builder that a call does not invoke because its parameter
    group is falsy. *)
Definition not_invoked (spatial_dims : nat) (p : params) : matrix := [].

(** A control-grid builder for spacing 1: the full-resolution grid. *)
Definition dense_control_grid (spatial_size spacing : list nat) : tensor :=
  create_grid spatial_size.

(** ** Concrete inputs *)

Definition qz (z : Z) : num := Fin (Qc_of_Z z).

Definition qc (n : Z) (d : positive) : Qc := Q2Qc (n # d).

Definition qq (n : Z) (d : positive) : num := Fin (qc n d).

(** The image [[[1,2],[3,4]]] of shape [(1,2,2)]. *)
Definition img22 : array := NdArray (mkTensor [2;2]%nat [[qz 1; qz 2; qz 3; qz 4]]).

(** The image [[[1,2,3],[4,5,6],[7,8,9]]] of shape [(1,3,3)]. *)
Definition img33 : array :=
  NdArray (mkTensor [3;3]%nat [map qz [1;2;3;4;5;6;7;8;9]%Z]).

(** The image [[[1,2,3,4],[5,6,7,8],[9,10,11,12],[13,14,15,16]]] of shape
    [(1,4,4)]. *)
Definition img44 : array :=
  NdArray (mkTensor [4;4]%nat
             [map qz [1;2;3;4;5;6;7;8;9;10;11;12;13;14;15;16]%Z]).

Definition img44_resampled : tensor :=
  mkTensor [4;4]%nat
    [[qq 1 4;  qq 11 12; qq 19 12; qq 1 1;
      qq 13 6; qq 31 6;  qq 13 2;  qq 11 3;
      qq 29 6; qq 21 2;  qq 71 6;  qq 19 3;
      qq 13 4; qq 83 12; qq 91 12; qq 4 1]].


(** An image of shape [(1,2,2,2)]. *)
Definition img222 : array :=
  NdArray (mkTensor [2;2;2]%nat [map qz [1;2;3;4;5;6;7;8]%Z]).

(** A grid of shape [(2,2,2)]: the two coordinate rows of the identity grid
    of size (2,2), without homogeneous row. *)
Definition grid222 : array :=
  NdArray (mkTensor [2;2]%nat
    [[qq (-1) 2; qq (-1) 2; qq 1 2; qq 1 2];
     [qq (-1) 2; qq 1 2; qq (-1) 2; qq 1 2]]).


(** The identity grid of size (2,2) moved by 1/2 along both axes. *)
Definition shifted_grid22 : tensor :=
  mkTensor [2;2]%nat
    [[qz 0; qz 0; qz 1; qz 1];
     [qz 0; qz 1; qz 0; qz 1];
     [qz 1; qz 1; qz 1; qz 1]].

(** A draw source whose unit samples are all 3/4 and whose normal samples
    are all 1, before its first draw. *)
Definition constant_source : RandomState :=
  mkRandomState (λ _, qc 3 4) (λ _, 1) 0 [].

(** ** Row-major layout *)

(** Row-major offset of the multi-index [idx] in an array of shape [dims]. *)
Fixpoint ravel (dims : list nat) (idx : list nat) : nat :=
  match dims, idx with
  | d :: ds, i :: rest => (i * numel ds + ravel ds rest)%nat
  | _, _ => 0%nat
  end.

(** [in_range dims idx]: [idx] has one component per axis, each below the
    size of its axis. *)
Definition in_range (dims idx : list nat) : Prop := Forall2 lt idx dims.

(** ** Array transforms: [SpatialCrop]

    The transforms on plain arrays fail with [assert] as well as with
    built-in exceptions. *)

Module Messages.
Import String.
Definition roi_center_positive : string :=
  "all elements of roi_center must be positive.".
Definition roi_size_positive : string :=
  "all elements of roi_size must be positive.".
Definition roi_start_end_required : string :=
  "roi_start and roi_end must be provided.".
Definition roi_start_nonnegative : string :=
  "all elements of roi_start must be greater than or equal to 0.".
Definition roi_end_positive : string :=
  "all elements of roi_end must be positive.".
Definition roi_start_outside : string := "roi start out of image space.".
Definition roi_end_outside : string := "roi end out of image space.".
Definition invalid_roi_range : string := "invalid roi range.".
End Messages.

#[global] Instance string_eq_dec : EqDecision String.string :=
  String.string_dec.

(** A failed [assert] with its message, or a built-in exception. *)
Inductive error : Type :=
  | AssertionError (message : String.string)
  | Builtin (e : exn).

#[global] Instance error_eq_dec : EqDecision error.
Proof. solve_decision. Defined.

Inductive outcome (A : Type) : Type :=
  | Done (a : A)
  | Fail (e : error).
Arguments Done {A} a.
Arguments Fail {A} e.

Definition obind {A B} (r : outcome A) (k : A → outcome B) : outcome B :=
  match r with
  | Done a => k a
  | Fail e => Fail e
  end.

#[global] Instance outcome_eq_dec {A} `{EqDecision A} : EqDecision (outcome A).
Proof. solve_decision. Defined.

(** The window [s:e] of Python's basic slicing on an axis of [d] entries, as
    the offset of its first entry and the number of its entries: a negative
    bound counts from the end, and both bounds are clamped to the axis. *)
Definition slice_bound (d : nat) (x : Z) : Z :=
  if (x <? 0)%Z then Z.max (x + Z.of_nat d) 0 else Z.min x (Z.of_nat d).

Definition window (d : nat) (s e : Z) : nat * nat :=
  (Z.to_nat (slice_bound d s),
   Z.to_nat (slice_bound d e - slice_bound d s)).

(** The windows of [a[s0:e0, s1:e1, ...]]: one per leading axis. *)
Fixpoint windows (dims : list nat) (starts ends : list Z) : list (nat * nat) :=
  match dims, starts, ends with
  | d :: ds, s :: ss, e :: es => window d s e :: windows ds ss es
  | _, _, _ => []
  end.

(** Basic slicing of an array of shape [dims] given by its entries in
    row-major order: the windows apply to the leading axes, the other axes
    are kept whole. *)
Fixpoint slice_row {A} (dims : list nat) (ws : list (nat * nat))
    (row : list A) : list A :=
  match dims, ws with
  | d :: ds, (off, cnt) :: ws' =>
      flat_map
        (λ i, slice_row ds ws' (take (numel ds) (drop (i * numel ds)%nat row)))
        (seq off cnt)
  | _, _ => row
  end.

Fixpoint slice_shape (dims : list nat) (ws : list (nat * nat)) : list nat :=
  match dims, ws with
  | d :: ds, (off, cnt) :: ws' => cnt :: slice_shape ds ws'
  | _, _ => dims
  end.

(** [np.uint16] arithmetic wraps around. *)
Definition wrap16 (z : Z) : Z := (z mod 65536)%Z.

(** [np.<op>(a, b)] on two sequences: entrywise, a sequence of one entry
    being repeated; other lengths cannot be broadcast together. *)
Definition broadcast (op : Z → Z → Z) (a b : list Z) : outcome (list Z) :=
  if Nat.eqb (length a) (length b) then Done (zip_with op a b)
  else
    match a, b with
    | [x], _ => Done (map (op x) b)
    | _, [y] => Done (map (λ x, op x y) a)
    | _, _ => Fail (Builtin ValueError)
    end.

(** The ROI bounds are [uint16] arrays when the constructor computed them
    from a centre and a size, and the caller's sequences of Python integers
    otherwise. *)
Inductive roi_dtype : Type :=
  | Uint16
  | PyInt.

#[global] Instance roi_dtype_eq_dec : EqDecision roi_dtype.
Proof. solve_decision. Defined.

Record SpatialCrop : Type := mkSpatialCrop {
  sc_roi_start : list Z;
  sc_roi_end : list Z;
  sc_dtype : roi_dtype
}.

#[global] Instance SpatialCrop_eq_dec : EqDecision SpatialCrop.
Proof. solve_decision. Defined.

(** [SpatialCrop(roi_center, roi_size, roi_start, roi_end)] with sequences
    of integers.  [np.asarray(_, dtype=np.uint16)] reduces its entries
    modulo [2^16], as numpy did until version 2. *)
Definition SpatialCrop_init (roi_center roi_size roi_start roi_end
    : option (list Z)) : outcome SpatialCrop :=
  match roi_center, roi_size with
  | Some roi_center, Some roi_size =>
      if negb (forallb (λ x, 0 <? x)%Z roi_center)
      then Fail (AssertionError Messages.roi_center_positive)
      else if negb (forallb (λ x, 0 <? x)%Z roi_size)
      then Fail (AssertionError Messages.roi_size_positive)
      else
        let roi_center := map wrap16 roi_center in
        let roi_size := map wrap16 roi_size in
        obind (broadcast (λ c h, wrap16 (c - h)) roi_center
                 (map (λ s, s / 2)%Z roi_size))
          (λ start,
            obind (broadcast (λ s n, wrap16 (s + n)) start roi_size)
              (λ stop, Done (mkSpatialCrop start stop Uint16)))
  | _, _ =>
      match roi_start, roi_end with
      | Some roi_start, Some roi_end =>
          if negb (forallb (λ x, 0 <=? x)%Z roi_start)
          then Fail (AssertionError Messages.roi_start_nonnegative)
          else if negb (forallb (λ x, 0 <? x)%Z roi_end)
          then Fail (AssertionError Messages.roi_end_positive)
          else Done (mkSpatialCrop roi_start roi_end PyInt)
      | _, _ => Fail (AssertionError Messages.roi_start_end_required)
      end
  end.

(** [(a >= 0).all()] *)
Definition all_nonneg (a : list Z) : bool := forallb (λ x, 0 <=? x)%Z a.

(** [np.subtract(self.roi_end, self.roi_start)]: in [uint16] for two
    [uint16] arrays, exact for Python integers. *)
Definition roi_extent (self : SpatialCrop) : outcome (list Z) :=
  broadcast
    (match sc_dtype self with
     | Uint16 => λ e s, wrap16 (e - s)
     | PyInt => Z.sub
     end)
    (sc_roi_end self) (sc_roi_start self).

(** [SpatialCrop.__call__] on an array of shape [(C, *spatial)].  The
    shape, a tuple of Python integers, is subtracted from exactly (numpy
    computes in [int64]; extents and bounds are taken below [2^63]).  The
    subscript with [k] windows reads [roi_start[i]] and [roi_end[i]] for
    [i < k] and needs [k] spatial axes. *)
Definition SpatialCrop_call (self : SpatialCrop) (img : tensor)
    : outcome tensor :=
  let max_end := map Z.of_nat (spatial img) in
  obind (broadcast Z.sub max_end (sc_roi_start self)) (λ room,
  if negb (all_nonneg room)
  then Fail (AssertionError Messages.roi_start_outside)
  else
  obind (broadcast Z.sub max_end (sc_roi_end self)) (λ room,
  if negb (all_nonneg room)
  then Fail (AssertionError Messages.roi_end_outside)
  else
  obind (roi_extent self) (λ extent,
  if negb (all_nonneg extent)
  then Fail (AssertionError Messages.invalid_roi_range)
  else
    let k := length (sc_roi_start self) in
    if Nat.leb 1 k && Nat.leb k 3 then
      if Nat.ltb (length (sc_roi_end self)) k then Fail (Builtin IndexError)
      else if Nat.ltb (length (spatial img)) k then Fail (Builtin IndexError)
      else
        let ws := windows (spatial img) (sc_roi_start self) (sc_roi_end self) in
        Done (mkTensor (slice_shape (spatial img) ws)
                (map (slice_row (spatial img) ws) (rows img)))
    else Fail (Builtin ValueError)))).

(** The index read by entry [idx] of a slice: every window moves its axis
    by its offset. *)
Fixpoint shift (ws : list (nat * nat)) (idx : list nat) : list nat :=
  match ws, idx with
  | (off, _) :: ws', i :: idx' => (off + i)%nat :: shift ws' idx'
  | _, _ => idx
  end.

(** [fits dims ws]: every window lies within its axis. *)
Fixpoint fits (dims : list nat) (ws : list (nat * nat)) : Prop :=
  match dims, ws with
  | d :: ds, (off, cnt) :: ws' => (off + cnt ≤ d)%nat ∧ fits ds ws'
  | _, _ => True
  end.

(** ** Concrete inputs for the array transforms *)

(** The image [[[1,2,3],[4,5,6],[7,8,9]]] as a bare array of shape
    [(1,3,3)]. *)
Definition arr33 : tensor := mkTensor [3;3]%nat [map qz [1;2;3;4;5;6;7;8;9]%Z].

(** ** Array transforms: [Rotate90] and [RandRotate90] *)

(** What a draw of [RandRotate90] asked for. *)
Inductive int_draw : Type :=
  | DRandint (high : Z)
  | DRandom.

#[global] Instance int_draw_eq_dec : EqDecision int_draw.
Proof. solve_decision. Defined.

(** Modelled from the spec: the draw source [self.R] of [Randomizable], a
    [numpy.random.RandomState], as far as [RandRotate90] uses it.  A state
    holds the values it will hand out ([int_samples k high] for a
    [randint(high)] made as draw [k], [random_samples k] for a [random()]),
    the position of the next draw, and the record of the draws made so
    far, oldest first. *)
Record IntRandomState : Type := mkIntRandomState {
  int_samples : nat → Z → Z;
  random_samples : nat → Qc;
  int_cursor : nat;
  int_drawn : list int_draw
}.

Definition int_advance (R : IntRandomState) (d : int_draw) : IntRandomState :=
  mkIntRandomState (int_samples R) (random_samples R) (S (int_cursor R))
    (int_drawn R ++ [d]).

(** [R.randint(high)]: an integer of [[0, high)]; a [high] that is not
    positive is rejected before anything is drawn. *)
Definition R_randint (high : Z) (R : IntRandomState)
    : result (Z * IntRandomState) :=
  if (high <=? 0)%Z then Raise ValueError
  else Ok (int_samples R (int_cursor R) high, int_advance R (DRandint high)).

(** [R.random()] *)
Definition R_random (R : IntRandomState) : Qc * IntRandomState :=
  (random_samples R (int_cursor R), int_advance R DRandom).

Section Rotations.

(** [np.rot90(img, k, axes)] is used through its interface only. *)
Variable np_rot90 : tensor → Z → nat * nat → result tensor.

Record Rotate90 : Type := mkRotate90 {
  r90_k : Z;
  r90_plane_axes : nat * nat
}.

Definition Rotate90_call (self : Rotate90) (img : tensor) : result tensor :=
  np_rot90 img (r90_k self) (r90_plane_axes self).

Record RandRotate90 : Type := mkRandRotate90 {
  rr_prob : Qc;
  rr_max_k : Z;
  rr_axes : nat * nat;
  rr_do_transform : bool;
  rr_rand_k : Z;
  rr_R : IntRandomState
}.

(** [RandRotate90(prob, max_k, axes)]; [min(max(prob, 0.0), 1.0)]. *)
Definition RandRotate90_init (prob : Qc) (max_k : Z) (axes : nat * nat)
    (R : IntRandomState) : RandRotate90 :=
  mkRandRotate90 (Qc_min (Qc_max prob 0) 1) max_k axes false 0%Z R.

(** An exception of [randint] leaves the object as it was. *)
Definition RandRotate90_randomize (self : RandRotate90) : result RandRotate90 :=
  rbind (R_randint (rr_max_k self) (rr_R self)) (λ drawn,
    let (u, R2) := R_random drawn.2 in
    Ok (mkRandRotate90 (rr_prob self) (rr_max_k self) (rr_axes self)
          (Qc_ltb u (rr_prob self)) (drawn.1 + 1)%Z R2)).

Definition RandRotate90_call (self : RandRotate90) (img : tensor)
    : RandRotate90 * result tensor :=
  match RandRotate90_randomize self with
  | Raise e => (self, Raise e)
  | Ok self =>
      if negb (rr_do_transform self) then (self, Ok img)
      else
        let rotator := mkRotate90 (rr_rand_k self) (rr_axes self) in
        (self, Rotate90_call rotator img)
  end.

End Rotations.

(** A draw source for [RandRotate90] whose [randint(high)] gives [high - 1]
    and whose [random()] gives 3/4, before its first draw. *)
Definition constant_int_source : IntRandomState :=
  mkIntRandomState (λ _ high, (high - 1)%Z) (λ _, qc 3 4) 0 [].

(** A stand-in for [np.rot90] in calls that do not rotate. *)
Definition rot90_not_invoked (img : tensor) (k : Z) (axes : nat * nat)
    : result tensor := Raise RuntimeError.

(** ** Weights of the sampled pixels *)

(** [good_axis d ts]: the weights of the taps of an axis of [d] pixels add
    up to one, and a tap outside the axis has weight zero. *)
Definition good_axis (d : nat) (ts : list (Z * Qc)) : Prop :=
  fold_right (λ t acc, t.2 + acc) 0 ts = 1
  ∧ Forall (λ t, (0 ≤ t.1 < Z.of_nat d)%Z ∨ t.2 = 0) ts.

(** The weighted sum of the corners of an image that is [v] everywhere. *)
Definition corner_sum (v : Qc) (dims : list nat) (cs : list (list Z * Qc)) : Qc :=
  fold_right (λ c acc, c.2 * (if in_bounds c.1 dims then v else 0) + acc) 0 cs.

(** * Properties *)

(** ** Identity parameters and identity grids *)

Lemma Qc_of_nat_minus_1_nonzero n : (2 ≤ n)%nat → Qc_of_nat n - 1 ≠ 0.
Proof.
  intros Hn H. unfold Qc_of_nat in H.
  rewrite <- Z2Qc_inj_1, <- Z2Qc_inj_sub, <- Z2Qc_inj_0 in H.
  apply Z2Qc_inj in H. lia.
Qed.

(** Where the identity grid samples: entry [k] of an axis of [n >= 2]
    pixels is rescaled to [x = 2 * (k - (n - 1) / 2) / (n - 1)], which the
    primitive, called with [align_corners=False], reads at pixel coordinate
    [k + k / (n - 1) - 1 / 2] and not at [k]. *)
Lemma identity_grid_pixel_position n k :
  (2 ≤ n)%nat →
  ∃ x, normalise_row n [Fin (centred n k)] = [Fin x]
       ∧ unnormalize x n
         = Qc_of_nat k + Qc_of_nat k / (Qc_of_nat n - 1) - 1 / 2.
Proof.
  intros Hn. pose proof (Qc_of_nat_minus_1_nonzero n Hn) as Hne.
  exists (2 * centred n k / (Qc_of_nat n - 1)). split.
  - unfold normalise_row. simpl. unfold Qc_eqb.
    by rewrite bool_decide_eq_false_2.
  - unfold unnormalize, centred. field. split; [done|]. exact Hne.
Qed.

Lemma Qc_of_nat_S k : Qc_of_nat (S k) = Qc_of_nat k + 1.
Proof.
  unfold Qc_of_nat.
  by rewrite Nat2Z.inj_succ, <- Z.add_1_r, Z2Qc_inj_add, Z2Qc_inj_1.
Qed.

(** The same holds wherever a unit-spaced grid puts its origin [c]:
    neighbouring entries of an axis of [n >= 2] pixels are read
    [n / (n - 1)] pixels apart, not one pixel apart. *)
Lemma unit_spaced_sampling_step n c k :
  (2 ≤ n)%nat →
  unnormalize (2 * (Qc_of_nat (S k) - c) / (Qc_of_nat n - 1)) n
    - unnormalize (2 * (Qc_of_nat k - c) / (Qc_of_nat n - 1)) n
  = Qc_of_nat n / (Qc_of_nat n - 1).
Proof.
  intros Hn. pose proof (Qc_of_nat_minus_1_nonzero n Hn) as Hne.
  rewrite Qc_of_nat_S. unfold unnormalize. field. split; [exact Hne | done].
Qed.

(** C1.  [Affine(rotate_params=0, scale_params=None)] applied to the image
    [img44] of shape (1,4,4) with output size (4,4) and the default
    [bilinear] mode does not return the image: it returns
    [img44_resampled], whose corner entry is a quarter of the input's and
    none of whose sixteen entries agrees with the input.  The builders are
    arbitrary: with every parameter group falsy none is called. *)
Theorem Affine_zero_rotation_changes_image
    (create_rotate create_shear create_translate create_scale : nat → params → matrix) :
  Affine_call create_rotate create_shear create_translate create_scale
      (Affine_init (PScalar 0) PNone PNone PNone zeros false None)
      img44 [4;4]%nat bilinear
    = Ok (NdArray img44_resampled)
  ∧ NdArray img44_resampled ≠ img44.
Proof.
  split; compute_done.
Qed.

(** C2.  [Resample()] called with the identity grid [create_grid((2,2))] and
    mode [nearest] on the image [img22] of shape (1,2,2) does not return the
    image: the last index of each axis is sampled at pixel coordinate 3/2,
    which rounds to the out-of-range index 2, so three of the four entries
    come back as 0. *)
Theorem Resample_identity_grid_nearest_changes_image :
  Resample_apply Resample_default img22 (NdArray (create_grid [2;2]%nat)) nearest
    = Ok (NdArray (mkTensor [2;2]%nat [[qz 1; qz 0; qz 0; qz 0]]))
  ∧ NdArray (mkTensor [2;2]%nat [[qz 1; qz 0; qz 0; qz 0]]) ≠ img22.
Proof.
  split; compute_done.
Qed.

(** ** The loop of [Resample] and its effect on the store *)

Lemma normalised_from_length i dims rs :
  length (normalised_from i dims rs) = length rs.
Proof.
  revert i rs. induction dims as [|dim rest IH]; intros i rs; simpl; [done|].
  by rewrite IH, length_alter.
Qed.

Lemma normalised_from_lookup_lt i dims (rs : list (list num)) j :
  (j < i)%nat → normalised_from i dims rs !! j = rs !! j.
Proof.
  revert i rs. induction dims as [|dim rest IH]; intros i rs Hj; simpl; [done|].
  rewrite IH by lia. apply list_lookup_alter_ne. lia.
Qed.

(** Row [i + k] is rescaled with the [k]-th dimension; rows outside the
    range of the loop are kept. *)
Lemma normalised_from_lookup i dims (rs : list (list num)) k :
  normalised_from i dims rs !! (i + k)%nat =
    match dims !! k with
    | Some dim => normalise_row dim <$> rs !! (i + k)%nat
    | None => rs !! (i + k)%nat
    end.
Proof.
  revert i rs k. induction dims as [|dim rest IH]; intros i rs k; simpl; [done|].
  destruct k as [|k]; simpl.
  - rewrite Nat.add_0_r, normalised_from_lookup_lt by lia.
    apply list_lookup_alter_eq.
  - replace (i + S k)%nat with (S i + k)%nat by lia.
    rewrite IH. destruct (rest !! k); rewrite list_lookup_alter_ne by lia; done.
Qed.

Lemma setitem_run σ l a i r :
  σ !! l = Some a → (i < length (rows (data a)))%nat →
  setitem l i r σ =
    (<[l := match a with
            | NdArray _ => NdArray (mkTensor (spatial (data a)) (<[i := r]> (rows (data a))))
            | Tensor _ d => Tensor (mkTensor (spatial (data a)) (<[i := r]> (rows (data a)))) d
            end]> σ, Ok tt).
Proof.
  intros Hl Hi. unfold setitem. rewrite Hl.
  rewrite bool_decide_eq_true_2 by done. done.
Qed.

(** The loop on a tensor with enough rows: it completes and leaves the
    rescaled rows in the object it was given. *)
Lemma normalise_rows_run σ g t d i dims :
  σ !! g = Some (Tensor t d) →
  (i + length dims ≤ length (rows t))%nat →
  normalise_rows g i dims σ =
    (<[g := Tensor (mkTensor (spatial t) (normalised_from i dims (rows t))) d]> σ,
     Ok tt).
Proof.
  revert σ t i. induction dims as [|dim rest IH]; intros σ t i Hg Hn; simpl in *.
  - unfold ret. f_equal. symmetry. apply list_insert_id. by destruct t.
  - destruct (lookup_lt_is_Some_2 (rows t) i) as [r Hr]; [lia|].
    unfold bind at 1. unfold getitem, bind at 1, load. rewrite Hg. simpl.
    rewrite Hr. unfold ret at 1.
    unfold bind at 1.
    rewrite (setitem_run σ g (Tensor t d) i _ Hg) by (simpl; lia). simpl.
    rewrite (IH _ (mkTensor (spatial t) (<[i:=normalise_row dim r]> (rows t)))).
    + simpl. rewrite list_insert_insert_eq. do 5 f_equal. symmetry.
      apply list_eq. intros j. destruct (decide (i = j)) as [->|Hne].
      * rewrite list_lookup_insert_eq by (eapply lookup_lt_Some; eauto).
        by rewrite list_lookup_alter_eq, Hr.
      * rewrite list_lookup_insert_ne by done.
        by rewrite list_lookup_alter_ne.
    + apply list_lookup_insert_eq. eapply lookup_lt_Some; eauto.
    + simpl. rewrite length_insert. lia.
Qed.

Lemma normalised_from_ge i dims (rs : list (list num)) :
  (length rs ≤ i)%nat → normalised_from i dims rs = rs.
Proof.
  revert i rs. induction dims as [|dim rest IH]; intros i rs Hi; simpl; [done|].
  rewrite IH by (rewrite length_alter; lia).
  apply list_eq. intros j. destruct (decide (i = j)) as [->|Hne].
  - rewrite list_lookup_alter_eq. by rewrite (lookup_ge_None_2 rs j).
  - by rewrite list_lookup_alter_ne.
Qed.

(** The loop on a tensor with too few rows: [grid[i]] raises at the first
    missing row, after the rows before it have been rescaled. *)
Lemma normalise_rows_short σ g t d i dims :
  σ !! g = Some (Tensor t d) →
  (length (rows t) < i + length dims)%nat →
  dims ≠ [] →
  normalise_rows g i dims σ =
    (<[g := Tensor (mkTensor (spatial t) (normalised_from i dims (rows t))) d]> σ,
     Raise IndexError).
Proof.
  revert σ t i. induction dims as [|dim rest IH]; intros σ t i Hg Hn Hne; [done|].
  simpl in *. destruct (rows t !! i) as [r|] eqn:Hr.
  - unfold bind at 1. unfold getitem, bind at 1, load. rewrite Hg. simpl.
    rewrite Hr. unfold ret at 1. unfold bind at 1.
    pose proof (lookup_lt_Some _ _ _ Hr) as Hlt.
    rewrite (setitem_run σ g (Tensor t d) i _ Hg) by (simpl; lia). simpl.
    rewrite (IH _ (mkTensor (spatial t) (<[i:=normalise_row dim r]> (rows t)))).
    + simpl. rewrite list_insert_insert_eq. do 5 f_equal. symmetry.
      apply list_eq. intros j. destruct (decide (i = j)) as [->|Hij].
      * rewrite list_lookup_insert_eq by done.
        by rewrite list_lookup_alter_eq, Hr.
      * rewrite list_lookup_insert_ne by done.
        by rewrite list_lookup_alter_ne.
    + apply list_lookup_insert_eq. eapply lookup_lt_Some; eauto.
    + simpl. rewrite length_insert. lia.
    + destruct rest; [simpl in *; lia | done].
  - unfold bind at 1. unfold getitem, bind at 1, load. rewrite Hg. simpl.
    rewrite Hr. unfold raise. f_equal.
    apply lookup_ge_None_1 in Hr.
    rewrite normalised_from_ge by (rewrite length_alter; lia).
    symmetry. apply list_insert_id. rewrite Hg. do 2 f_equal.
    destruct t as [sp rs]; simpl in *. f_equal.
    apply list_eq. intros j. destruct (decide (i = j)) as [->|Hij].
    + rewrite list_lookup_alter_eq. by rewrite (lookup_ge_None_2 rs j).
    + by rewrite list_lookup_alter_ne.
Qed.

(** [Resample.__call__] on two unshared arrays computes [resample_result]:
    the copies, the device moves and the in-place loop have no other effect
    on the outcome. *)
Lemma Resample_apply_eq self img grid mode :
  Resample_apply self img grid mode = resample_result self img grid mode.
Proof.
  unfold Resample_apply, Resample_call, resample_result, sampling_grid,
    normalised, placed.
  destruct self as [pad ato [dv|]], img as [ti|ti di], grid as [tg|tg dg]; simpl.
  all: repeat match goal with d : device |- _ => destruct d end.
  all: unfold bind, load, torch_tensor, to_device, alloc, ret, lift, bind, load;
    simpl.
  all: case_bool_decide as Hn; simpl.
  all: try (erewrite normalise_rows_run; [ | reflexivity | simpl; lia ]; simpl).
  all: try (erewrite normalise_rows_short;
            [ | reflexivity | simpl; lia
              | intros E; rewrite E in Hn; simpl in Hn; lia ]; simpl).
  all: try done.
  all: repeat match goal with
       | |- context [index_rows ?a ?b] => destruct (index_rows a b); simpl
       | |- context [grid_sample ?a ?b ?c ?d] =>
           destruct (grid_sample a b c d); simpl
       end.
  all: destruct ato; done.
Qed.

Lemma normalise_rows_store σ g t d dims :
  σ !! g = Some (Tensor t d) →
  (normalise_rows g 0 dims σ).1 =
    <[g := Tensor (mkTensor (spatial t) (normalised_from 0 dims (rows t))) d]> σ.
Proof.
  intros Hg. destruct (decide (length dims ≤ length (rows t))%nat) as [Hn|Hn].
  - by rewrite (normalise_rows_run σ g t d) by (done || simpl; lia).
  - rewrite (normalise_rows_short σ g t d); [done..| simpl; lia |].
    intros ->. simpl in Hn. lia.
Qed.

Lemma Resample_call_split self img grid mode σ :
  Resample_call self img grid mode σ =
    (let* moved := to_tensors self img grid in
     sample_on self moved.1 moved.2 mode) σ.
Proof.
  unfold Resample_call, to_tensors, sample_on, bind.
  repeat match goal with
  | |- context [match ?m σ with _ => _ end] => destruct (m σ) as [? [?|?]]
  | |- context [let (_, _) := ?m ?s in _] => destruct (m s) as [? [?|?]]
  | |- context [match rs_device ?s with _ => _ end] => destruct (rs_device s)
  end; done.
Qed.

(** The second phase only writes the rescaled rows into the grid tensor. *)
Lemma sample_on_store self σ im g a t d mode :
  σ !! im = Some a → σ !! g = Some (Tensor t d) →
  (sample_on self im g mode σ).1 =
    <[g := Tensor (mkTensor (spatial t)
                     (normalised_from 0 (spatial (data a)) (rows t))) d]> σ.
Proof.
  intros Him Hg. unfold sample_on.
  unfold bind at 1. unfold load at 1. rewrite Him.
  unfold bind at 1.
  pose proof (normalise_rows_store σ g t d (spatial (data a)) Hg) as Hst.
  destruct (normalise_rows g 0 (spatial (data a)) σ) as [σ1 [[]|e]];
    simpl in Hst; subst σ1; [|done].
  unfold bind, load, lift, ret.
  rewrite list_lookup_insert_eq by (eapply lookup_lt_Some; eauto).
  destruct (index_rows _ _); [|done].
  destruct (bool_decide _); [|done].
  destruct (grid_sample _ _ _ _); [|done].
  by destruct (rs_as_tensor_output self).
Qed.

Ltac store_lookups σ Him Hg :=
  repeat first
    [ rewrite Him | rewrite Hg
    | rewrite <- app_assoc
    | rewrite length_app
    | rewrite (lookup_app_l σ) by lia
    | rewrite (lookup_app_r σ) by lia
    | rewrite Nat.sub_diag
    | match goal with
      | |- context [(?a + ?k - ?a)%nat] => replace (a + k - a)%nat with k by lia
      end
    | progress simpl ].

(** The first phase only allocates: it returns tensors holding the data of
    the two arguments, and the grid it returns is the caller's own object
    when that is a tensor that needs no device transfer, a fresh copy
    otherwise. *)
Lemma to_tensors_spec self σ im g a b :
  σ !! im = Some a → σ !! g = Some b →
  ∃ σ1 im' g' di dg,
    to_tensors self im g σ = (σ1, Ok (im', g'))
    ∧ σ `prefix_of` σ1
    ∧ σ1 !! im' = Some (Tensor (data a) di)
    ∧ σ1 !! g' = Some (Tensor (data b) dg)
    ∧ (if is_tensor b
          && bool_decide (default (device_of b) (rs_device self) = device_of b)
       then g' = g ∧ dg = device_of b
       else (length σ ≤ g')%nat).
Proof.
  intros Him Hg.
  pose proof (lookup_lt_Some _ _ _ Him) as Hlim.
  pose proof (lookup_lt_Some _ _ _ Hg) as Hlg.
  unfold to_tensors.
  destruct self as [pad ato [dv|]], a as [ta|ta da], b as [tb|tb db]; simpl.
  all: repeat match goal with d : device |- _ => destruct d end.
  all: unfold bind, load, torch_tensor, to_device, alloc, ret, bind, load; simpl.
  all: store_lookups σ Him Hg.
  all: eexists _, _, _, _, _; split; [reflexivity|].
  all: split; [first [done | by apply prefix_app_r]|].
  all: store_lookups σ Him Hg.
  all: repeat split; (reflexivity || lia).
Qed.

(** The store after a call: the store the first phase produced, with the
    rescaled rows written into the grid tensor it returned. *)
Lemma Resample_call_store self σ im g a b mode :
  σ !! im = Some a → σ !! g = Some b →
  ∃ σ1 g' dg,
    σ `prefix_of` σ1
    ∧ (Resample_call self im g mode σ).1 =
        <[g' := Tensor (mkTensor (spatial (data b))
                   (normalised_from 0 (spatial (data a)) (rows (data b)))) dg]> σ1
    ∧ σ1 !! g' = Some (Tensor (data b) dg)
    ∧ (if is_tensor b
          && bool_decide (default (device_of b) (rs_device self) = device_of b)
       then g' = g ∧ dg = device_of b
       else (length σ ≤ g')%nat).
Proof.
  intros Him Hg.
  destruct (to_tensors_spec self σ im g a b Him Hg)
    as (σ1 & im' & g' & di & dg & Hrun & Hpre & Him' & Hg' & Hcase).
  exists σ1, g', dg. split; [done|]. split; [|done].
  rewrite Resample_call_split. unfold bind at 1. rewrite Hrun. simpl.
  by rewrite (sample_on_store self σ1 im' g' _ _ _ mode Him' Hg').
Qed.

(** ** Aliasing of the grid argument *)

(** C9, as stated, fails: for an image whose spatial sizes are all 3 the
    rescaling [2 * grid[i] / (3 - 1)] returns every row as it was, so a grid
    passed as a torch tensor (here the identity grid of size (3,3), no
    device transfer) is the same after the call. *)
Lemma Resample_tensor_grid_may_stay_equal :
  let σ := [img33; Tensor (create_grid [3;3]%nat) cpu] in
  rs_device Resample_default = None
  ∧ (Resample_call Resample_default 0%nat 1%nat bilinear σ).1 !! 1%nat
      = σ !! 1%nat.
Proof.
  split; compute_done.
Qed.

(** C9, amended.  When the grid is a torch tensor that needs no device
    transfer, the call assigns into the caller's own object: after the call
    (whether it returned or raised) row [j] of the caller's grid holds
    [2 * grid[j] / (dim_j - 1)] for every spatial axis [j] of the image, and
    the other rows are as before; the caller's grid is therefore unchanged
    exactly when every rescaled row equals the original one.  When the grid
    is a numpy array the call works on a copy: every object of the caller's
    store, the grid included, is as before. *)
Theorem Resample_call_grid_aliasing self σ im g a b mode :
  σ !! im = Some a → σ !! g = Some b →
  let σ' := (Resample_call self im g mode σ).1 in
  (is_tensor b = true →
   rs_device self = None ∨ rs_device self = Some (device_of b) →
   (∃ rs, σ' !! g = Some (Tensor (mkTensor (spatial (data b)) rs) (device_of b))
      ∧ ∀ j, rs !! j =
          match spatial (data a) !! j with
          | Some dim => normalise_row dim <$> rows (data b) !! j
          | None => rows (data b) !! j
          end)
   ∧ (σ' !! g = σ !! g ↔
      ∀ j dim r, spatial (data a) !! j = Some dim →
                 rows (data b) !! j = Some r → normalise_row dim r = r))
  ∧ (is_tensor b = false → ∀ l x, σ !! l = Some x → σ' !! l = Some x).
Proof.
  intros Him Hg σ'.
  destruct (Resample_call_store self σ im g a b mode Him Hg)
    as (σ1 & g' & dg & Hpre & Hst & Hg' & Hcase).
  fold σ' in Hst. split.
  - intros Ht Hdev.
    assert (bool_decide (default (device_of b) (rs_device self) = device_of b)
            = true) as Hd.
    { apply bool_decide_eq_true_2. by destruct Hdev as [-> | ->]. }
    rewrite Ht, Hd in Hcase. simpl in Hcase. destruct Hcase as [-> ->].
    assert (σ' !! g = Some (Tensor (mkTensor (spatial (data b))
              (normalised_from 0 (spatial (data a)) (rows (data b))))
              (device_of b))) as Hnew.
    { rewrite Hst. apply list_lookup_insert_eq. eapply lookup_lt_Some; eauto. }
    assert (∀ j, normalised_from 0 (spatial (data a)) (rows (data b)) !! j =
              match spatial (data a) !! j with
              | Some dim => normalise_row dim <$> rows (data b) !! j
              | None => rows (data b) !! j
              end) as Hrows.
    { intros j. apply (normalised_from_lookup 0 _ _ j). }
    split; [eauto|].
    rewrite Hnew, Hg. destruct b as [tb|tb db]; [done|]. simpl in *. split.
    + intros [= Hrs] j dim r Hdim Hr.
      specialize (Hrows j). rewrite Hdim, Hr in Hrows. simpl in Hrows.
      destruct tb as [sp rs]; simpl in *. injection Hrs as Hrs.
      rewrite Hrs, Hr in Hrows. congruence.
    + intros Hsame. do 2 f_equal. destruct tb as [sp rs]; simpl in *. f_equal.
      apply list_eq. intros j. rewrite Hrows.
      destruct (spatial (data a) !! j) as [dim|] eqn:Hdim; [|done].
      destruct (rs !! j) as [r|] eqn:Hr; [|done].
      simpl. f_equal. eauto.
  - intros Ht l x Hl. rewrite Ht in Hcase. simpl in Hcase.
    rewrite Hst. pose proof (lookup_lt_Some _ _ _ Hl).
    rewrite list_lookup_insert_ne by lia.
    eapply prefix_lookup_Some; eauto.
Qed.

(** The amended C9 at a concrete call: a (1,2,2) image and the identity
    grid of size (2,2), once as a torch tensor and once as a numpy array. *)
Lemma Resample_call_grid_aliasing_witness :
  (∃ rs,
     (Resample_call Resample_default 0%nat 1%nat bilinear
        [img22; Tensor (create_grid [2;2]%nat) cpu]).1 !! 1%nat
       = Some (Tensor (mkTensor [2;2]%nat rs) cpu)
     ∧ rs !! 0%nat = Some [qz (-1); qz (-1); qz 1; qz 1])
  ∧ (Resample_call Resample_default 0%nat 1%nat bilinear
       [img22; NdArray (create_grid [2;2]%nat)]).1 !! 1%nat
      = Some (NdArray (create_grid [2;2]%nat)).
Proof.
  split.
  - destruct (Resample_call_grid_aliasing Resample_default
                [img22; Tensor (create_grid [2;2]%nat) cpu] 0%nat 1%nat
                img22 (Tensor (create_grid [2;2]%nat) cpu) bilinear
                eq_refl eq_refl) as [HT _].
    destruct (HT eq_refl (or_introl eq_refl)) as [(rs & Hrs & Hrow) _].
    exists rs. split; [exact Hrs|].
    rewrite (Hrow 0%nat). simpl. f_equal.
    apply (bool_decide_unpack _). vm_compute. exact I.
  - destruct (Resample_call_grid_aliasing Resample_default
                [img22; NdArray (create_grid [2;2]%nat)] 0%nat 1%nat
                img22 (NdArray (create_grid [2;2]%nat)) bilinear
                eq_refl eq_refl) as [_ HN].
    exact (HN eq_refl 1%nat _ eq_refl).
Defined.

(** ** Grids whose leading axis does not match the image *)

Lemma hom_divide_spatial g : spatial (hom_divide g) = spatial g.
Proof. unfold hom_divide. by destruct (rows g !! _). Qed.

Lemma hom_divide_length g :
  length (rows (hom_divide g)) = (length (rows g) - 1)%nat.
Proof.
  unfold hom_divide. destruct (rows g !! _) as [h|] eqn:Hh; simpl.
  - rewrite length_map, length_take. lia.
  - apply lookup_ge_None_1 in Hh. lia.
Qed.

Lemma hom_divide_lookup g h j :
  rows g !! (length (rows g) - 1)%nat = Some h →
  (j < length (rows g) - 1)%nat →
  rows (hom_divide g) !! j = (λ r, zip_with ndiv r h) <$> rows g !! j.
Proof.
  intros Hh Hj. unfold hom_divide. rewrite Hh. simpl.
  by rewrite list_lookup_fmap, lookup_take_lt.
Qed.


Lemma elem_of_reverse_seq D i : i ∈ reverse (seq 0 D) → (i < D)%nat.
Proof. rewrite elem_of_reverse, elem_of_seq. lia. Qed.


(** A grid with at least [D + 1] rows passes the loop, the homogeneous
    division and the row reversal. *)
Lemma sampling_grid_ok img grid :
  let D := length (spatial img) in
  (D + 1 ≤ length (rows grid))%nat →
  ∃ c, sampling_grid img grid = Ok c
       ∧ out_spatial c = spatial grid
       ∧ Forall (λ pt, length pt = D) (points c).
Proof.
  intros D Hn. unfold sampling_grid, normalised. fold D.
  rewrite bool_decide_eq_true_2 by lia. simpl.
  unfold index_rows.
  destruct (mapM_is_Some_2
              (λ i, rows (hom_divide (mkTensor (spatial grid)
                      (normalised_from 0 (spatial img) (rows grid)))) !! i)
              (reverse (seq 0 D))) as [rs Hrs].
  { apply Forall_forall. intros j Hj.
    apply (proj2 (list_elem_of_In _ _)), elem_of_reverse_seq in Hj. simpl.
    apply lookup_lt_is_Some_2. rewrite hom_divide_length. simpl.
    rewrite normalised_from_length. lia. }
  rewrite Hrs. simpl. eexists. split; [done|]. simpl.
  split; [by rewrite hom_divide_spatial|].
  apply length_mapM in Hrs. rewrite length_reverse, length_seq in Hrs.
  apply Forall_fmap, Forall_forall. intros j _. simpl.
  by rewrite length_map.
Qed.





(** ** Spatial dimensions of size one *)






(** ** Composition of the affine matrix *)

Lemma dot_unit r s m j :
  dot r (map (λ i, if Nat.eqb i j then 1 else 0) (seq s m)) =
    if bool_decide (s ≤ j < s + m)%nat then default 0 (r !! (j - s)%nat) else 0.
Proof.
  revert s m. induction r as [|x r IH]; intros s m.
  - unfold dot. simpl. by destruct (bool_decide _).
  - destruct m as [|m].
    + unfold dot. simpl. rewrite bool_decide_eq_false_2 by lia. done.
    + simpl. unfold dot in *. simpl. rewrite IH.
      destruct (Nat.eqb_spec s j) as [->|Hne].
      * rewrite bool_decide_eq_false_2 by lia.
        rewrite bool_decide_eq_true_2 by lia.
        rewrite Nat.sub_diag. simpl. ring.
      * destruct (decide (s < j < s + S m)%nat) as [Hin|Hout].
        -- rewrite !bool_decide_eq_true_2 by lia.
           replace (j - s)%nat with (S (j - S s)) by lia. simpl. ring.
        -- rewrite !bool_decide_eq_false_2 by lia. ring.
Qed.

Lemma col_eye n j :
  (j < n)%nat → col j (eye n) = map (λ i, if Nat.eqb i j then 1 else 0) (seq 0 n).
Proof.
  intros Hj. unfold col, eye. rewrite map_map. apply map_ext. intros i.
  rewrite list_lookup_fmap, lookup_seq_lt by done. done.
Qed.

Lemma ncols_eye n : ncols (eye n) = n.
Proof.
  destruct n as [|n]; [done|]. unfold eye. simpl. by rewrite length_map, length_seq.
Qed.

(** Right multiplication by the identity leaves a matrix with rows of the
    right length as it is. *)
Lemma matmul_eye_r A n :
  Forall (λ r, length r = n) A → A @@ eye n = A.
Proof.
  intros HA. unfold matmul. rewrite ncols_eye.
  induction HA as [|r A Hr HA IH]; [done|]. simpl. f_equal; [|done].
  clear IH HA A. apply list_eq. intros j.
  rewrite list_lookup_fmap.
  destruct (decide (j < n)%nat) as [Hj|Hj].
  - rewrite lookup_seq_lt by done. simpl.
    rewrite col_eye, dot_unit by done.
    rewrite bool_decide_eq_true_2 by lia. rewrite Nat.sub_0_r.
    destruct (lookup_lt_is_Some_2 r j) as [x Hx]; [lia|]. by rewrite Hx.
  - rewrite lookup_seq_ge by lia. simpl. symmetry.
    apply lookup_ge_None_2. lia.
Qed.

Lemma matmul_row_length A B n :
  ncols B = n → Forall (λ r, length r = n) (A @@ B).
Proof.
  intros HB. unfold matmul. apply Forall_fmap, Forall_forall. intros r _.
  simpl. by rewrite length_map, length_seq.
Qed.

Lemma is_square_ncols n A : is_square (n + 1) A = true → ncols A = (n + 1)%nat.
Proof.
  unfold is_square. intros [Hlen Hrows]%andb_prop.
  apply Nat.eqb_eq in Hlen. destruct A as [|r A]; [simpl in Hlen; lia|].
  simpl in *. apply andb_prop in Hrows as [Hr _]. by apply Nat.eqb_eq.
Qed.

Lemma eye_row_length n : Forall (λ r, length r = n) (eye n).
Proof.
  unfold eye. apply Forall_fmap, Forall_forall. intros i _. simpl.
  by rewrite length_map, length_seq.
Qed.

(** One step of [AffineGrid.__call__]: [if params: affine = affine @ create(...)]
    multiplies by the group's factor, and keeps the rows at length
    [spatial_dims + 1]. *)
Lemma affine_step create D p A :
  (truthy p = true → is_square (D + 1) (create D p) = true) →
  Forall (λ r, length r = (D + 1)%nat) A →
  (if truthy p then A @@ create D p else A) = A @@ factor create D p
  ∧ Forall (λ r, length r = (D + 1)%nat) (A @@ factor create D p).
Proof.
  intros Hsq HA. unfold factor. destruct (truthy p).
  - split; [done|]. apply matmul_row_length, is_square_ncols. auto.
  - rewrite matmul_eye_r by done. done.
Qed.

(** C3.  The matrix [AffineGrid.__call__] builds is the product
    [eye @ R @ Sh @ T @ Sc], taken from left to right, where each of [R]
    (rotate), [Sh] (shear), [T] (translate), [Sc] (scale) is the builder's
    matrix when its parameter group is truthy and the identity when the
    group is [None], zero or an empty sequence.  The builders are only asked
    to return square matrices of size [spatial_dims + 1] for the groups that
    are provided. *)
Theorem AffineGrid_composition_order
    (create_rotate create_shear create_translate create_scale : nat → params → matrix)
    (self : AffineGrid) (spatial_dims : nat) :
  (truthy (ag_rotate_params self) = true →
   is_square (spatial_dims + 1)
     (create_rotate spatial_dims (ag_rotate_params self)) = true) →
  (truthy (ag_shear_params self) = true →
   is_square (spatial_dims + 1)
     (create_shear spatial_dims (ag_shear_params self)) = true) →
  (truthy (ag_translate_params self) = true →
   is_square (spatial_dims + 1)
     (create_translate spatial_dims (ag_translate_params self)) = true) →
  (truthy (ag_scale_params self) = true →
   is_square (spatial_dims + 1)
     (create_scale spatial_dims (ag_scale_params self)) = true) →
  affine_matrix create_rotate create_shear create_translate create_scale
      self spatial_dims
    = composed_affine create_rotate create_shear create_translate create_scale
        (ag_rotate_params self) (ag_shear_params self)
        (ag_translate_params self) (ag_scale_params self) spatial_dims.
Proof.
  intros Hr Hsh Ht Hsc. unfold affine_matrix, composed_affine.
  destruct (affine_step create_rotate spatial_dims (ag_rotate_params self)
              (eye (spatial_dims + 1)) Hr (eye_row_length _)) as [-> H1].
  destruct (affine_step create_shear spatial_dims (ag_shear_params self)
              _ Hsh H1) as [-> H2].
  destruct (affine_step create_translate spatial_dims (ag_translate_params self)
              _ Ht H2) as [-> H3].
  destruct (affine_step create_scale spatial_dims (ag_scale_params self)
              _ Hsc H3) as [-> _].
  done.
Qed.

(** C3 at a concrete grid transform in two dimensions: no rotation, an empty
    shear sequence, a translation by (1,2) and a scaling by (2,2). *)
Lemma AffineGrid_composition_order_witness :
  affine_matrix not_invoked not_invoked create_translate create_scale
      (mkAffineGrid PNone (PSeq []) (PSeq [1; 1 + 1]) (PSeq [1 + 1; 1 + 1])
         true None) 2
    = composed_affine not_invoked not_invoked create_translate create_scale
        PNone (PSeq []) (PSeq [1; 1 + 1]) (PSeq [1 + 1; 1 + 1]) 2.
Proof.
  apply (AffineGrid_composition_order not_invoked not_invoked
           create_translate create_scale
           (mkAffineGrid PNone (PSeq []) (PSeq [1; 1 + 1]) (PSeq [1 + 1; 1 + 1])
              true None) 2).
  - simpl. intros H. discriminate H.
  - simpl. intros H. discriminate H.
  - intros _. reflexivity.
  - intros _. reflexivity.
Defined.

(** ** Sampling of the affine parameters *)

Lemma sample_range_spec post range R :
  sample_range post range R =
    (sampled_params post R (cursor R) (axis_bounds range),
     mkRandomState (unit_samples R) (normal_samples R)
       (cursor R + length (axis_bounds range))
       (drawn R ++ uniform_draws (axis_bounds range))).
Proof.
  revert R. induction range as [|[f|] range IH]; intros R; simpl.
  - unfold axis_bounds, sampled_params, uniform_draws. simpl.
    rewrite app_nil_r, Nat.add_0_r. by destruct R.
  - rewrite IH. unfold sampled_params, uniform_draws. simpl.
    f_equal.
    + rewrite Nat.add_0_r. f_equal. apply imap_ext. intros k x _. simpl.
      do 3 f_equal. lia.
    + f_equal; [lia|]. by rewrite <- app_assoc.
  - apply IH.
Qed.

Lemma sample_group_spec post range old R :
  sample_group post range old R =
    (match range with
     | [] => old
     | _ :: _ => PSeq (sampled_params post R (cursor R) (axis_bounds range))
     end,
     mkRandomState (unit_samples R) (normal_samples R)
       (cursor R + length (axis_bounds range))
       (drawn R ++ uniform_draws (axis_bounds range))).
Proof.
  destruct range as [|e range].
  - simpl. unfold uniform_draws. simpl.
    rewrite app_nil_r, Nat.add_0_r. by destruct R.
  - unfold sample_group. by rewrite sample_range_spec.
Qed.

Lemma axis_bounds_zero range :
  Forall (λ e, e = Some 0) range →
  axis_bounds range = replicate (length range) 0.
Proof.
  induction 1 as [|e range -> _ IH]; [done|].
  unfold axis_bounds in *. simpl. f_equal. exact IH.
Qed.

Lemma sampled_scale_zero R first n :
  sampled_params (λ v, v + 1) R first (replicate n 0) = replicate n 1.
Proof.
  unfold sampled_params. apply list_eq. intros i.
  rewrite list_lookup_imap.
  destruct (decide (i < n)%nat) as [Hi|Hi].
  - rewrite !lookup_replicate_2 by done. simpl.
    f_equal; unfold uniform_value; ring.
  - rewrite !(proj1 (lookup_replicate_None _ _ _)) by lia. done.
Qed.

(** C5.  [RandAffineGrid.randomize] visits the rotate, shear, translate and
    scale ranges in this order and, within a range, the entries that are not
    [None] in sequence order; each such entry [f] costs one draw
    [uniform(-f, f)]; the parameter is the value drawn for rotate, shear and
    translate, and the value drawn plus 1 for scale.  A group whose range is
    the empty tuple keeps its previous parameters.  In particular a scale
    range made of zeros only yields the scale factors [1, ..., 1]. *)
Theorem RandAffineGrid_randomize_sampling (self : RandAffineGrid) :
  let R := rag_R self in
  let r := axis_bounds (rag_rotate_range self) in
  let s := axis_bounds (rag_shear_range self) in
  let t := axis_bounds (rag_translate_range self) in
  let c := axis_bounds (rag_scale_range self) in
  let self' := RandAffineGrid_randomize self in
  rag_rotate_params self' =
    match rag_rotate_range self with
    | [] => rag_rotate_params self
    | _ :: _ => PSeq (sampled_params (λ v, v) R (cursor R) r)
    end
  ∧ rag_shear_params self' =
    match rag_shear_range self with
    | [] => rag_shear_params self
    | _ :: _ => PSeq (sampled_params (λ v, v) R (cursor R + length r) s)
    end
  ∧ rag_translate_params self' =
    match rag_translate_range self with
    | [] => rag_translate_params self
    | _ :: _ =>
        PSeq (sampled_params (λ v, v) R (cursor R + length r + length s) t)
    end
  ∧ rag_scale_params self' =
    match rag_scale_range self with
    | [] => rag_scale_params self
    | _ :: _ =>
        PSeq (sampled_params (λ v, v + 1) R
                (cursor R + length r + length s + length t) c)
    end
  ∧ drawn (rag_R self') = drawn R ++ uniform_draws (r ++ s ++ t ++ c)
  ∧ cursor (rag_R self') = (cursor R + length (r ++ s ++ t ++ c))%nat
  ∧ (rag_scale_range self ≠ [] →
     Forall (λ e, e = Some 0) (rag_scale_range self) →
     rag_scale_params self' = PSeq (replicate (length (rag_scale_range self)) 1)).
Proof.
  intros R r s t c self'. subst self'. unfold RandAffineGrid_randomize.
  rewrite !sample_group_spec. simpl. fold R r s t c.
  repeat split.
  - unfold uniform_draws. rewrite !map_app, <- !app_assoc. done.
  - rewrite !length_app. lia.
  - intros Hne Hzero. destruct (rag_scale_range self) as [|e range] eqn:E; [done|].
    subst c. rewrite (axis_bounds_zero _ Hzero). by rewrite sampled_scale_zero.
Qed.

(** C5 at a concrete sampler: rotate range [(1/2,)], no shear range
    ([(None,)], what the constructor makes of [None]), translate range
    [(None, 2)] and scale range [(0, 0)], with every unit sample 3/4. *)
Lemma RandAffineGrid_randomize_sampling_witness :
  let self :=
    RandAffineGrid_init [Some (qc 1 2)] [None] [None; Some 2] [Some 0; Some 0]
      true None (mkRandomState (λ _, qc 3 4) (λ _, 0) 0 []) in
  let self' := RandAffineGrid_randomize self in
  rag_rotate_params self' = PSeq [qc 1 4]
  ∧ rag_shear_params self' = PSeq []
  ∧ rag_translate_params self' = PSeq [1]
  ∧ rag_scale_params self' = PSeq [1; 1]
  ∧ drawn (rag_R self') =
      [DUniform (- qc 1 2) (qc 1 2) []; DUniform (- 2) 2 [];
       DUniform (- 0) 0 []; DUniform (- 0) 0 []].
Proof.
  intros self self'.
  destruct (RandAffineGrid_randomize_sampling self)
    as (Hr & Hs & Ht & Hc & Hd & _ & Hz).
  fold self' in Hr, Hs, Ht, Hc, Hd, Hz.
  split; [|split; [|split; [|split]]].
  - rewrite Hr. apply (bool_decide_unpack _). vm_compute. exact I.
  - rewrite Hs. reflexivity.
  - rewrite Ht. apply (bool_decide_unpack _). vm_compute. exact I.
  - rewrite Hz; [reflexivity | discriminate | repeat constructor].
  - rewrite Hd. reflexivity.
Defined.

(** ** Draw order of [Rand3DElastic] *)

(** A call of [Rand3DElastic] draws from the transform's own source in
    [randomize] only. *)
Lemma Rand3DElastic_call_source
    (create_rotate create_shear create_translate create_scale : nat → params → matrix)
    (gaussian_filter : list nat → list Qc → Qc → list Qc)
    (self : Rand3DElastic) img spatial_size mode :
  r3_R (Rand3DElastic_call create_rotate create_shear create_translate
          create_scale gaussian_filter self img spatial_size mode).1
    = r3_R (Rand3DElastic_randomize self spatial_size).
Proof.
  unfold Rand3DElastic_call.
  destruct (r3_do_transform _); [|done].
  destruct (add_smoothed_offsets _ _ _ _ _ _); [|done].
  by destruct (RandAffineGrid_call _ _ _ _ _ _ _).
Qed.

(** C6.  [Rand3DElastic.randomize] draws, in this order: the do-transform
    decision [rand()]; only when the decision is true, the offset field
    [uniform(-1, 1, [3] + grid_size)]; the magnitude
    [uniform(magnitude_range[0], magnitude_range[1])]; the sigma
    [uniform(sigma_range[0], sigma_range[1])].  Magnitude and sigma are
    drawn whatever the decision, from the samples that follow the decision
    and, when drawn, the offset field; when the field is not drawn the
    stored one is kept.  A call draws from the transform's own source in
    [randomize] and nowhere else. *)
Theorem Rand3DElastic_draw_order
    (create_rotate create_shear create_translate create_scale : nat → params → matrix)
    (gaussian_filter : list nat → list Qc → Qc → list Qc)
    (self : Rand3DElastic) (img : array) (spatial_size : list nat)
    (mode : interp_mode) :
  let R := r3_R self in
  let self' := Rand3DElastic_randomize self spatial_size in
  let do := Qc_ltb (unit_samples R (cursor R)) (r3_prob self) in
  let n := if do then numel (3%nat :: spatial_size) else 0%nat in
  r3_do_transform self' = do
  ∧ drawn (r3_R self') =
      drawn R
      ++ [DRand]
      ++ (if do then [DUniform (-1) 1 (3%nat :: spatial_size)] else [])
      ++ [DUniform (r3_magnitude_range self).1 (r3_magnitude_range self).2 [];
          DUniform (r3_sigma_range self).1 (r3_sigma_range self).2 []]
  ∧ cursor (r3_R self') = (cursor R + 1 + n + 2)%nat
  ∧ r3_magnitude self' =
      uniform_value (r3_magnitude_range self).1 (r3_magnitude_range self).2
        (unit_samples R (cursor R + 1 + n))
  ∧ r3_sigma self' =
      uniform_value (r3_sigma_range self).1 (r3_sigma_range self).2
        (unit_samples R (cursor R + 1 + n + 1))
  ∧ (if do then True else r3_rand_offset self' = r3_rand_offset self)
  ∧ r3_R (Rand3DElastic_call create_rotate create_shear create_translate
            create_scale gaussian_filter self img spatial_size mode).1
      = r3_R self'.
Proof.
  intros R self' do n.
  split; [|split; [|split; [|split; [|split; [|split]]]]];
    try apply Rand3DElastic_call_source.
  all: subst self' n; unfold Rand3DElastic_randomize; fold R; simpl; fold do.
  all: destruct do; simpl; rewrite <- ?app_assoc; simpl;
    rewrite ?Nat.add_0_r; try done; try lia; try (f_equal; lia).
Qed.

(** ** The random deformation grid *)

Lemma reshape_rows_lookup n k l i :
  (i < n)%nat → reshape_rows n k l !! i = Some (take k (drop (i * k) l)).
Proof.
  intros Hi. unfold reshape_rows.
  by rewrite list_lookup_fmap, lookup_seq_lt.
Qed.

Lemma reshape_rows_length n k l : length (reshape_rows n k l) = n.
Proof. unfold reshape_rows. by rewrite length_map, length_seq. Qed.

Lemma nadd_zero x : nadd x (Fin 0) = x.
Proof. destruct x; simpl; try done. f_equal. ring. Qed.

(** Adding row [i] of the scaled offset field to a row of [K] entries. *)
Lemma add_offset_row (R : RandomState) mag n K i (r : list num) :
  (i < n)%nat → length r = K →
  zip_with (λ x y, nadd x (Fin y)) r
    (map (Qcmult mag)
       (take K (drop (i * K)
          (map (λ q, normal_samples R (cursor R + q)) (seq 0 (n * K))))))
  = perturbed_row R mag K i r.
Proof.
  intros Hi Hr. unfold perturbed_row. apply list_eq. intros j.
  rewrite lookup_zip_with, list_lookup_imap.
  destruct (r !! j) as [x|] eqn:Hx; simpl; [|done].
  pose proof (lookup_lt_Some _ _ _ Hx) as Hj.
  rewrite list_lookup_fmap, lookup_take_lt, lookup_drop by lia.
  rewrite list_lookup_fmap, lookup_seq_lt by nia. done.
Qed.

Lemma perturbed_row_zero R K i r : perturbed_row R 0 K i r = r.
Proof.
  unfold perturbed_row. apply list_eq. intros j. rewrite list_lookup_imap.
  destruct (r !! j) as [x|]; simpl; [|done]. f_equal.
  rewrite Qcmult_0_l. apply nadd_zero.
Qed.

(** C8.  For a control grid of shape [(D + 1, *control_shape)] with [D]
    spatial axes, as the Coordinate Grid Builder returns for a spatial size
    of length [D], [RandDeformGrid.__call__] draws a standard-normal field
    of shape [(D, *control_shape)] and then one magnitude
    [uniform(magnitude_range[0], magnitude_range[1])], and returns the
    control grid with [magnitude * field] added to rows [0] to [D - 1]; the
    homogeneous row [D] is returned as built.  With
    [magnitude_range = (0, 0)] the result is the control grid itself,
    whatever the draw source. *)
Theorem RandDeformGrid_call_perturbation
    (create_control_grid : list nat → list nat → tensor)
    (self : RandDeformGrid) (spatial_size : list nat) :
  let cg := create_control_grid spatial_size (rdg_spacing self) in
  let D := length spatial_size in
  let K := numel (spatial cg) in
  let R := rdg_R self in
  let mag :=
    uniform_value (rdg_magnitude self).1 (rdg_magnitude self).2
      (unit_samples R (cursor R + D * K)) in
  let call := RandDeformGrid_call create_control_grid self spatial_size in
  length (rows cg) = (D + 1)%nat →
  length (spatial cg) = D →
  wf_tensor cg = true →
  ∃ out,
    call.2 = Ok (if rdg_as_tensor_output self
                 then Tensor out (default cpu (rdg_device self))
                 else NdArray out)
    ∧ spatial out = spatial cg
    ∧ length (rows out) = (D + 1)%nat
    ∧ (∀ i r, (i < D)%nat → rows cg !! i = Some r →
              rows out !! i = Some (perturbed_row R mag K i r))
    ∧ rows out !! D = rows cg !! D
    ∧ drawn (rdg_R call.1) =
        drawn R ++ [DNormal (D :: spatial cg);
                    DUniform (rdg_magnitude self).1 (rdg_magnitude self).2 []]
    ∧ rdg_rand_mag call.1 = mag
    ∧ (rdg_magnitude self = (0, 0) → out = cg).
Proof.
  intros cg D K R mag call Hrows Hrank Hwf.
  subst call. unfold RandDeformGrid_call, RandDeformGrid_randomize.
  fold cg. rewrite Hrank. simpl. fold R K.
  unfold iadd_leading. rewrite length_map, reshape_rows_length, length_take.
  fold D. rewrite Hrows.
  replace (D `min` (D + 1))%nat with D by lia. rewrite Nat.eqb_refl. simpl.
  fold mag.
  set (off := map (map (Qcmult mag)) _).
  assert (length off = D) as Hoff.
  { subst off. by rewrite length_map, reshape_rows_length. }
  assert (∀ r, r ∈ rows cg → length r = K) as Hlen.
  { intros r Hr. unfold wf_tensor in Hwf.
    rewrite forallb_forall in Hwf. apply Nat.eqb_eq, Hwf.
    by apply list_elem_of_In. }
  assert (∀ i r, (i < D)%nat → rows cg !! i = Some r →
            (zip_with (λ r o, zip_with (λ x y, nadd x (Fin y)) r o)
               (take D (rows cg)) off ++ drop D (rows cg)) !! i
            = Some (perturbed_row R mag K i r)) as Hlead.
  { intros i r Hi Hr.
    rewrite lookup_app_l by (rewrite length_zip_with, length_take; lia).
    rewrite lookup_zip_with, lookup_take_lt, Hr by done. simpl.
    subst off. rewrite list_lookup_fmap, reshape_rows_lookup by done. simpl.
    f_equal. apply add_offset_row; [done|].
    apply Hlen. by eapply list_elem_of_lookup_2. }
  eexists (mkTensor (spatial cg) _). split; [by destruct (rdg_as_tensor_output self)|].
  simpl. split; [done|]. split.
  { rewrite length_app, length_zip_with, length_take, length_drop. lia. }
  split; [exact Hlead|]. split.
  { rewrite lookup_app_r by (rewrite length_zip_with, length_take; lia).
    rewrite length_zip_with, length_take, lookup_drop. f_equal. lia. }
  split; [by rewrite <- app_assoc|]. split; [done|].
  intros Hmag.
  assert (mag = 0) as Hzero.
  { subst mag. rewrite Hmag. unfold uniform_value. simpl. ring. }
  destruct cg as [sp rs] eqn:Ecg. simpl in *. f_equal.
  apply list_eq. intros i. destruct (decide (i < D)%nat) as [Hi|Hi].
  - destruct (lookup_lt_is_Some_2 rs i) as [r Hr]; [lia|].
    rewrite (Hlead i r Hi Hr), Hr, Hzero. f_equal. apply perturbed_row_zero.
  - rewrite lookup_app_r by (rewrite length_zip_with, length_take; lia).
    rewrite length_zip_with, length_take, lookup_drop. f_equal. lia.
Qed.

(** C8 at [RandDeformGrid(spacing=(1,1), magnitude_range=(0,0))] called for
    the spatial size (2,2), with the full-resolution grid as control grid:
    the control grid comes back unperturbed. *)
Lemma RandDeformGrid_call_perturbation_witness :
  (RandDeformGrid_call dense_control_grid
     (RandDeformGrid_init [1;1]%nat (0, 0) true None constant_source)
     [2;2]%nat).2
    = Ok (Tensor (create_grid [2;2]%nat) cpu).
Proof.
  destruct (RandDeformGrid_call_perturbation dense_control_grid
              (RandDeformGrid_init [1;1]%nat (0, 0) true None constant_source)
              [2;2]%nat eq_refl eq_refl eq_refl)
    as (out & Hcall & _ & _ & _ & _ & _ & _ & Hzero).
  rewrite Hcall. simpl. rewrite (Hzero eq_refl). reflexivity.
Defined.

(** ** Transforms constructed with [prob = 0] *)

Lemma never_below_zero (r : Qc) : 0 ≤ r → Qc_ltb r 0 = false.
Proof.
  intros Hr. unfold Qc_ltb. apply bool_decide_eq_false_2.
  by apply Qcle_not_lt.
Qed.

(** C4, as stated, fails for [RandAffineGrid]: the class takes no [prob]
    and samples on every call.  With the translate range (1, 1) and unit
    samples 3/4 the grid for the spatial size (2,2) is the identity grid
    moved by 1/2 along both axes, not the identity grid. *)
Lemma RandAffineGrid_always_samples :
  (RandAffineGrid_call not_invoked not_invoked create_translate not_invoked
     (RandAffineGrid_init [None] [None] [Some 1; Some 1] [None] true None
        constant_source)
     (Some [2;2]%nat) None).2
    = Ok (Tensor shifted_grid22 cpu)
  ∧ shifted_grid22 ≠ create_grid [2;2]%nat.
Proof.
  split; compute_done.
Qed.

(** C4, amended.  [RandAffine], [Rand2DElastic] and [Rand3DElastic] with
    [prob = 0] resample the image on the identity grid
    [create_grid(spatial_size)] at every call: the decision draw [rand()] is
    never below zero, so the result is that of [Resample] on the identity
    grid, whatever the range settings, the nested samplers and the other
    draws.  ([RandAffineGrid] has no [prob]; it samples at every call.) *)
Theorem prob_zero_uses_identity_grid
    (create_rotate create_shear create_translate create_scale : nat → params → matrix)
    (create_control_grid : list nat → list nat → tensor)
    (interpolate_bicubic : tensor → list nat → tensor)
    (gaussian_filter : list nat → list Qc → Qc → list Qc)
    (img : array) (spatial_size : list nat) (mode : interp_mode) :
  (∀ self : RandAffine,
     ra_prob self = 0 →
     0 ≤ unit_samples (ra_R self) (cursor (ra_R self)) →
     (RandAffine_call create_rotate create_shear create_translate create_scale
        self img spatial_size mode).2
       = Resample_apply (ra_resampler self) img
           (NdArray (create_grid spatial_size)) mode)
  ∧ (∀ self : Rand2DElastic,
       r2_prob self = 0 →
       0 ≤ unit_samples (r2_R self) (cursor (r2_R self)) →
       (Rand2DElastic_call create_rotate create_shear create_translate
          create_scale create_control_grid interpolate_bicubic
          self img spatial_size mode).2
         = Resample_apply (r2_resampler self) img
             (NdArray (create_grid spatial_size)) mode)
  ∧ (∀ self : Rand3DElastic,
       r3_prob self = 0 →
       0 ≤ unit_samples (r3_R self) (cursor (r3_R self)) →
       (Rand3DElastic_call create_rotate create_shear create_translate
          create_scale gaussian_filter self img spatial_size mode).2
         = Resample_apply (r3_resampler self) img
             (NdArray (create_grid spatial_size)) mode).
Proof.
  split; [|split]; intros self Hprob Hdraw.
  - unfold RandAffine_call, RandAffine_randomize. simpl.
    by rewrite Hprob, never_below_zero.
  - unfold Rand2DElastic_call, Rand2DElastic_randomize. simpl.
    by rewrite Hprob, never_below_zero.
  - unfold Rand3DElastic_call, Rand3DElastic_randomize. simpl.
    by rewrite Hprob, never_below_zero.
Qed.

(** The amended C4 at three transforms built with [prob = 0] and non-trivial
    ranges, whose draw sources hand out the unit sample 3/4. *)
Lemma prob_zero_uses_identity_grid_witness :
  (RandAffine_call not_invoked not_invoked create_translate create_scale
     (RandAffine_init 0 [Some 1] [None] [Some 2; Some 2] [Some (qc 1 2)]
        zeros false None constant_source constant_source)
     img22 [2;2]%nat bilinear).2
    = Resample_apply (mkResample zeros false None) img22
        (NdArray (create_grid [2;2]%nat)) bilinear
  ∧ (Rand2DElastic_call not_invoked not_invoked create_translate create_scale
       dense_control_grid (λ g _, g)
       (Rand2DElastic_init [1;1]%nat (1, 2) 0 [Some 1] [None]
          [Some 2; Some 2] [Some (qc 1 2)] zeros false None
          constant_source constant_source constant_source)
       img22 [2;2]%nat bilinear).2
      = Resample_apply (mkResample zeros false None) img22
          (NdArray (create_grid [2;2]%nat)) bilinear
  ∧ (Rand3DElastic_call not_invoked not_invoked create_translate create_scale
       (λ _ x _, x)
       (Rand3DElastic_init (1, 2) (1, 2) 0 [Some 1] [None]
          [Some 2; Some 2; Some 2] [Some (qc 1 2)] zeros false None
          constant_source constant_source)
       img222 [2;2;2]%nat bilinear).2
      = Resample_apply (mkResample zeros false None) img222
          (NdArray (create_grid [2;2;2]%nat)) bilinear.
Proof.
  split; [|split].
  - apply (proj1 (prob_zero_uses_identity_grid not_invoked not_invoked
                    create_translate create_scale dense_control_grid
                    (λ g _, g) (λ _ x _, x) img22 [2;2]%nat bilinear)).
    + reflexivity.
    + intros H. vm_compute in H. discriminate H.
  - apply (proj1 (proj2 (prob_zero_uses_identity_grid not_invoked not_invoked
                    create_translate create_scale dense_control_grid
                    (λ g _, g) (λ _ x _, x) img22 [2;2]%nat bilinear))).
    + reflexivity.
    + intros H. vm_compute in H. discriminate H.
  - apply (proj2 (proj2 (prob_zero_uses_identity_grid not_invoked not_invoked
                    create_translate create_scale dense_control_grid
                    (λ g _, g) (λ _ x _, x) img222 [2;2;2]%nat bilinear))).
    + reflexivity.
    + intros H. vm_compute in H. discriminate H.
Defined.

(** * Further properties *)

(** ** Row-major enumeration of the positions *)

Lemma positions_length dims : length (positions dims) = numel dims.
Proof.
  induction dims as [|d ds IH]; [done|]. simpl.
  generalize 0%nat as s. induction d as [|d IHd]; intros s; simpl; [done|].
  by rewrite length_app, length_map, IH, IHd.
Qed.

(** Lookup in a concatenation of [d] chunks of [n] entries each. *)
Lemma flat_map_chunk_lookup {A} (g : nat → list A) n s d i j :
  (∀ k, length (g k) = n) → (i < d)%nat → (j < n)%nat →
  flat_map g (seq s d) !! (i * n + j)%nat = g (s + i)%nat !! j.
Proof.
  intros Hg. revert s i. induction d as [|d IH]; intros s i Hi Hj; [lia|].
  simpl. destruct i as [|i].
  - rewrite lookup_app_l by (rewrite Hg; lia). simpl. by rewrite Nat.add_0_r.
  - rewrite lookup_app_r by (rewrite Hg; simpl; lia).
    rewrite Hg. replace (S i * n + j - n)%nat with (i * n + j)%nat by (simpl; lia).
    rewrite IH by lia. by replace (S s + i)%nat with (s + S i)%nat by lia.
Qed.

Lemma ravel_lt dims idx : in_range dims idx → (ravel dims idx < numel dims)%nat.
Proof.
  intros H. induction H as [|i d idx ds Hi _ IH]; simpl; [lia|]. nia.
Qed.

(** The position stored at the row-major offset of an index is that index. *)
Lemma positions_lookup_ravel dims idx :
  in_range dims idx → positions dims !! ravel dims idx = Some idx.
Proof.
  intros H. induction H as [|i d idx ds Hi Hrest IH]; [done|]. simpl.
  rewrite (flat_map_chunk_lookup _ (numel ds)).
  - simpl. by rewrite list_lookup_fmap, IH.
  - intros k. by rewrite length_map, positions_length.
  - done.
  - by apply ravel_lt.
Qed.

(** Every stored position is in range, and sits at its row-major offset. *)
Lemma positions_lookup_inv dims j idx :
  positions dims !! j = Some idx → in_range dims idx ∧ ravel dims idx = j.
Proof.
  revert j idx. induction dims as [|d ds IH]; intros j idx Hj.
  - destruct j; simpl in Hj; [|done]. injection Hj as <-. split; [constructor|done].
  - pose proof (lookup_lt_Some _ _ _ Hj) as Hlt.
    rewrite positions_length in Hlt. simpl in Hlt.
    assert (0 < numel ds)%nat as Hpos by (destruct (numel ds); lia).
    set (n := numel ds) in *.
    assert (j = (j / n) * n + j mod n)%nat as Hdiv
      by (rewrite Nat.mul_comm; apply Nat.div_mod; lia).
    assert (j mod n < n)%nat as Hmod by (apply Nat.mod_upper_bound; lia).
    assert (j / n < d)%nat as Hq by (apply Nat.Div0.div_lt_upper_bound; lia).
    simpl in Hj. rewrite Hdiv in Hj.
    rewrite (flat_map_chunk_lookup _ n) in Hj; try done.
    2: { intros k. by rewrite length_map, positions_length. }
    simpl in Hj. rewrite list_lookup_fmap in Hj.
    destruct (positions ds !! (j mod n)%nat) as [p|] eqn:Hp; [|done].
    simpl in Hj. injection Hj as <-.
    destruct (IH _ _ Hp) as [Hr He]. split.
    + by constructor.
    + simpl. fold n. rewrite He. lia.
Qed.

Lemma positions_in_range dims idx : idx ∈ positions dims ↔ in_range dims idx.
Proof.
  split.
  - intros (j & Hj)%list_elem_of_lookup_1.
    apply positions_lookup_inv in Hj as [H _]. exact H.
  - intros H. eapply list_elem_of_lookup_2, positions_lookup_ravel, H.
Qed.

(** Reading a flattened array at the offsets of all positions, in order,
    gives the array back. *)
Lemma positions_round_trip {A} dims (l : list A) :
  length l = numel dims →
  map (λ idx, l !! ravel dims idx) (positions dims) = map Some l.
Proof.
  intros Hl. apply list_eq. intros j. rewrite !list_lookup_fmap.
  destruct (positions dims !! j) as [idx|] eqn:Hj; simpl.
  - pose proof (lookup_lt_Some _ _ _ Hj) as Hlt.
    rewrite positions_length, <- Hl in Hlt.
    apply positions_lookup_inv in Hj as [_ ->].
    destruct (lookup_lt_is_Some_2 l j Hlt) as [x ->]. done.
  - apply lookup_ge_None_1 in Hj. rewrite positions_length, <- Hl in Hj.
    by rewrite (lookup_ge_None_2 l j).
Qed.

(** ** The identity grid *)

Lemma create_grid_spatial ds : spatial (create_grid ds) = ds.
Proof. done. Qed.

Lemma create_grid_rows_length ds :
  length (rows (create_grid ds)) = (length ds + 1)%nat.
Proof. unfold create_grid. simpl. by rewrite length_app, length_imap. Qed.

(** Coordinate row [i] holds, at every position, the centred coordinate of
    the position along axis [i]; the last row holds ones. *)
Lemma create_grid_row ds i d :
  ds !! i = Some d →
  rows (create_grid ds) !! i
    = Some (map (λ idx, Fin (centred d (nth i idx 0%nat))) (positions ds)).
Proof.
  intros Hd. unfold create_grid. simpl.
  rewrite lookup_app_l by (rewrite length_imap; eapply lookup_lt_Some; eauto).
  by rewrite list_lookup_imap, Hd.
Qed.

Lemma create_grid_last_row ds :
  rows (create_grid ds) !! length ds = Some (map (λ _, Fin 1) (positions ds)).
Proof.
  unfold create_grid. simpl.
  rewrite lookup_app_r by (by rewrite length_imap).
  by rewrite length_imap, Nat.sub_diag.
Qed.

Lemma create_grid_row_length ds r :
  r ∈ rows (create_grid ds) → length r = numel ds.
Proof.
  unfold create_grid. simpl. rewrite elem_of_app. intros [Hr|Hr].
  - apply list_elem_of_lookup_1 in Hr as [i Hi].
    rewrite list_lookup_imap in Hi.
    destruct (ds !! i); simpl in Hi; [|done]. injection Hi as <-.
    by rewrite length_map, positions_length.
  - apply list_elem_of_singleton in Hr as ->.
    by rewrite length_map, positions_length.
Qed.

Lemma create_grid_wf ds : wf_tensor (create_grid ds) = true.
Proof.
  unfold wf_tensor. apply forallb_forall. intros r Hr.
  apply Nat.eqb_eq. apply create_grid_row_length. by apply list_elem_of_In.
Qed.

Lemma create_grid_finite ds r x :
  r ∈ rows (create_grid ds) → x ∈ r → is_finite x = true.
Proof.
  unfold create_grid. simpl. rewrite elem_of_app. intros [Hr|Hr] Hx.
  - apply list_elem_of_lookup_1 in Hr as [i Hi].
    rewrite list_lookup_imap in Hi.
    destruct (ds !! i); simpl in Hi; [|done]. injection Hi as <-.
    apply list_elem_of_fmap in Hx as (? & -> & _). done.
  - apply list_elem_of_singleton in Hr as ->.
    apply list_elem_of_fmap in Hx as (? & -> & _). done.
Qed.

(** ** [AffineGrid] without parameters, and the grids it accepts *)

Lemma finite_list (c : list num) :
  Forall (λ x, is_finite x = true) c → ∃ q, c = map Fin q.
Proof.
  induction 1 as [|x c Hx _ [q ->]]; [by exists []|].
  destruct x as [a| | |]; try done. by exists (a :: q).
Qed.

Lemma ndot_fin a q : ndot a (map Fin q) = Fin (dot a q).
Proof.
  revert q. induction a as [|x a IH]; intros [|y q]; try done.
  unfold ndot, dot in *. simpl. by rewrite IH.
Qed.

Lemma dot_comm a b : dot a b = dot b a.
Proof.
  revert b. induction a as [|x a IH]; intros [|y b]; try done.
  unfold dot in *. simpl. rewrite IH. f_equal. ring.
Qed.

(** The product of row [i] of the identity with a finite column is entry
    [i] of the column. *)
Lemma ndot_unit_finite (c : list num) i :
  Forall (λ x, is_finite x = true) c → (i < length c)%nat →
  ndot (map (λ k, if Nat.eqb i k then 1 else 0) (seq 0 (length c))) c
    = default NaN (c !! i).
Proof.
  intros [q ->]%finite_list Hi. rewrite length_map in *.
  rewrite ndot_fin, dot_comm.
  rewrite (map_ext _ (λ k, if Nat.eqb k i then 1 else 0))
    by (intros k; by rewrite Nat.eqb_sym).
  rewrite dot_unit, bool_decide_eq_true_2 by lia.
  rewrite Nat.sub_0_r, list_lookup_fmap.
  destruct (lookup_lt_is_Some_2 q i Hi) as [x ->]. done.
Qed.

(** A grid without entries is rejected, whatever the matrix. *)
Lemma apply_affine_empty affine g :
  (length (rows g) * numel (spatial g))%nat = 0%nat →
  apply_affine affine g = Raise RuntimeError.
Proof. intros H. unfold apply_affine. by rewrite H. Qed.

(** Applying the identity matrix to a well-formed grid of finite entries, at
    least one of them, returns the grid. *)
Lemma apply_affine_eye g :
  (length (rows g) * numel (spatial g))%nat ≠ 0%nat →
  wf_tensor g = true →
  Forall (Forall (λ x, is_finite x = true)) (rows g) →
  apply_affine (eye (length (rows g))) g = Ok g.
Proof.
  intros Hne Hwf Hfin. unfold apply_affine.
  rewrite (proj2 (Nat.eqb_neq _ _) Hne).
  set (n := length (rows g)). set (K := numel (spatial g)).
  assert (forallb (λ a, Nat.eqb (length a) n) (eye n) = true) as ->.
  { apply forallb_forall. intros a Ha. apply Nat.eqb_eq.
    pose proof (eye_row_length n) as He. rewrite Forall_forall in He. auto. }
  f_equal. destruct g as [sp rs]. simpl in *. f_equal.
  assert (∀ r, r ∈ rs → length r = K) as Hlen.
  { intros r Hr. unfold wf_tensor in Hwf. simpl in Hwf.
    rewrite forallb_forall in Hwf. apply Nat.eqb_eq, Hwf.
    by apply list_elem_of_In. }
  apply list_eq. intros i. unfold eye. rewrite !list_lookup_fmap.
  destruct (decide (i < n)%nat) as [Hi|Hi].
  - rewrite lookup_seq_lt by done. simpl.
    destruct (lookup_lt_is_Some_2 rs i Hi) as [r Hr]. rewrite Hr. f_equal.
    apply list_eq. intros j. rewrite list_lookup_fmap.
    destruct (decide (j < K)%nat) as [Hj|Hj].
    + rewrite lookup_seq_lt by done. simpl.
      set (c := map (λ r0 : list num, default NaN (r0 !! j)) rs).
      assert (length c = n) as Hc by (subst c; by rewrite length_map).
      rewrite <- Hc at 1. rewrite ndot_unit_finite.
      * subst c. rewrite list_lookup_fmap, Hr. simpl.
        destruct (lookup_lt_is_Some_2 r j) as [x ->]; [|done].
        rewrite (Hlen r); [done|]. by eapply list_elem_of_lookup_2.
      * subst c. apply Forall_fmap, Forall_forall. intros r0 Hr0. simpl.
        apply (proj2 (list_elem_of_In _ _)) in Hr0.
        destruct (lookup_lt_is_Some_2 r0 j) as [x Hx];
          [by rewrite (Hlen r0)|].
        rewrite Hx. simpl.
        rewrite Forall_forall in Hfin. apply list_elem_of_In in Hr0.
        specialize (Hfin _ Hr0). rewrite Forall_forall in Hfin.
        apply Hfin. apply list_elem_of_In. by eapply list_elem_of_lookup_2.
      * lia.
    + rewrite lookup_seq_ge by lia. simpl. symmetry.
      apply lookup_ge_None_2. rewrite (Hlen r); [lia|].
      by eapply list_elem_of_lookup_2.
  - rewrite lookup_seq_ge by lia. simpl. symmetry.
    apply lookup_ge_None_2. lia.
Qed.

Lemma matmul_length A B : length (A @@ B) = length A.
Proof. unfold matmul. by rewrite length_map. Qed.

Lemma eye_length n : length (eye n) = n.
Proof. unfold eye. by rewrite length_map, length_seq. Qed.

(** Under the builders' contract the matrix of [AffineGrid] is square of
    size [spatial_dims + 1]. *)
Lemma affine_matrix_shape
    (create_rotate create_shear create_translate create_scale : nat → params → matrix)
    (self : AffineGrid) (D : nat) :
  (truthy (ag_rotate_params self) = true →
   is_square (D + 1) (create_rotate D (ag_rotate_params self)) = true) →
  (truthy (ag_shear_params self) = true →
   is_square (D + 1) (create_shear D (ag_shear_params self)) = true) →
  (truthy (ag_translate_params self) = true →
   is_square (D + 1) (create_translate D (ag_translate_params self)) = true) →
  (truthy (ag_scale_params self) = true →
   is_square (D + 1) (create_scale D (ag_scale_params self)) = true) →
  let M := affine_matrix create_rotate create_shear create_translate
             create_scale self D in
  length M = (D + 1)%nat ∧ Forall (λ r, length r = (D + 1)%nat) M.
Proof.
  intros Hr Hsh Ht Hsc M. subst M. unfold affine_matrix.
  destruct (affine_step create_rotate D (ag_rotate_params self)
              (eye (D + 1)) Hr (eye_row_length _)) as [-> H1].
  destruct (affine_step create_shear D (ag_shear_params self) _ Hsh H1)
    as [-> H2].
  destruct (affine_step create_translate D (ag_translate_params self) _ Ht H2)
    as [-> H3].
  destruct (affine_step create_scale D (ag_scale_params self) _ Hsc H3)
    as [-> H4].
  split; [|done]. by rewrite !matmul_length, eye_length.
Qed.

(** Without truthy parameter group and without grid: the identity grid of
    the spatial size, or the [RuntimeError] of the last reshape when the
    spatial size holds a 0. *)
Lemma AffineGrid_falsy_on_size
    (create_rotate create_shear create_translate create_scale : nat → params → matrix)
    (self : AffineGrid) (spatial_size : list nat) :
  truthy (ag_rotate_params self) = false →
  truthy (ag_shear_params self) = false →
  truthy (ag_translate_params self) = false →
  truthy (ag_scale_params self) = false →
  AffineGrid_call create_rotate create_shear create_translate create_scale
      self (Some spatial_size) None
    = if Nat.eqb (numel spatial_size) 0 then Raise RuntimeError
      else Ok (if ag_as_tensor_output self
               then Tensor (create_grid spatial_size)
                           (default cpu (ag_device self))
               else NdArray (create_grid spatial_size)).
Proof.
  intros Hr Hsh Ht Hsc. unfold AffineGrid_call, affine_matrix. simpl.
  rewrite Hr, Hsh, Ht, Hsc. rewrite bool_decide_eq_true_2 by done.
  replace (length spatial_size - 0 + 1)%nat
    with (length (rows (create_grid spatial_size)))
    by (rewrite create_grid_rows_length; lia).
  destruct (Nat.eqb_spec (numel spatial_size) 0) as [Hz|Hnz].
  - rewrite apply_affine_empty; [done|].
    rewrite create_grid_spatial, Hz. lia.
  - rewrite apply_affine_eye;
      [simpl; by destruct (ag_as_tensor_output self) | | apply create_grid_wf |].
    + rewrite create_grid_rows_length, create_grid_spatial. lia.
    + apply Forall_forall. intros r Hr'. apply Forall_forall. intros x Hx.
      apply (create_grid_finite spatial_size r x); by apply list_elem_of_In.
Qed.

(** X1.  [AffineGrid] whose four parameter groups are all falsy ([None],
    zero or empty), called with a spatial size and no grid: when no entry of
    the spatial size is 0 it returns the identity grid of the Coordinate Grid
    Builder unchanged, as a tensor or as an array according to
    [as_tensor_output]; when some entry is 0 the grid has no entries and
    the call raises the [RuntimeError] of its last reshape. *)
Theorem AffineGrid_without_parameters
    (create_rotate create_shear create_translate create_scale : nat → params → matrix)
    (self : AffineGrid) (spatial_size : list nat) :
  truthy (ag_rotate_params self) = false →
  truthy (ag_shear_params self) = false →
  truthy (ag_translate_params self) = false →
  truthy (ag_scale_params self) = false →
  AffineGrid_call create_rotate create_shear create_translate create_scale
      self (Some spatial_size) None
    = if Nat.eqb (numel spatial_size) 0 then Raise RuntimeError
      else Ok (if ag_as_tensor_output self
               then Tensor (create_grid spatial_size)
                           (default cpu (ag_device self))
               else NdArray (create_grid spatial_size)).
Proof. apply AffineGrid_falsy_on_size. Qed.

(** X1 at [AffineGrid(rotate_params=0, shear_params=[])] and the spatial
    sizes (2,3) and (0,2). *)
Lemma AffineGrid_without_parameters_witness :
  AffineGrid_call not_invoked not_invoked not_invoked not_invoked
      (mkAffineGrid (PScalar 0) (PSeq []) PNone PNone true None)
      (Some [2;3]%nat) None
    = Ok (Tensor (create_grid [2;3]%nat) cpu)
  ∧ AffineGrid_call not_invoked not_invoked not_invoked not_invoked
      (mkAffineGrid (PScalar 0) (PSeq []) PNone PNone true None)
      (Some [0;2]%nat) None
    = Raise RuntimeError.
Proof.
  split.
  - apply (AffineGrid_without_parameters not_invoked not_invoked not_invoked
             not_invoked
             (mkAffineGrid (PScalar 0) (PSeq []) PNone PNone true None)
             [2;3]%nat); reflexivity.
  - apply (AffineGrid_without_parameters not_invoked not_invoked not_invoked
             not_invoked
             (mkAffineGrid (PScalar 0) (PSeq []) PNone PNone true None)
             [0;2]%nat); reflexivity.
Defined.

(** X2.  With builders that return square matrices of size [D + 1],
    [AffineGrid] applied to a supplied grid with [D] spatial axes accepts
    exactly the grids whose leading axis has [D + 1] entries and whose
    spatial axes are not empty: for those it returns a grid of the same
    shape; for every other it raises [RuntimeError], in the matrix product
    or, for a grid without entries, in a reshape.  The spatial size, when
    also given, plays no role. *)
Theorem AffineGrid_accepts_homogeneous_grids
    (create_rotate create_shear create_translate create_scale : nat → params → matrix)
    (self : AffineGrid) (spatial_size : option (list nat)) (grid : array) :
  let D := length (spatial (data grid)) in
  let call :=
    AffineGrid_call create_rotate create_shear create_translate create_scale
      self spatial_size (Some grid) in
  (truthy (ag_rotate_params self) = true →
   is_square (D + 1) (create_rotate D (ag_rotate_params self)) = true) →
  (truthy (ag_shear_params self) = true →
   is_square (D + 1) (create_shear D (ag_shear_params self)) = true) →
  (truthy (ag_translate_params self) = true →
   is_square (D + 1) (create_translate D (ag_translate_params self)) = true) →
  (truthy (ag_scale_params self) = true →
   is_square (D + 1) (create_scale D (ag_scale_params self)) = true) →
  default cpu (ag_device self) = default (device_of grid) (ag_device self) →
  (length (rows (data grid)) = (D + 1)%nat →
   numel (spatial (data grid)) ≠ 0%nat →
   ∃ out, call = Ok out ∧ shape (data out) = shape (data grid))
  ∧ (length (rows (data grid)) ≠ (D + 1)%nat
     ∨ numel (spatial (data grid)) = 0%nat →
     call = Raise RuntimeError).
Proof.
  intros D call Hr Hsh Ht Hsc Hdev. subst call.
  unfold AffineGrid_call. simpl.
  replace (length (spatial (data grid)) - 0)%nat with D by (subst D; lia).
  destruct (affine_matrix_shape create_rotate create_shear create_translate
              create_scale self D Hr Hsh Ht Hsc) as [Hlen Hrows].
  set (M := affine_matrix _ _ _ _ self D) in *.
  rewrite bool_decide_eq_true_2 by done.
  unfold apply_affine. split.
  - intros Hn Hnz.
    assert (Nat.eqb (length (rows (data grid)) * numel (spatial (data grid))) 0
            = false) as -> by (apply Nat.eqb_neq; lia).
    assert (forallb (λ a, Nat.eqb (length a) (length (rows (data grid)))) M
            = true) as ->.
    { apply forallb_forall. intros a Ha. apply Nat.eqb_eq.
      rewrite Forall_forall in Hrows. rewrite Hn. auto. }
    simpl. destruct (ag_as_tensor_output self); eexists; (split; [done|]);
      unfold shape; simpl; by rewrite length_map, Hlen, Hn.
  - intros Hn.
    destruct (Nat.eqb_spec
                (length (rows (data grid)) * numel (spatial (data grid))) 0)
      as [|Hne]; [done|].
    destruct Hn as [Hn|Hz].
    + assert (forallb (λ a, Nat.eqb (length a) (length (rows (data grid)))) M
              = false) as ->; [|done].
      destruct M as [|a M]; [simpl in Hlen; lia|]. simpl.
      apply Forall_cons_1 in Hrows as [Ha _].
      apply andb_false_intro1, Nat.eqb_neq. lia.
    + rewrite Hz in Hne. lia.
Qed.

(** X2 at a translation in two dimensions: the identity grid of size (2,2)
    is accepted, its two coordinate rows alone are not. *)
Lemma AffineGrid_accepts_homogeneous_grids_witness :
  (∃ out,
     AffineGrid_call not_invoked not_invoked create_translate not_invoked
       (mkAffineGrid PNone PNone (PSeq [1; 1]) PNone true None) None
       (Some (NdArray (create_grid [2;2]%nat))) = Ok out
     ∧ shape (data out) = [3;2;2]%nat)
  ∧ AffineGrid_call not_invoked not_invoked create_translate not_invoked
      (mkAffineGrid PNone PNone (PSeq [1; 1]) PNone true None) None
      (Some grid222) = Raise RuntimeError.
Proof.
  split.
  - apply (proj1 (AffineGrid_accepts_homogeneous_grids not_invoked not_invoked
             create_translate not_invoked
             (mkAffineGrid PNone PNone (PSeq [1; 1]) PNone true None) None
             (NdArray (create_grid [2;2]%nat))
             (λ H, False_ind _ (Bool.diff_false_true H))
             (λ H, False_ind _ (Bool.diff_false_true H))
             (λ _, eq_refl)
             (λ H, False_ind _ (Bool.diff_false_true H))
             eq_refl)).
    + reflexivity.
    + simpl. lia.
  - apply (proj2 (AffineGrid_accepts_homogeneous_grids not_invoked not_invoked
             create_translate not_invoked
             (mkAffineGrid PNone PNone (PSeq [1; 1]) PNone true None) None
             grid222
             (λ H, False_ind _ (Bool.diff_false_true H))
             (λ H, False_ind _ (Bool.diff_false_true H))
             (λ _, eq_refl)
             (λ H, False_ind _ (Bool.diff_false_true H))
             eq_refl)).
    left. simpl. lia.
Defined.

(** ** More on [Resample] *)

Lemma flat_index_fold dims idx (acc : Z) :
  in_range dims idx →
  fold_left (λ a p, a * Z.of_nat p.2 + p.1)%Z (zip (map Z.of_nat idx) dims) acc
    = (acc * Z.of_nat (numel dims) + Z.of_nat (ravel dims idx))%Z.
Proof.
  intros H. revert acc. induction H as [|i d idx ds Hi _ IH]; intros acc.
  - simpl. lia.
  - simpl. rewrite IH. simpl. lia.
Qed.

(** The offset [grid_sample] reads for an in-range multi-index is its
    row-major offset. *)
Lemma flat_index_ravel dims idx :
  in_range dims idx → flat_index (map Z.of_nat idx) dims = ravel dims idx.
Proof.
  intros H. unfold flat_index. rewrite flat_index_fold by done. lia.
Qed.

Lemma in_bounds_in_range dims idx :
  in_range dims idx → in_bounds (map Z.of_nat idx) dims = true.
Proof.
  intros H. unfold in_bounds. induction H as [|i d idx ds Hi _ IH]; [done|].
  simpl. rewrite IH, andb_true_r. apply andb_true_intro. split.
  - apply Z.leb_le. lia.
  - apply Z.ltb_lt. lia.
Qed.

(** Inside the image, [pixel] reads the channel at the row-major offset. *)
Lemma pixel_in_range dims (chan : list num) idx :
  in_range dims idx → length chan = numel dims →
  ∃ v, chan !! ravel dims idx = Some v
       ∧ pixel dims chan (map Z.of_nat idx) = v.
Proof.
  intros Hr Hlen. unfold pixel.
  rewrite in_bounds_in_range, flat_index_ravel by done.
  destruct (lookup_lt_is_Some_2 chan (ravel dims idx)) as [v Hv].
  { rewrite Hlen. by apply ravel_lt. }
  exists v. by rewrite Hv.
Qed.

(** The result of a well-shaped call, written out: every channel is sampled
    at the same points, which depend on the grid and on the spatial shape of
    the image only. *)
Lemma Resample_apply_explicit self img grid mode :
  length (spatial (data img)) = 2%nat ∨ length (spatial (data img)) = 3%nat →
  length (spatial (data grid)) = length (spatial (data img)) →
  (length (spatial (data img)) + 1 ≤ length (rows (data grid)))%nat →
  Forall (λ d, 0 < d)%nat (spatial (data img)) →
  placed self img = placed self grid →
  ∃ c,
    sampling_grid (data img) (data grid) = Ok c
    ∧ out_spatial c = spatial (data grid)
    ∧ length (points c) = numel (spatial (data grid))
    ∧ Resample_apply self img grid mode =
        Ok (let out :=
              mkTensor (spatial (data grid))
                (map (λ chan,
                        map (sample_point
                               (kernel_of (placed self img)
                                  (length (spatial (data img))))
                               mode (rs_padding_mode self)
                               (spatial (data img)) chan) (points c))
                     (rows (data img))) in
            if rs_as_tensor_output self then Tensor out (placed self img)
            else NdArray out).
Proof.
  intros HD Hrank Hn Hpos Hdev.
  destruct (sampling_grid_ok (data img) (data grid) Hn)
    as (c & Hc & Hsp & Hpts).
  exists c. split; [done|]. split; [done|]. split.
  { unfold sampling_grid, normalised in Hc.
    rewrite bool_decide_eq_true_2 in Hc by lia. simpl in Hc.
    destruct (index_rows _ _) as [g2|] eqn:Hg2; [|done].
    simpl in Hc. injection Hc as <-. unfold permute. simpl.
    rewrite length_map, length_seq.
    unfold index_rows in Hg2. destruct (mapM _ _); [|done].
    injection Hg2 as <-. simpl. by rewrite hom_divide_spatial. }
  rewrite Resample_apply_eq. unfold resample_result. rewrite Hc. simpl.
  rewrite bool_decide_eq_true_2 by done.
  unfold grid_sample.
  assert (Nat.eqb (length (spatial (data img))) 2
          || Nat.eqb (length (spatial (data img))) 3 = true) as ->.
  { destruct HD as [-> | ->]; done. }
  rewrite Hsp, Hrank, Nat.eqb_refl. simpl.
  assert (forallb (λ pt, Nat.eqb (length pt) (length (spatial (data img))))
            (points c) = true) as ->.
  { apply forallb_forall. intros pt Hpt. apply Nat.eqb_eq.
    rewrite Forall_forall in Hpts. by apply Hpts. }
  assert (forallb (λ d, Nat.ltb 0 d) (spatial (data img)) = true) as ->.
  { apply forallb_forall. intros d Hd. apply Nat.ltb_lt.
    rewrite Forall_forall in Hpos. by apply Hpos. }
  simpl. by destruct (rs_as_tensor_output self).
Qed.

(** X3.  [Resample.__call__] writes to no object of the caller other than
    the grid: whatever the kinds and devices of the two arguments and
    whether the call returns or raises, every object stored at a location
    different from the grid's, the image included, is the same afterwards,
    and no object disappears. *)
Theorem Resample_call_frame self σ im g a b mode :
  σ !! im = Some a → σ !! g = Some b →
  let σ' := (Resample_call self im g mode σ).1 in
  (∀ l x, l ≠ g → σ !! l = Some x → σ' !! l = Some x)
  ∧ (length σ ≤ length σ')%nat.
Proof.
  intros Him Hg σ'.
  destruct (Resample_call_store self σ im g a b mode Him Hg)
    as (σ1 & g' & dg & Hpre & Hst & Hg' & Hcase).
  fold σ' in Hst. rewrite Hst. split.
  - intros l x Hl Hx. pose proof (lookup_lt_Some _ _ _ Hx) as Hlt.
    assert (l ≠ g') as Hne.
    { destruct (_ && _); [by destruct Hcase as [-> _] | lia]. }
    rewrite list_lookup_insert_ne by done.
    eapply prefix_lookup_Some; eauto.
  - rewrite length_insert. by apply prefix_length.
Qed.

(** X3 at a call with a tensor image and a tensor grid: the image at
    location 0 is untouched. *)
Lemma Resample_call_frame_witness :
  (Resample_call Resample_default 0%nat 1%nat bilinear
     [Tensor (data img22) cpu; Tensor (create_grid [2;2]%nat) cpu]).1 !! 0%nat
    = Some (Tensor (data img22) cpu).
Proof.
  apply (proj1 (Resample_call_frame Resample_default
                  [Tensor (data img22) cpu; Tensor (create_grid [2;2]%nat) cpu]
                  0%nat 1%nat _ _ bilinear eq_refl eq_refl));
    [lia | reflexivity].
Defined.

(** X4.  On a well-shaped call (an image with two or three spatial axes of
    positive size, a grid of the same spatial rank with at least [D + 1]
    rows, both arrays on one device when sampled) [Resample] returns an
    array of shape [(C, *out_spatial)]: one row of [numel out_spatial]
    entries per channel of the image, wrapped as a tensor or as a numpy
    array according to [as_tensor_output]. *)
Theorem Resample_output_shape self img grid mode :
  length (spatial (data img)) = 2%nat ∨ length (spatial (data img)) = 3%nat →
  length (spatial (data grid)) = length (spatial (data img)) →
  (length (spatial (data img)) + 1 ≤ length (rows (data grid)))%nat →
  Forall (λ d, 0 < d)%nat (spatial (data img)) →
  placed self img = placed self grid →
  ∃ out,
    Resample_apply self img grid mode
      = Ok (if rs_as_tensor_output self then Tensor out (placed self img)
            else NdArray out)
    ∧ spatial out = spatial (data grid)
    ∧ length (rows out) = length (rows (data img))
    ∧ wf_tensor out = true.
Proof.
  intros HD Hrank Hn Hpos Hdev.
  destruct (Resample_apply_explicit self img grid mode HD Hrank Hn Hpos Hdev)
    as (c & _ & _ & Hlen & ->).
  eexists. split; [reflexivity|]. simpl. split; [done|]. split.
  - by rewrite length_map.
  - unfold wf_tensor. simpl. apply forallb_forall. intros r Hr.
    apply in_map_iff in Hr as (chan & <- & _).
    apply Nat.eqb_eq. by rewrite length_map.
Qed.

(** X4 at the (1,2,2) image and the identity grid of size (2,2). *)
Lemma Resample_output_shape_witness :
  ∃ out,
    Resample_apply Resample_default img22 (NdArray (create_grid [2;2]%nat))
      bilinear = Ok (NdArray out)
    ∧ spatial out = [2;2]%nat
    ∧ length (rows out) = 1%nat
    ∧ wf_tensor out = true.
Proof.
  apply (Resample_output_shape Resample_default img22
           (NdArray (create_grid [2;2]%nat)) bilinear).
  - left. reflexivity.
  - reflexivity.
  - simpl. lia.
  - simpl. repeat constructor.
  - reflexivity.
Defined.

Lemma sampling_grid_spatial t t' g :
  spatial t = spatial t' → sampling_grid t g = sampling_grid t' g.
Proof. intros H. unfold sampling_grid, normalised. by rewrite H. Qed.

(** X5.  Channels are resampled independently and at the same points:
    channel [k] of the result of a well-shaped call is the result of the
    same call on the one-channel image made of channel [k]. *)
Theorem Resample_channels_independent self img grid mode k chan :
  length (spatial (data img)) = 2%nat ∨ length (spatial (data img)) = 3%nat →
  length (spatial (data grid)) = length (spatial (data img)) →
  (length (spatial (data img)) + 1 ≤ length (rows (data grid)))%nat →
  Forall (λ d, 0 < d)%nat (spatial (data img)) →
  placed self img = placed self grid →
  rows (data img) !! k = Some chan →
  ∃ out o,
    Resample_apply self img grid mode = Ok out
    ∧ rows (data out) !! k = Some o
    ∧ Resample_apply self (with_rows img [chan]) grid mode
        = Ok (with_rows out [o]).
Proof.
  intros HD Hrank Hn Hpos Hdev Hk.
  destruct (Resample_apply_explicit self img grid mode HD Hrank Hn Hpos Hdev)
    as (c & Hc & _ & _ & ->).
  assert (spatial (data (with_rows img [chan])) = spatial (data img)) as Hsp
    by (by destruct img).
  assert (placed self (with_rows img [chan]) = placed self img) as Hpl
    by (by destruct img).
  destruct (Resample_apply_explicit self (with_rows img [chan]) grid mode)
    as (c' & Hc' & _ & _ & ->); rewrite ?Hsp, ?Hpl; try done.
  rewrite (sampling_grid_spatial _ (data img)) in Hc' by done.
  rewrite Hc in Hc'. injection Hc' as <-.
  assert (rows (data (with_rows img [chan])) = [chan]) as -> by (by destruct img).
  eexists _, _. split; [reflexivity|]. split.
  - destruct (rs_as_tensor_output self); simpl;
      by rewrite list_lookup_fmap, Hk.
  - by destruct (rs_as_tensor_output self).
Qed.

(** X5 at the two-channel image made of [img22]'s channel twice. *)
Lemma Resample_channels_independent_witness :
  ∃ out o,
    Resample_apply Resample_default
      (with_rows img22 [[qz 1; qz 2; qz 3; qz 4]; [qz 1; qz 2; qz 3; qz 4]])
      (NdArray (create_grid [2;2]%nat)) bilinear = Ok out
    ∧ rows (data out) !! 1%nat = Some o
    ∧ Resample_apply Resample_default img22
        (NdArray (create_grid [2;2]%nat)) bilinear
        = Ok (with_rows out [o]).
Proof.
  apply (Resample_channels_independent Resample_default
           (with_rows img22 [[qz 1; qz 2; qz 3; qz 4]; [qz 1; qz 2; qz 3; qz 4]])
           (NdArray (create_grid [2;2]%nat)) bilinear 1%nat
           [qz 1; qz 2; qz 3; qz 4]).
  - left. reflexivity.
  - reflexivity.
  - simpl. lia.
  - simpl. repeat constructor.
  - reflexivity.
  - reflexivity.
Defined.

Lemma nmul_one v : nmul (Fin 1) v = v.
Proof.
  destruct v as [a| | |]; simpl; try done.
  f_equal. ring.
Qed.

(** One tap of weight 1 per axis gives one corner of weight 1. *)
Lemma corners_single (ks : list Z) :
  corners (map (λ k, [(k, 1)]) ks) = [(ks, 1)].
Proof.
  induction ks as [|k ks IH]; [done|]. simpl. rewrite IH. simpl.
  by rewrite Qcmult_1_l.
Qed.

Lemma finite_point_Some (l : list num) ps :
  finite_point l = Some ps → l = map Fin ps.
Proof.
  unfold finite_point. revert ps. induction l as [|x l IH]; intros ps H.
  - by injection H as <-.
  - simpl in H. destruct x as [q| | |]; try done. simpl in H.
    destruct (mapM _ l) as [qs|]; [|done]. simpl in H. injection H as <-.
    simpl. by rewrite (IH qs).
Qed.

(** At a point with finite coordinates every kernel reads the pixels its
    unnormalised and padded coordinates select. *)
Lemma sample_point_finite k mode pad dims chan pt ps :
  finite_point (reverse pt) = Some ps →
  sample_point k mode pad dims chan pt
  = fold_right (λ c acc, nadd (nmul (Fin c.2) (pixel dims chan c.1)) acc)
      (Fin 0)
      (corners
         (zip_with
            (λ x d, taps mode (compute_coordinates pad (unnormalize x d) d))
            ps dims)).
Proof.
  intros Hps. unfold sample_point.
  rewrite (finite_point_Some _ _ Hps).
  assert (mapM (λ xd, axis_taps k mode pad xd.1 xd.2) (zip (map Fin ps) dims)
          = Some (zip_with
                    (λ x d, taps mode
                              (compute_coordinates pad (unnormalize x d) d))
                    ps dims)) as ->; [|done].
  clear Hps. revert dims.
  induction ps as [|x ps IH]; intros [|d dims]; try done.
  simpl. by rewrite IH.
Qed.

(** In [nearest] mode a point with finite coordinates reads exactly one
    pixel. *)
Lemma sample_point_nearest k pad dims chan pt ps :
  finite_point (reverse pt) = Some ps →
  sample_point k nearest pad dims chan pt
    = pixel dims chan
        (zip_with (λ x d, nearbyint (compute_coordinates pad (unnormalize x d) d))
                  ps dims).
Proof.
  intros Hps. rewrite (sample_point_finite _ _ _ _ _ _ ps Hps).
  set (ks := zip_with (λ x d, nearbyint
                              (compute_coordinates pad (unnormalize x d) d))
                      ps dims).
  assert (zip_with (λ x d, taps nearest
                     (compute_coordinates pad (unnormalize x d) d)) ps dims
          = map (λ k, [(k, 1)]) ks) as ->.
  { subst ks. clear Hps. revert dims.
    induction ps as [|x ps IH]; intros [|d dims]; try done.
    simpl. by rewrite IH. }
  rewrite corners_single. cbv beta iota delta [fold_right fst snd].
  by rewrite nmul_one, nadd_zero.
Qed.

(** In [nearest] mode every point reads exactly one pixel, also at
    non-finite coordinates. *)
Lemma sample_point_nearest_pixel k pad dims chan pt :
  ∃ ks, sample_point k nearest pad dims chan pt = pixel dims chan ks.
Proof.
  unfold sample_point.
  assert (∃ ks, mapM (λ xd, axis_taps k nearest pad xd.1 xd.2)
                     (zip (reverse pt) dims)
                = Some (map (λ i, [(i, 1)]) ks)) as [ks ->].
  { generalize (zip (reverse pt) dims). intros l.
    induction l as [|[x d] l [ks IH]]; [by exists []|].
    assert (∃ i, axis_taps k nearest pad x d = Some [(i, 1)]) as [i Hi].
    { unfold axis_taps, taps.
      destruct x, pad, k; eexists; reflexivity. }
    exists (i :: ks). simpl. by rewrite Hi, IH. }
  exists ks. rewrite corners_single. cbv beta iota delta [fold_right fst snd].
  by rewrite nmul_one, nadd_zero.
Qed.

Lemma pixel_values dims (chan : list num) idx :
  pixel dims chan idx ∈ chan ∨ pixel dims chan idx = Fin 0
  ∨ pixel dims chan idx = NaN.
Proof.
  unfold pixel. destruct (in_bounds idx dims); [|by right; left].
  destruct (chan !! _) as [v|] eqn:Hv; simpl.
  - left. by eapply list_elem_of_lookup_2.
  - by right; right.
Qed.

(** X6.  Nearest-neighbour resampling does not blend: on a well-shaped call
    with mode [nearest], every entry of channel [k] of the result is an
    entry of channel [k] of the image, or the 0 of a sample outside the
    image, or NaN (which stands for the entry that a channel shorter than
    its shape does not hold). *)
Theorem Resample_nearest_keeps_values self img grid k chan :
  length (spatial (data img)) = 2%nat ∨ length (spatial (data img)) = 3%nat →
  length (spatial (data grid)) = length (spatial (data img)) →
  (length (spatial (data img)) + 1 ≤ length (rows (data grid)))%nat →
  Forall (λ d, 0 < d)%nat (spatial (data img)) →
  placed self img = placed self grid →
  rows (data img) !! k = Some chan →
  ∃ out o,
    Resample_apply self img grid nearest = Ok out
    ∧ rows (data out) !! k = Some o
    ∧ Forall (λ x, x ∈ chan ∨ x = Fin 0 ∨ x = NaN) o.
Proof.
  intros HD Hrank Hn Hpos Hdev Hk.
  destruct (Resample_apply_explicit self img grid nearest HD Hrank Hn Hpos Hdev)
    as (c & _ & _ & _ & ->).
  eexists _, _. split; [reflexivity|]. split.
  - destruct (rs_as_tensor_output self); simpl;
      by rewrite list_lookup_fmap, Hk.
  - apply Forall_fmap, Forall_forall. intros pt _. simpl.
    destruct (sample_point_nearest_pixel
                (kernel_of (placed self img) (length (spatial (data img))))
                (rs_padding_mode self) (spatial (data img)) chan pt)
      as [ks ->].
    apply pixel_values.
Qed.

(** X6 at the (1,2,2) image and the identity grid of size (2,2). *)
Lemma Resample_nearest_keeps_values_witness :
  ∃ out o,
    Resample_apply Resample_default img22 (NdArray (create_grid [2;2]%nat))
      nearest = Ok out
    ∧ rows (data out) !! 0%nat = Some o
    ∧ Forall (λ x, x ∈ [qz 1; qz 2; qz 3; qz 4] ∨ x = Fin 0 ∨ x = NaN) o.
Proof.
  apply (Resample_nearest_keeps_values Resample_default img22
           (NdArray (create_grid [2;2]%nat)) 0%nat).
  - left. reflexivity.
  - reflexivity.
  - simpl. lia.
  - simpl. repeat constructor.
  - reflexivity.
  - reflexivity.
Defined.

(** X7.  [Resample] supports images with two or three spatial axes only:
    for an image of any other spatial rank the call raises, whatever the
    grid. *)
Theorem Resample_rejects_other_ranks self img grid mode :
  length (spatial (data img)) ≠ 2%nat →
  length (spatial (data img)) ≠ 3%nat →
  ∃ e, Resample_apply self img grid mode = Raise e.
Proof.
  intros H2 H3. rewrite Resample_apply_eq. unfold resample_result.
  destruct (sampling_grid _ _) as [c|e]; simpl; [|eauto].
  destruct (bool_decide _); simpl; [|eauto].
  unfold grid_sample.
  rewrite (proj2 (Nat.eqb_neq _ _) H2), (proj2 (Nat.eqb_neq _ _) H3).
  simpl. eauto.
Qed.

(** X7 at an image of shape (1,2), with one spatial axis, and the identity
    grid of size (2,). *)
Lemma Resample_rejects_other_ranks_witness :
  ∃ e,
    Resample_apply Resample_default (NdArray (mkTensor [2]%nat [[qz 1; qz 2]]))
      (NdArray (create_grid [2]%nat)) bilinear = Raise e.
Proof.
  apply (Resample_rejects_other_ranks Resample_default
           (NdArray (mkTensor [2]%nat [[qz 1; qz 2]]))
           (NdArray (create_grid [2]%nat)) bilinear); simpl; lia.
Defined.

(** X8.  The result of [Resample] depends on the values of the two arrays
    and on the devices they are sampled on, not on whether they were passed
    as numpy arrays or as torch tensors. *)
Theorem Resample_result_ignores_array_kind self img img' grid grid' mode :
  data img = data img' → data grid = data grid' →
  placed self img = placed self img' →
  placed self grid = placed self grid' →
  Resample_apply self img grid mode = Resample_apply self img' grid' mode.
Proof.
  intros Hi Hg Hpi Hpg. rewrite !Resample_apply_eq. unfold resample_result.
  by rewrite Hi, Hg, Hpi, Hpg.
Qed.

(** X8 at the (1,2,2) image and the identity grid, as numpy arrays and as
    CPU tensors. *)
Lemma Resample_result_ignores_array_kind_witness :
  Resample_apply Resample_default img22 (NdArray (create_grid [2;2]%nat))
    bilinear
  = Resample_apply Resample_default (Tensor (data img22) cpu)
      (Tensor (create_grid [2;2]%nat) cpu) bilinear.
Proof.
  apply (Resample_result_ignores_array_kind Resample_default img22
           (Tensor (data img22) cpu) (NdArray (create_grid [2;2]%nat))
           (Tensor (create_grid [2;2]%nat) cpu) bilinear); reflexivity.
Defined.

(** ** Rounding to the nearest pixel *)

Lemma this_plus (a b : Qc) : (this (a + b) == this a + this b)%Q.
Proof. unfold Qcplus, Q2Qc. simpl. apply Qred_correct. Qed.

Lemma this_minus (a b : Qc) : (this (a - b) == this a - this b)%Q.
Proof.
  unfold Qcminus, Qcplus, Qcopp, Q2Qc. simpl. rewrite !Qred_correct.
  reflexivity.
Qed.

Lemma this_half : (this (1 / 2) == 1 # 2)%Q.
Proof. reflexivity. Qed.

Lemma Qc_ltb_true a b : (this a < this b)%Q → Qc_ltb a b = true.
Proof. intros H. unfold Qc_ltb. by apply bool_decide_eq_true_2. Qed.

Lemma Qc_ltb_false a b : (this b <= this a)%Q → Qc_ltb a b = false.
Proof.
  intros H. unfold Qc_ltb. apply bool_decide_eq_false_2.
  intros Hlt. unfold Qclt in Hlt. lra.
Qed.

Lemma nearbyint_spec p z :
  Qc_of_Z z - 1 / 2 < p → p < Qc_of_Z z + 1 / 2 → nearbyint p = z.
Proof.
  intros Hlo Hhi. unfold Qclt in Hlo, Hhi.
  rewrite this_minus in Hlo. rewrite this_plus in Hhi.
  rewrite this_half in Hlo, Hhi. change (this (Qc_of_Z z)) with (inject_Z z) in *.
  unfold nearbyint, Qc_floor.
  pose proof (Qfloor_le (this p)) as Hf1.
  pose proof (Qlt_floor (this p)) as Hf2.
  set (f := Qfloor (this p)) in *.
  rewrite inject_Z_plus in Hf2. change (inject_Z 1) with 1%Q in Hf2.
  assert (f < z + 1)%Z as Hup.
  { rewrite Zlt_Qlt. rewrite inject_Z_plus. change (inject_Z 1) with 1%Q. lra. }
  assert (z - 2 < f)%Z as Hdown.
  { rewrite Zlt_Qlt. unfold Z.sub. rewrite inject_Z_plus, inject_Z_opp.
    change (inject_Z 2) with 2%Q. lra. }
  destruct (decide (f = z)) as [->|Hne].
  - rewrite Qc_ltb_true; [done|].
    rewrite this_minus, this_half. change (this (Qc_of_Z z)) with (inject_Z z).
    lra.
  - assert (f = z - 1)%Z as -> by lia.
    assert (inject_Z (z - 1) == inject_Z z - 1)%Q as Hz.
    { unfold Z.sub. rewrite inject_Z_plus, inject_Z_opp.
      change (inject_Z 1) with 1%Q. lra. }
    rewrite Qc_ltb_false.
    2:{ rewrite this_minus, this_half.
        change (this (Qc_of_Z (z - 1))) with (inject_Z (z - 1)). lra. }
    rewrite Qc_ltb_true; [f_equal; lia|].
    rewrite this_minus, this_half.
    change (this (Qc_of_Z (z - 1))) with (inject_Z (z - 1)). lra.
Qed.

Lemma this_of_nat n : this (Qc_of_nat n) = inject_Z (Z.of_nat n).
Proof. reflexivity. Qed.

Lemma this_of_Z (z : Z) : this (Qc_of_Z z) = inject_Z z.
Proof. reflexivity. Qed.

Lemma this_div (a b : Qc) : (this (a / b) == this a / this b)%Q.
Proof.
  unfold Qcdiv, Qcmult, Qcinv, Q2Qc. simpl. rewrite !Qred_correct.
  reflexivity.
Qed.

Ltac to_Q :=
  repeat first [ rewrite this_half | rewrite this_minus | rewrite this_plus
               | rewrite this_div | rewrite this_of_nat ];
  change (this 1) with 1%Q; change (this 0) with 0%Q.

Ltac to_Q_in H :=
  repeat first [ rewrite this_half in H | rewrite this_minus in H
               | rewrite this_plus in H | rewrite this_div in H
               | rewrite this_of_nat in H ];
  change (this 1) with 1%Q in H; change (this 0) with 0%Q in H.

Lemma nearbyint_of_Z z : nearbyint (Qc_of_Z z) = z.
Proof.
  apply nearbyint_spec; unfold Qclt; to_Q;
    change (this (Qc_of_Z z)) with (inject_Z z); lra.
Qed.

Lemma unnormalize_identity n k :
  (2 ≤ n)%nat →
  unnormalize (2 * centred n k / (Qc_of_nat n - 1)) n
  = Qc_of_nat k + Qc_of_nat k / (Qc_of_nat n - 1) - 1 / 2.
Proof.
  intros Hn. pose proof (Qc_of_nat_minus_1_nonzero n Hn) as Hne.
  unfold unnormalize, centred. field. split; [done|]. exact Hne.
Qed.

(** On an axis of [d >= 2] pixels the identity grid's [k]-th coordinate,
    clamped to the image ([padding_mode='border']) and rounded, is [k]:
    the read position [k + k / (d - 1) - 1/2] is within half a pixel of
    [k], and the two positions exactly half a pixel off ([k = 0] and
    [k = d - 1]) lie outside the image, where clamping moves them onto
    the first and the last pixel. *)
Lemma nearest_identity_index d k :
  (2 ≤ d)%nat → (k < d)%nat →
  nearbyint
    (clip_coordinates
       (unnormalize (2 * centred d k / (Qc_of_nat d - 1)) d) d)
  = Z.of_nat k.
Proof.
  intros Hd Hk. rewrite unnormalize_identity by done.
  unfold clip_coordinates, Qc_max, Qc_min.
  assert (inject_Z (Z.of_nat 0) == 0)%Q as H0 by reflexivity.
  assert (0 <= inject_Z (Z.of_nat k))%Q as HK0.
  { rewrite <- H0, <- Zle_Qle. lia. }
  assert (inject_Z (Z.of_nat k) + 1 <= inject_Z (Z.of_nat d))%Q as HKD.
  { change 1%Q with (inject_Z 1). rewrite <- inject_Z_plus, <- Zle_Qle. lia. }
  assert (2 <= inject_Z (Z.of_nat d))%Q as HD2.
  { change 2%Q with (inject_Z 2). rewrite <- Zle_Qle. lia. }
  destruct (decide (k = 0%nat)) as [->|Hk0].
  { replace (Qc_of_nat 0 / (Qc_of_nat d - 1)) with 0
      by (apply Qc_is_canon; to_Q; reflexivity).
    rewrite (Qc_ltb_true _ 0) by (unfold Qclt; to_Q; lra).
    rewrite (Qc_ltb_true 0) by (unfold Qclt; to_Q; lra).
    apply (nearbyint_of_Z 0). }
  destruct (decide (S k = d)) as [<-|Hkd].
  { replace (Qc_of_nat (S k) - 1) with (Qc_of_nat k)
      by (rewrite Qc_of_nat_S; ring).
    assert (Qc_of_nat k ≠ 0) as Hne.
    { intros Heq. apply (f_equal this) in Heq. revert Heq. to_Q.
      intros Heq. unfold inject_Z in Heq. injection Heq. lia. }
    replace (Qc_of_nat k / Qc_of_nat k) with 1 by (field; exact Hne).
    rewrite (Qc_ltb_false _ 0) by (unfold Qclt; to_Q; lra).
    rewrite Qc_ltb_false by (unfold Qclt; to_Q; lra).
    apply nearbyint_of_Z. }
  assert (1 <= inject_Z (Z.of_nat k))%Q as HK1.
  { change 1%Q with (inject_Z 1). rewrite <- Zle_Qle. lia. }
  assert (inject_Z (Z.of_nat k) + 2 <= inject_Z (Z.of_nat d))%Q as HKD2.
  { change 2%Q with (inject_Z 2). rewrite <- inject_Z_plus, <- Zle_Qle. lia. }
  set (delta := Qc_of_nat k / (Qc_of_nat d - 1)).
  assert (0 < this delta ∧ this delta < 1)%Q as [Hd0 Hd1].
  { unfold delta. to_Q. split.
    - apply Qlt_shift_div_l; lra.
    - apply Qlt_shift_div_r; lra. }
  rewrite (Qc_ltb_false _ 0) by (unfold Qclt; to_Q; lra).
  rewrite Qc_ltb_true by (unfold Qclt; to_Q; lra).
  apply nearbyint_spec; unfold Qclt; to_Q;
    change (this (Qc_of_Z (Z.of_nat k))) with (inject_Z (Z.of_nat k)); lra.
Qed.

Lemma this_opp (a : Qc) : (this (- a) == - this a)%Q.
Proof. unfold Qcopp, Q2Qc. simpl. apply Qred_correct. Qed.

(** That rounding is stable on axes of at most 2048 pixels: the position
    is at least [1 / (d - 1)] pixels away from the next rounding boundary,
    so a position that is off by no more than [float32_position_error d],
    as the one the primitive computes in [float32], is still clamped and
    rounded to [k]. *)
Lemma nearest_identity_index_stable d k (err : Qc) :
  (2 ≤ d ≤ 2048)%nat → (k < d)%nat →
  - float32_position_error d ≤ err → err ≤ float32_position_error d →
  nearbyint
    (clip_coordinates
       (unnormalize (2 * centred d k / (Qc_of_nat d - 1)) d + err) d)
  = Z.of_nat k.
Proof.
  intros [Hd Hd'] Hk Hlo Hhi. rewrite unnormalize_identity by done.
  unfold clip_coordinates, Qc_max, Qc_min.
  assert (inject_Z (Z.of_nat 0) == 0)%Q as H0 by reflexivity.
  assert (0 <= inject_Z (Z.of_nat k))%Q as HK0.
  { rewrite <- H0, <- Zle_Qle. lia. }
  assert (inject_Z (Z.of_nat k) + 1 <= inject_Z (Z.of_nat d))%Q as HKD.
  { change 1%Q with (inject_Z 1). rewrite <- inject_Z_plus, <- Zle_Qle. lia. }
  assert (2 <= inject_Z (Z.of_nat d))%Q as HD2.
  { change 2%Q with (inject_Z 2). rewrite <- Zle_Qle. lia. }
  assert (inject_Z (Z.of_nat d) <= 2048)%Q as HD3.
  { change 2048%Q with (inject_Z 2048). rewrite <- Zle_Qle. lia. }
  assert (- (1 # 2048) <= this err ∧ this err <= 1 # 2048)%Q as [He0 He1].
  { unfold Qcle, float32_position_error in Hlo, Hhi.
    rewrite this_opp in Hlo. to_Q_in Hlo. to_Q_in Hhi.
    rewrite this_of_Z in Hlo, Hhi.
    assert (inject_Z (Z.of_nat d) / inject_Z (2 ^ 22) <= 1 # 2048)%Q as Hm.
    { apply Qle_shift_div_r; [reflexivity|].
      change (inject_Z (2 ^ 22)) with 4194304%Q. lra. }
    split; lra. }
  destruct (decide (k = 0%nat)) as [->|Hk0].
  { replace (Qc_of_nat 0 / (Qc_of_nat d - 1)) with 0
      by (apply Qc_is_canon; to_Q; reflexivity).
    rewrite (Qc_ltb_true _ 0) by (unfold Qclt; to_Q; lra).
    rewrite (Qc_ltb_true 0) by (unfold Qclt; to_Q; lra).
    apply (nearbyint_of_Z 0). }
  destruct (decide (S k = d)) as [<-|Hkd].
  { replace (Qc_of_nat (S k) - 1) with (Qc_of_nat k)
      by (rewrite Qc_of_nat_S; ring).
    assert (Qc_of_nat k ≠ 0) as Hne.
    { intros Heq. apply (f_equal this) in Heq. revert Heq. to_Q.
      intros Heq. unfold inject_Z in Heq. injection Heq. lia. }
    replace (Qc_of_nat k / Qc_of_nat k) with 1 by (field; exact Hne).
    rewrite (Qc_ltb_false _ 0) by (unfold Qclt; to_Q; lra).
    rewrite Qc_ltb_false by (unfold Qclt; to_Q; lra).
    apply nearbyint_of_Z. }
  assert (1 <= inject_Z (Z.of_nat k))%Q as HK1.
  { change 1%Q with (inject_Z 1). rewrite <- Zle_Qle. lia. }
  assert (inject_Z (Z.of_nat k) + 2 <= inject_Z (Z.of_nat d))%Q as HKD2.
  { change 2%Q with (inject_Z 2). rewrite <- inject_Z_plus, <- Zle_Qle. lia. }
  set (delta := Qc_of_nat k / (Qc_of_nat d - 1)).
  assert ((1 # 2047) <= this delta ∧ this delta <= 1 - (1 # 2047))%Q
    as [Hd0 Hd1].
  { unfold delta. to_Q. split.
    - apply Qle_shift_div_l; lra.
    - apply Qle_shift_div_r; lra. }
  rewrite (Qc_ltb_false _ 0) by (unfold Qclt; to_Q; lra).
  rewrite Qc_ltb_true by (unfold Qclt; to_Q; lra).
  apply nearbyint_spec; unfold Qclt; to_Q;
    change (this (Qc_of_Z (Z.of_nat k))) with (inject_Z (Z.of_nat k)); lra.
Qed.

(** ** The identity grid under [nearest] interpolation and [border] padding *)

(** The normalised coordinate of index [k] on an axis of [d] pixels. *)
Lemma identity_row_normalised d (f : list nat → nat) (pos : list (list nat)) :
  (2 ≤ d)%nat →
  zip_with ndiv (normalise_row d (map (λ idx, Fin (centred d (f idx))) pos))
           (map (λ _, Fin 1) pos)
  = map (λ idx, Fin (2 * centred d (f idx) / (Qc_of_nat d - 1))) pos.
Proof.
  intros Hd. pose proof (Qc_of_nat_minus_1_nonzero d Hd) as Hne.
  induction pos as [|idx pos IH]; [done|].
  simpl. simpl in IH. rewrite IH. f_equal.
  unfold Qc_eqb. rewrite bool_decide_eq_false_2 by done. simpl.
  f_equal. field. split; [exact Hne | done].
Qed.

Lemma mapM_lookup_reverse {A} (l : list A) :
  mapM (λ i, l !! i) (reverse (seq 0 (length l))) = Some (reverse l).
Proof.
  apply mapM_Some_2, Forall2_lookup. intros i.
  destruct (decide (i < length l)%nat) as [Hi|Hi].
  - rewrite !reverse_lookup by (rewrite ?length_seq; lia).
    rewrite length_seq, lookup_seq_lt by lia.
    destruct (lookup_lt_is_Some_2 l (length l - S i)) as [x Hx]; [lia|].
    rewrite Hx. by constructor.
  - rewrite !lookup_ge_None_2
      by (rewrite length_reverse, ?length_seq; lia).
    constructor.
Qed.

(** The points the identity grid of an image of shape [ds] is turned into:
    at output position [p], the normalised coordinates of [p], fastest axis
    first. *)
Lemma identity_sampling_points img ds c j p :
  spatial img = ds →
  Forall (λ d, 2 ≤ d)%nat ds →
  sampling_grid img (create_grid ds) = Ok c →
  positions ds !! j = Some p →
  points c !! j
  = Some (reverse (zip_with (λ k d, Fin (2 * centred d k / (Qc_of_nat d - 1)))
                            p ds)).
Proof.
  intros Hsp Hds Hc Hp. unfold sampling_grid, normalised in Hc.
  rewrite Hsp, create_grid_rows_length in Hc.
  rewrite bool_decide_eq_true_2 in Hc by lia. simpl in Hc.
  set (g1 := mkTensor ds (normalised_from 0 ds (rows (create_grid ds)))) in Hc.
  assert (length (rows g1) = length ds + 1)%nat as Hlen1.
  { subst g1. cbn [rows].
    by rewrite normalised_from_length, create_grid_rows_length. }
  assert (rows g1 !! (length (rows g1) - 1)%nat
          = Some (map (λ _, Fin 1) (positions ds))) as Hlast.
  { rewrite Hlen1. replace (length ds + 1 - 1)%nat with (0 + length ds)%nat by lia.
    subst g1. cbn [rows]. rewrite normalised_from_lookup.
    rewrite (lookup_ge_None_2 ds) by lia. apply create_grid_last_row. }
  assert (∀ i d, ds !! i = Some d →
            rows (hom_divide g1) !! i
            = Some (map (λ idx, Fin (2 * centred d (nth i idx 0%nat)
                                       / (Qc_of_nat d - 1)))
                        (positions ds))) as Hrow.
  { intros i d Hi. pose proof (lookup_lt_Some _ _ _ Hi) as Hlt.
    rewrite (hom_divide_lookup _ _ _ Hlast) by lia.
    subst g1. cbn [rows]. change i with (0 + i)%nat at 1.
    rewrite normalised_from_lookup, Hi. change (0 + i)%nat with i.
    rewrite (create_grid_row _ _ _ Hi). cbn [fmap option_fmap option_map].
    f_equal.
    apply (identity_row_normalised d (λ idx, nth i idx 0%nat)).
    rewrite Forall_forall in Hds. apply Hds.
    apply list_elem_of_In. by eapply list_elem_of_lookup_2. }
  assert (length (rows (hom_divide g1)) = length ds) as HlenH.
  { rewrite hom_divide_length. lia. }
  unfold index_rows in Hc. rewrite <- HlenH, mapM_lookup_reverse in Hc.
  simpl in Hc. injection Hc as <-. unfold permute. simpl.
  rewrite hom_divide_spatial. simpl.
  pose proof (lookup_lt_Some _ _ _ Hp) as Hj. rewrite positions_length in Hj.
  rewrite list_lookup_fmap, lookup_seq_lt by done. simpl. f_equal.
  rewrite (fmap_reverse (λ r : list num, default NaN (r !! j))). f_equal.
  apply positions_lookup_inv in Hp as Hr. destruct Hr as [Hr _].
  pose proof (Forall2_length Hr) as Hlp.
  apply list_eq. intros i. rewrite list_lookup_fmap, lookup_zip_with.
  destruct (ds !! i) as [d|] eqn:Hi.
  - rewrite (Hrow _ _ Hi). simpl. rewrite list_lookup_fmap, Hp. simpl.
    pose proof (lookup_lt_Some _ _ _ Hi) as Hlt.
    destruct (lookup_lt_is_Some_2 p i) as [k Hk]; [lia|].
    rewrite Hk. simpl. by rewrite (nth_lookup_Some _ _ _ _ Hk).
  - apply lookup_ge_None_1 in Hi.
    rewrite (lookup_ge_None_2 (rows _)) by lia. simpl.
    by destruct (p !! i).
Qed.

Lemma finite_point_fin {A B} (f : A → B → Qc) (l : list A) (k : list B) :
  finite_point (zip_with (λ a b, Fin (f a b)) l k) = Some (zip_with f l k).
Proof.
  unfold finite_point. revert k.
  induction l as [|a l IH]; intros [|b k]; try done.
  simpl. by rewrite IH.
Qed.

Lemma nearest_identity_indices ds p :
  Forall (λ d, 2 ≤ d)%nat ds → in_range ds p →
  zip_with (λ x d, nearbyint (compute_coordinates border (unnormalize x d) d))
           (zip_with (λ k d, 2 * centred d k / (Qc_of_nat d - 1)) p ds) ds
  = map Z.of_nat p.
Proof.
  intros Hds Hr. revert Hds.
  induction Hr as [|k d p ds Hk _ IH]; intros Hds; [done|].
  inversion Hds as [|? ? Hd Hds']; subst. cbn [zip_with map].
  rewrite IH by done. f_equal. by apply nearest_identity_index.
Qed.

(** Sampling one channel at the points of the identity grid, nearest pixel
    and clamped coordinates, reads the channel back. *)
Lemma identity_channel k img ds c (chan : list num) :
  spatial img = ds →
  Forall (λ d, 2 ≤ d)%nat ds →
  sampling_grid img (create_grid ds) = Ok c →
  length (points c) = numel ds →
  length chan = numel ds →
  map (sample_point k nearest border ds chan) (points c) = chan.
Proof.
  intros Hsp Hds Hc Hlen Hchan. apply list_eq. intros j.
  rewrite list_lookup_fmap.
  destruct (positions ds !! j) as [p|] eqn:Hp.
  - rewrite (identity_sampling_points _ _ _ _ _ Hsp Hds Hc Hp). simpl.
    apply positions_lookup_inv in Hp as [Hr Hj].
    erewrite sample_point_nearest
      by (rewrite reverse_involutive; apply finite_point_fin).
    rewrite nearest_identity_indices by done.
    destruct (pixel_in_range ds chan p Hr Hchan) as (v & Hv & ->).
    by rewrite <- Hj.
  - apply lookup_ge_None_1 in Hp. rewrite positions_length in Hp.
    by rewrite !lookup_ge_None_2 by lia.
Qed.

(** Resampling on a grid that holds the identity grid of the image's own
    spatial shape, nearest pixel and clamped coordinates. *)
Lemma identity_round_trip self img grid :
  let ds := spatial (data img) in
  data grid = create_grid ds →
  rs_padding_mode self = border →
  length ds = 2%nat ∨ length ds = 3%nat →
  Forall (λ d, 2 ≤ d)%nat ds →
  wf_tensor (data img) = true →
  placed self img = placed self grid →
  Resample_apply self img grid nearest
  = Ok (if rs_as_tensor_output self then Tensor (data img) (placed self img)
        else NdArray (data img)).
Proof.
  intros ds Hg Hpad HD Hds Hwf Hdev.
  destruct (Resample_apply_explicit self img grid nearest)
    as (c & Hc & _ & Hlen & ->); try done.
  - by rewrite Hg.
  - rewrite Hg, create_grid_rows_length. fold ds. lia.
  - eapply Forall_impl; [|exact Hds]. intros d Hd. simpl in Hd. lia.
  - rewrite Hg in Hc, Hlen. rewrite create_grid_spatial in Hlen.
    fold ds in Hc. rewrite Hpad, Hg, create_grid_spatial. fold ds.
    set (k := kernel_of (placed self img) (length ds)).
    assert (map (λ chan, map (sample_point k nearest border ds chan) (points c))
                (rows (data img)) = rows (data img)) as Hrows.
    { unfold wf_tensor in Hwf. fold ds in Hwf.
      rewrite forallb_forall in Hwf.
      rewrite <- (map_id (rows (data img))) at 2.
      apply map_ext_in. intros chan Hchan.
      apply (identity_channel k (data img) ds c); try done.
      apply Nat.eqb_eq. by apply Hwf. }
    cbv zeta. rewrite Hrows. subst ds. by destruct (data img).
Qed.

(** X9.  [Resample.__call__], identity round trip.  With
    [padding_mode='border'] and [mode='nearest'], resampling an image with
    two or three spatial axes, each of at least two and at most 2048 pixels,
    on the identity grid of its own spatial shape returns the image
    unchanged: every output pixel is read [k / (d - 1) - 1/2] pixels off
    its own centre along each axis, which rounds back to [k] once the two
    outermost positions are clamped to the image.  The bound on the axis
    sizes keeps the statement within the range where the [float32]
    evaluation of the positions rounds to the same pixels
    ([nearest_identity_index_stable]); on longer axes the margin
    [1 / (d - 1)] gets as small as the rounding error and the program can
    read a neighbouring pixel. *)
Theorem Resample_identity_nearest_border self img :
  let ds := spatial (data img) in
  rs_padding_mode self = border →
  length ds = 2%nat ∨ length ds = 3%nat →
  Forall (λ d, 2 ≤ d ≤ 2048)%nat ds →
  wf_tensor (data img) = true →
  placed self img = placed self (NdArray (create_grid ds)) →
  Resample_apply self img (NdArray (create_grid ds)) nearest
  = Ok (if rs_as_tensor_output self then Tensor (data img) (placed self img)
        else NdArray (data img)).
Proof.
  intros ds Hpad HD Hds Hwf Hdev. apply identity_round_trip; try done.
  eapply Forall_impl; [|exact Hds]. intros d Hd. simpl in Hd. lia.
Qed.

(** X9 at the (1,3,3) image. *)
Lemma Resample_identity_nearest_border_witness :
  Resample_apply (mkResample border false None) img33
    (NdArray (create_grid [3;3]%nat)) nearest
  = Ok img33.
Proof.
  apply (Resample_identity_nearest_border (mkResample border false None) img33).
  - reflexivity.
  - left. reflexivity.
  - simpl. repeat constructor; lia.
  - reflexivity.
  - reflexivity.
Defined.

(** ** Transforms without parameters *)

(** Without truthy parameter group the matrix is the identity, and a
    supplied homogeneous grid with finite entries, at least one of them,
    comes back as it is. *)
Lemma AffineGrid_falsy_on_grid
    (create_rotate create_shear create_translate create_scale : nat → params → matrix)
    (self : AffineGrid) (spatial_size : option (list nat)) (g : array) :
  truthy (ag_rotate_params self) = false →
  truthy (ag_shear_params self) = false →
  truthy (ag_translate_params self) = false →
  truthy (ag_scale_params self) = false →
  length (rows (data g)) = (length (spatial (data g)) + 1)%nat →
  numel (spatial (data g)) ≠ 0%nat →
  wf_tensor (data g) = true →
  Forall (Forall (λ x, is_finite x = true)) (rows (data g)) →
  default cpu (ag_device self) = default (device_of g) (ag_device self) →
  AffineGrid_call create_rotate create_shear create_translate create_scale
      self spatial_size (Some g)
    = Ok (if ag_as_tensor_output self
          then Tensor (data g) (default (device_of g) (ag_device self))
          else NdArray (data g)).
Proof.
  intros Hr Hsh Ht Hsc Hn Hne Hwf Hfin Hdev. unfold AffineGrid_call, affine_matrix.
  simpl. rewrite Hr, Hsh, Ht, Hsc. rewrite bool_decide_eq_true_2 by done.
  replace (length (spatial (data g)) - 0 + 1)%nat
    with (length (rows (data g))) by lia.
  rewrite apply_affine_eye; [|rewrite Hn; lia|done|done]. simpl.
  by destruct (ag_as_tensor_output self).
Qed.

Lemma numel_nonzero ds : Forall (λ d, 1 ≤ d)%nat ds → numel ds ≠ 0%nat.
Proof.
  induction 1 as [|d ds Hd _ IH]; simpl; [done|]. nia.
Qed.

Lemma create_grid_all_finite ds :
  Forall (Forall (λ x, is_finite x = true)) (rows (create_grid ds)).
Proof.
  apply Forall_forall. intros r Hr. apply Forall_forall. intros x Hx.
  apply (create_grid_finite ds r x); by apply list_elem_of_In.
Qed.

(** X10.  [Affine] constructed without truthy parameters, with
    [padding_mode='border'], called with [mode='nearest'] and the image's
    own spatial size, returns the image unchanged (two or three spatial
    axes, each of at least two and at most 2048 pixels; the image on the
    CPU or a device given): the grid it builds is the identity grid and the
    resampler reads every pixel back.  The bound on the axis sizes is the
    one of the identity round trip: within it the [float32] evaluation of
    the positions rounds to the same pixels. *)
Theorem Affine_without_parameters_identity
    (create_rotate create_shear create_translate create_scale : nat → params → matrix)
    (rotate_params shear_params translate_params scale_params : params)
    (as_tensor_output : bool) (dev : option device) (img : array) :
  let ds := spatial (data img) in
  truthy rotate_params = false →
  truthy shear_params = false →
  truthy translate_params = false →
  truthy scale_params = false →
  length ds = 2%nat ∨ length ds = 3%nat →
  Forall (λ d, 2 ≤ d ≤ 2048)%nat ds →
  wf_tensor (data img) = true →
  default (device_of img) dev = default cpu dev →
  Affine_call create_rotate create_shear create_translate create_scale
      (Affine_init rotate_params shear_params translate_params scale_params
         border as_tensor_output dev)
      img ds nearest
    = Ok (if as_tensor_output then Tensor (data img) (default cpu dev)
          else NdArray (data img)).
Proof.
  intros ds Hr Hsh Ht Hsc HD Hds' Hwf Hdev.
  assert (Forall (λ d, 2 ≤ d)%nat ds) as Hds.
  { eapply Forall_impl; [|exact Hds']. intros d Hd. simpl in Hd. lia. }
  unfold Affine_call, Affine_init.
  cbn [af_affine_grid af_resampler].
  change (AffineGrid_call create_rotate create_shear create_translate
            create_scale ?s (Some ds) None)
    with (AffineGrid_call create_rotate create_shear create_translate
            create_scale s (Some ds) (Some (NdArray (create_grid ds)))).
  rewrite AffineGrid_falsy_on_grid;
    [|done|done|done|done|apply create_grid_rows_length| |apply create_grid_wf
     |apply create_grid_all_finite|done];
    [|apply numel_nonzero; eapply Forall_impl; [|exact Hds];
      intros d Hd; simpl in Hd; lia].
  cbn [rbind ag_as_tensor_output ag_device data device_of].
  rewrite identity_round_trip; try done.
  - unfold placed. cbn [rs_device rs_as_tensor_output]. by rewrite Hdev.
  - unfold placed. cbn [rs_device device_of]. rewrite Hdev.
    by destruct dev.
Qed.

(** X10 at [Affine(rotate_params=0, padding_mode='border')] and the (1,3,3)
    image. *)
Lemma Affine_without_parameters_identity_witness :
  Affine_call not_invoked not_invoked not_invoked not_invoked
      (Affine_init (PScalar 0) PNone PNone PNone border false None)
      img33 [3;3]%nat nearest
    = Ok img33.
Proof.
  apply (Affine_without_parameters_identity not_invoked not_invoked
           not_invoked not_invoked (PScalar 0) PNone PNone PNone false None
           img33).
  - reflexivity.
  - reflexivity.
  - reflexivity.
  - reflexivity.
  - left. reflexivity.
  - simpl. repeat constructor; lia.
  - reflexivity.
  - reflexivity.
Defined.

(** ** Range groups without bounds *)

Lemma axis_bounds_all_None (range : list (option Qc)) :
  Forall (λ e, e = None) range → axis_bounds range = [].
Proof.
  intros H. unfold axis_bounds. induction H as [|e range -> _ IH]; [done|].
  simpl. exact IH.
Qed.

(** A group whose range has no bound draws nothing and stays falsy. *)
Lemma sample_group_all_None post range old R :
  Forall (λ e, e = None) range → truthy old = false →
  ∃ p, sample_group post range old R = (p, R) ∧ truthy p = false.
Proof.
  intros Hrange Hold. rewrite sample_group_spec.
  rewrite (axis_bounds_all_None _ Hrange). unfold uniform_draws. simpl.
  rewrite app_nil_r, Nat.add_0_r.
  exists (match range with [] => old | _ :: _ => PSeq [] end). split.
  - by destruct R.
  - by destruct range.
Qed.

(** X11.  [RandAffineGrid] whose four ranges hold no bound (only [None]
    entries, as the constructor's defaults) and whose stored parameters are
    falsy (as after construction): a call with a spatial size draws nothing
    from the source and leaves the stored parameters falsy, so the same
    holds at every later call; it returns the identity grid of the
    Coordinate Grid Builder when no entry of the spatial size is 0, and
    raises the [RuntimeError] of [AffineGrid]'s last reshape when some entry
    is 0. *)
Theorem RandAffineGrid_without_bounds
    (create_rotate create_shear create_translate create_scale : nat → params → matrix)
    (self : RandAffineGrid) (spatial_size : list nat) :
  Forall (λ e, e = None) (rag_rotate_range self) →
  Forall (λ e, e = None) (rag_shear_range self) →
  Forall (λ e, e = None) (rag_translate_range self) →
  Forall (λ e, e = None) (rag_scale_range self) →
  truthy (rag_rotate_params self) = false →
  truthy (rag_shear_params self) = false →
  truthy (rag_translate_params self) = false →
  truthy (rag_scale_params self) = false →
  let out :=
    RandAffineGrid_call create_rotate create_shear create_translate
      create_scale self (Some spatial_size) None in
  rag_R out.1 = rag_R self
  ∧ out.2 = (if Nat.eqb (numel spatial_size) 0 then Raise RuntimeError
             else Ok (if rag_as_tensor_output self
                      then Tensor (create_grid spatial_size)
                                  (default cpu (rag_device self))
                      else NdArray (create_grid spatial_size)))
  ∧ truthy (rag_rotate_params out.1) = false
  ∧ truthy (rag_shear_params out.1) = false
  ∧ truthy (rag_translate_params out.1) = false
  ∧ truthy (rag_scale_params out.1) = false
  ∧ rag_rotate_range out.1 = rag_rotate_range self
  ∧ rag_shear_range out.1 = rag_shear_range self
  ∧ rag_translate_range out.1 = rag_translate_range self
  ∧ rag_scale_range out.1 = rag_scale_range self.
Proof.
  intros Hr Hsh Ht Hsc Pr Psh Pt Psc out. subst out.
  unfold RandAffineGrid_call, RandAffineGrid_randomize.
  destruct (sample_group_all_None (λ v, v) _ _ (rag_R self) Hr Pr)
    as (p1 & -> & F1).
  destruct (sample_group_all_None (λ v, v) _ _ (rag_R self) Hsh Psh)
    as (p2 & -> & F2).
  destruct (sample_group_all_None (λ v, v) _ _ (rag_R self) Ht Pt)
    as (p3 & -> & F3).
  destruct (sample_group_all_None (λ v, v + 1) _ _ (rag_R self) Hsc Psc)
    as (p4 & -> & F4).
  cbn [fst snd rag_R rag_rotate_params rag_shear_params rag_translate_params
       rag_scale_params rag_as_tensor_output rag_device rag_rotate_range
       rag_shear_range rag_translate_range rag_scale_range].
  split; [done|]. split; [|done].
  by rewrite AffineGrid_falsy_on_size.
Qed.

(** X11 at [RandAffineGrid()] and the spatial sizes (2,3) and (0,2). *)
Lemma RandAffineGrid_without_bounds_witness :
  (let out :=
     RandAffineGrid_call not_invoked not_invoked not_invoked not_invoked
       (RandAffineGrid_init [None] [None] [None] [None] false None
          constant_source)
       (Some [2;3]%nat) None in
   rag_R out.1 = constant_source
   ∧ out.2 = Ok (NdArray (create_grid [2;3]%nat)))
  ∧ (let out :=
       RandAffineGrid_call not_invoked not_invoked not_invoked not_invoked
         (RandAffineGrid_init [None] [None] [None] [None] false None
            constant_source)
         (Some [0;2]%nat) None in
     rag_R out.1 = constant_source
     ∧ out.2 = Raise RuntimeError).
Proof.
  split.
  - destruct (RandAffineGrid_without_bounds not_invoked not_invoked not_invoked
                not_invoked
                (RandAffineGrid_init [None] [None] [None] [None] false None
                   constant_source)
                [2;3]%nat) as (HR & Hout & _); try reflexivity.
    + repeat constructor.
    + repeat constructor.
    + repeat constructor.
    + repeat constructor.
    + split; [exact HR | exact Hout].
  - destruct (RandAffineGrid_without_bounds not_invoked not_invoked not_invoked
                not_invoked
                (RandAffineGrid_init [None] [None] [None] [None] false None
                   constant_source)
                [0;2]%nat) as (HR & Hout & _); try reflexivity.
    + repeat constructor.
    + repeat constructor.
    + repeat constructor.
    + repeat constructor.
    + split; [exact HR | exact Hout].
Defined.

(** ** Draws of the orchestrating transforms *)

(** The draws of one [RandAffineGrid.randomize]: one uniform draw per bound,
    the groups in the order rotate, shear, translate, scale. *)
Lemma RandAffineGrid_randomize_source (self : RandAffineGrid) :
  let fs := axis_bounds (rag_rotate_range self)
            ++ axis_bounds (rag_shear_range self)
            ++ axis_bounds (rag_translate_range self)
            ++ axis_bounds (rag_scale_range self) in
  rag_R (RandAffineGrid_randomize self)
  = mkRandomState (unit_samples (rag_R self)) (normal_samples (rag_R self))
      (cursor (rag_R self) + length fs)
      (drawn (rag_R self) ++ uniform_draws fs).
Proof.
  intros fs. subst fs. unfold RandAffineGrid_randomize.
  rewrite !sample_group_spec. cbn [rag_R unit_samples normal_samples cursor drawn].
  unfold uniform_draws. rewrite !length_app, !map_app, <- !app_assoc.
  f_equal. lia.
Qed.

(** X12.  The draws of one call of [RandAffine].  The transform's own
    source gives exactly one value, the decision [rand()], whatever the
    branch.  The source of the nested grid sampler is used only when the
    decision is true, and then for one [uniform(-f, f)] per bound [f] that
    is not [None], the groups in the order rotate, shear, translate, scale;
    when the decision is false the nested sampler is left as it was. *)
Theorem RandAffine_call_draws
    (create_rotate create_shear create_translate create_scale : nat → params → matrix)
    (self : RandAffine) (img : array) (spatial_size : list nat)
    (mode : interp_mode) :
  let R := ra_R self in
  let G := ra_rand_affine_grid self in
  let do := Qc_ltb (unit_samples R (cursor R)) (ra_prob self) in
  let fs := axis_bounds (rag_rotate_range G) ++ axis_bounds (rag_shear_range G)
            ++ axis_bounds (rag_translate_range G)
            ++ axis_bounds (rag_scale_range G) in
  let self' :=
    (RandAffine_call create_rotate create_shear create_translate create_scale
       self img spatial_size mode).1 in
  ra_R self' = advance R 1 DRand
  ∧ ra_do_transform self' = do
  ∧ drawn (rag_R (ra_rand_affine_grid self'))
    = drawn (rag_R G) ++ (if do then uniform_draws fs else [])
  ∧ cursor (rag_R (ra_rand_affine_grid self'))
    = (cursor (rag_R G) + (if do then length fs else 0))%nat
  ∧ ra_rand_affine_grid self' = (if do then RandAffineGrid_randomize G else G).
Proof.
  intros R G do fs self'. subst self'.
  unfold RandAffine_call, RandAffine_randomize, R_rand.
  cbn [ra_do_transform ra_rand_affine_grid ra_resampler ra_prob ra_R].
  fold R G do. destruct do eqn:Hdo.
  - unfold RandAffineGrid_call. cbn [fst snd ra_R ra_do_transform ra_rand_affine_grid].
    rewrite RandAffineGrid_randomize_source. fold fs. done.
  - cbn [fst snd ra_R ra_do_transform ra_rand_affine_grid].
    by rewrite app_nil_r, Nat.add_0_r.
Qed.

(** ** The offset loop of [Rand3DElastic] *)

(** The loop runs out of rows on a grid with fewer rows than rounds. *)
Lemma add_smoothed_offsets_short
    (gaussian_filter : list nat → list Qc → Qc → list Qc)
    (self : Rand3DElastic) offset g i n :
  (i ≤ length (rows g))%nat → (length (rows g) < i + n)%nat →
  add_smoothed_offsets gaussian_filter self offset g i n = Raise IndexError.
Proof.
  revert g i. induction n as [|n IH]; intros g i Hi Hn; [lia|].
  simpl. destruct (offset !! i) as [o|]; [|done].
  destruct (rows g !! i) as [r|] eqn:Hr; [|done].
  apply lookup_lt_Some in Hr.
  apply IH; simpl; rewrite length_insert; lia.
Qed.

(** X13.  [Rand3DElastic] needs at least two spatial axes: called with a
    spatial size of fewer axes, every call whose decision draw is below
    [prob] raises [IndexError] in the offset loop ([grid[i]] for [i] up to
    2 on a grid with at most two rows), whatever the image. *)
Theorem Rand3DElastic_needs_two_axes
    (create_rotate create_shear create_translate create_scale : nat → params → matrix)
    (gaussian_filter : list nat → list Qc → Qc → list Qc)
    (self : Rand3DElastic) (img : array) (spatial_size : list nat)
    (mode : interp_mode) :
  (length spatial_size < 2)%nat →
  unit_samples (r3_R self) (cursor (r3_R self)) < r3_prob self →
  (Rand3DElastic_call create_rotate create_shear create_translate
     create_scale gaussian_filter self img spatial_size mode).2
  = Raise IndexError.
Proof.
  intros Hlen Hdo. unfold Rand3DElastic_call, Rand3DElastic_randomize, R_rand.
  assert (Qc_ltb (unit_samples (r3_R self) (cursor (r3_R self))) (r3_prob self)
          = true) as -> by (by apply bool_decide_eq_true_2).
  cbn [r3_do_transform r3_rand_offset R_uniform_array R_uniform fst snd].
  rewrite add_smoothed_offsets_short; [done| lia |].
  rewrite create_grid_rows_length. lia.
Qed.

(** X13 at the spatial size (4,), [prob = 1] and a source whose unit
    samples are 3/4. *)
Lemma Rand3DElastic_needs_two_axes_witness :
  (Rand3DElastic_call not_invoked not_invoked not_invoked not_invoked
     (λ _ o _, o)
     (Rand3DElastic_init (1, 1) (1, 1) 1 [None] [None] [None] [None] zeros
        false None constant_source constant_source)
     img22 [4]%nat bilinear).2
  = Raise IndexError.
Proof.
  apply (Rand3DElastic_needs_two_axes not_invoked not_invoked not_invoked
           not_invoked (λ _ o _, o)
           (Rand3DElastic_init (1, 1) (1, 1) 1 [None] [None] [None] [None]
              zeros false None constant_source constant_source)
           img22 [4]%nat bilinear).
  - simpl. lia.
  - reflexivity.
Defined.

Lemma add_smoothed_offsets_rows
    (gaussian_filter : list nat → list Qc → Qc → list Qc)
    (self : Rand3DElastic) offset g i n :
  (i + n ≤ length offset)%nat → (i + n ≤ length (rows g))%nat →
  ∃ g',
    add_smoothed_offsets gaussian_filter self offset g i n = Ok g'
    ∧ spatial g' = spatial g
    ∧ length (rows g') = length (rows g)
    ∧ (∀ j, (j < i ∨ i + n ≤ j)%nat → rows g' !! j = rows g !! j)
    ∧ (∀ j r o, (i ≤ j < i + n)%nat →
         rows g !! j = Some r → offset !! j = Some o →
         rows g' !! j
         = Some (zip_with (λ x y, nadd x (Fin (y * r3_magnitude self))) r
                   (gaussian_filter (spatial g) o (r3_sigma self)))).
Proof.
  revert g i. induction n as [|n IH]; intros g i Ho Hg.
  - exists g. simpl. repeat split; try done. intros j r o Hj. lia.
  - simpl.
    destruct (lookup_lt_is_Some_2 offset i) as [o Hoi]; [lia|].
    destruct (lookup_lt_is_Some_2 (rows g) i) as [r Hri]; [lia|].
    rewrite Hoi, Hri.
    set (r' := zip_with _ r _).
    destruct (IH (mkTensor (spatial g) (<[i := r']> (rows g))) (S i))
      as (g' & -> & Hsp & Hlen & Hout & Hin).
    { lia. }
    { simpl. rewrite length_insert. lia. }
    simpl in Hsp, Hlen, Hout, Hin. rewrite length_insert in Hlen.
    exists g'. split; [done|]. split; [done|]. split; [done|]. split.
    + intros j Hj. rewrite Hout by lia.
      apply list_lookup_insert_ne. lia.
    + intros j rj oj Hj Hrj Hoj. destruct (decide (j = i)) as [->|Hne].
      * rewrite Hout by lia. rewrite list_lookup_insert_eq by lia.
        rewrite Hri in Hrj. rewrite Hoi in Hoj.
        injection Hrj as <-. injection Hoj as <-. done.
      * apply Hin; [lia| |done].
        by rewrite list_lookup_insert_ne by lia.
Qed.

(** X14.  The offset loop of [Rand3DElastic.__call__] on a grid with at
    least three rows and an offset field of three rows: the first three
    rows of the grid gain the smoothed offsets times the magnitude, every
    other row and the shape are kept.  For a grid of three spatial axes the
    row left alone is the homogeneous one; for a grid of two spatial axes
    the third row written is the homogeneous row itself. *)
Theorem Rand3DElastic_offset_rows
    (gaussian_filter : list nat → list Qc → Qc → list Qc)
    (self : Rand3DElastic) (offset : list (list Qc)) (g : tensor) :
  length offset = 3%nat → (3 ≤ length (rows g))%nat →
  ∃ g',
    add_smoothed_offsets gaussian_filter self offset g 0 3 = Ok g'
    ∧ spatial g' = spatial g
    ∧ length (rows g') = length (rows g)
    ∧ (∀ j, (3 ≤ j)%nat → rows g' !! j = rows g !! j)
    ∧ (∀ j r o, (j < 3)%nat →
         rows g !! j = Some r → offset !! j = Some o →
         rows g' !! j
         = Some (zip_with (λ x y, nadd x (Fin (y * r3_magnitude self))) r
                   (gaussian_filter (spatial g) o (r3_sigma self)))).
Proof.
  intros Ho Hg.
  destruct (add_smoothed_offsets_rows gaussian_filter self offset g 0 3)
    as (g' & Hres & Hsp & Hlen & Hout & Hin); [simpl; lia | simpl; lia |].
  exists g'. split; [done|]. split; [done|]. split; [done|]. split.
  - intros j Hj. apply Hout. lia.
  - intros j r o Hj. apply Hin. lia.
Qed.

(** X14 on the identity grid of size (2,2), whose third row is the
    homogeneous one: with the offsets [1] left as they are by the filter
    and the magnitude 1, the homogeneous row becomes [2]. *)
Lemma Rand3DElastic_offset_rows_witness :
  ∃ g',
    add_smoothed_offsets (λ _ o _, o)
      (Rand3DElastic_init (1, 1) (1, 1) 1 [None] [None] [None] [None] zeros
         false None constant_source constant_source)
      (replicate 3 (replicate 4 1)) (create_grid [2;2]%nat) 0 3 = Ok g'
    ∧ rows g' !! 2%nat = Some (replicate 4 (qz 2)).
Proof.
  destruct (Rand3DElastic_offset_rows (λ _ o _, o)
              (Rand3DElastic_init (1, 1) (1, 1) 1 [None] [None] [None] [None]
                 zeros false None constant_source constant_source)
              (replicate 3 (replicate 4 1)) (create_grid [2;2]%nat))
    as (g' & Hres & _ & _ & _ & Hin); [reflexivity | simpl; lia |].
  exists g'. split; [exact Hres|].
  rewrite (Hin 2%nat (replicate 4 (Fin 1)) (replicate 4 1));
    [|lia|reflexivity|reflexivity].
  f_equal. apply (bool_decide_unpack _). vm_compute. exact I.
Defined.

(** The draws of one [RandDeformGrid.__call__]: the offset field, then the
    magnitude. *)
Lemma RandDeformGrid_call_source
    (create_control_grid : list nat → list nat → tensor)
    (self : RandDeformGrid) (spatial_size : list nat) :
  let control :=
    spatial (create_control_grid spatial_size (rdg_spacing self)) in
  rdg_R (RandDeformGrid_call create_control_grid self spatial_size).1
  = advance
      (advance (rdg_R self) (numel (length control :: control))
         (DNormal (length control :: control)))
      1 (DUniform (rdg_magnitude self).1 (rdg_magnitude self).2 []).
Proof. done. Qed.

(** X15.  The draws of one call of [Rand2DElastic].  The transform's own
    source gives exactly one value, the decision [rand()].  When the
    decision is true the deformation sampler draws a standard-normal field
    of shape [(D', *control)] for a control grid of spatial shape [control]
    with [D'] axes, then one magnitude [uniform(magnitude_range)], and the
    affine sampler draws one [uniform(-f, f)] per bound in the order rotate,
    shear, translate, scale, unless the perturbation of the control grid
    failed; when the decision is false neither nested sampler is used. *)
Theorem Rand2DElastic_call_draws
    (create_rotate create_shear create_translate create_scale : nat → params → matrix)
    (create_control_grid : list nat → list nat → tensor)
    (interpolate_bicubic : tensor → list nat → tensor)
    (self : Rand2DElastic) (img : array) (spatial_size : list nat)
    (mode : interp_mode) :
  let R := r2_R self in
  let D := r2_deform_grid self in
  let G := r2_rand_affine_grid self in
  let do := Qc_ltb (unit_samples R (cursor R)) (r2_prob self) in
  let control :=
    spatial (create_control_grid spatial_size (rdg_spacing D)) in
  let deformed := RandDeformGrid_call create_control_grid D spatial_size in
  let sampled :=
    do && match deformed.2 with Ok _ => true | Raise _ => false end in
  let fs := axis_bounds (rag_rotate_range G) ++ axis_bounds (rag_shear_range G)
            ++ axis_bounds (rag_translate_range G)
            ++ axis_bounds (rag_scale_range G) in
  let self' :=
    (Rand2DElastic_call create_rotate create_shear create_translate
       create_scale create_control_grid interpolate_bicubic
       self img spatial_size mode).1 in
  r2_R self' = advance R 1 DRand
  ∧ r2_do_transform self' = do
  ∧ drawn (rdg_R (r2_deform_grid self'))
    = drawn (rdg_R D)
      ++ (if do
          then [DNormal (length control :: control);
                DUniform (rdg_magnitude D).1 (rdg_magnitude D).2 []]
          else [])
  ∧ cursor (rdg_R (r2_deform_grid self'))
    = (cursor (rdg_R D)
       + (if do then numel (length control :: control) + 1 else 0))%nat
  ∧ drawn (rag_R (r2_rand_affine_grid self'))
    = drawn (rag_R G) ++ (if sampled then uniform_draws fs else [])
  ∧ cursor (rag_R (r2_rand_affine_grid self'))
    = (cursor (rag_R G) + (if sampled then length fs else 0))%nat.
Proof.
  intros R D G do control deformed sampled fs self'.
  subst self' sampled deformed.
  pose proof (RandDeformGrid_call_source create_control_grid D spatial_size)
    as Hsrc. cbv zeta in Hsrc. fold control in Hsrc.
  unfold Rand2DElastic_call, Rand2DElastic_randomize, R_rand.
  cbn [r2_do_transform r2_rand_affine_grid r2_deform_grid r2_resampler
       r2_prob r2_R].
  fold R D G do. destruct do eqn:Hdo.
  - destruct (RandDeformGrid_call create_control_grid D spatial_size)
      as [dg [grid|e]].
    + unfold RandAffineGrid_call.
      cbn [fst snd r2_R r2_do_transform r2_deform_grid r2_rand_affine_grid andb]
        in *.
      rewrite RandAffineGrid_randomize_source. fold fs.
      rewrite Hsrc. cbn [cursor drawn advance]. rewrite <- !app_assoc.
      repeat split; try done; lia.
    + cbn [fst snd r2_R r2_do_transform r2_deform_grid r2_rand_affine_grid andb]
        in *.
      rewrite Hsrc. cbn [cursor drawn advance].
      rewrite <- !app_assoc, app_nil_r, Nat.add_0_r.
      repeat split; try done; lia.
  - cbn [fst snd r2_R r2_do_transform r2_deform_grid r2_rand_affine_grid andb].
    by rewrite !app_nil_r, !Nat.add_0_r.
Qed.

(** ** Basic slicing *)

Lemma flat_map_seq_length {A} (g : nat → list A) n s c :
  (∀ k, (s ≤ k < s + c)%nat → length (g k) = n) →
  length (flat_map g (seq s c)) = (c * n)%nat.
Proof.
  revert s. induction c as [|c IH]; intros s Hg; [done|].
  simpl. rewrite length_app, Hg by lia. rewrite IH; [done|].
  intros k Hk. apply Hg. lia.
Qed.

Lemma flat_map_seq_lookup {A} (g : nat → list A) n s c i j :
  (∀ k, (s ≤ k < s + c)%nat → length (g k) = n) →
  (i < c)%nat → (j < n)%nat →
  flat_map g (seq s c) !! (i * n + j)%nat = g (s + i)%nat !! j.
Proof.
  revert s i. induction c as [|c IH]; intros s i Hg Hi Hj; [lia|].
  simpl. destruct i as [|i].
  - rewrite lookup_app_l by (rewrite Hg; lia). simpl. by rewrite Nat.add_0_r.
  - rewrite lookup_app_r by (rewrite Hg; simpl; lia).
    rewrite Hg by lia.
    replace (S i * n + j - n)%nat with (i * n + j)%nat by (simpl; lia).
    rewrite IH; [|intros k Hk; apply Hg; lia|lia|done].
    by replace (S s + i)%nat with (s + S i)%nat by lia.
Qed.

Lemma chunk_length {A} (row : list A) n d i :
  length row = (d * n)%nat → (i < d)%nat →
  length (take n (drop (i * n) row)) = n.
Proof.
  intros Hrow Hi. rewrite length_take, length_drop, Hrow. nia.
Qed.

Lemma chunk_lookup {A} (row : list A) n i j :
  (j < n)%nat → take n (drop (i * n) row) !! j = row !! (i * n + j)%nat.
Proof. intros Hj. by rewrite lookup_take_lt, lookup_drop. Qed.

Lemma slice_row_length {A} dims ws (row : list A) :
  length row = numel dims → fits dims ws →
  length (slice_row dims ws row) = numel (slice_shape dims ws).
Proof.
  revert ws row. induction dims as [|d ds IH]; intros ws row Hrow Hfit.
  - by destruct ws as [|[off cnt] ws].
  - destruct ws as [|[off cnt] ws]; [done|]. simpl in *.
    destruct Hfit as [Hw Hfit].
    apply flat_map_seq_length. intros k Hk.
    apply IH; [|done]. apply (chunk_length row (numel ds) d); [done|lia].
Qed.

Lemma shift_in_range dims ws idx :
  fits dims ws → in_range (slice_shape dims ws) idx →
  in_range dims (shift ws idx).
Proof.
  revert ws idx. induction dims as [|d ds IH]; intros ws idx Hfit Hr.
  - destruct ws as [|[off cnt] ws]; simpl in Hr; inversion Hr; subst;
      constructor.
  - destruct ws as [|[off cnt] ws]; [by destruct idx|].
    simpl in *. destruct Hfit as [Hw Hfit].
    inversion Hr as [|i c idx' sh Hi Hr']; subst. simpl.
    constructor; [lia|]. by apply IH.
Qed.

(** Entry [idx] of a slice is the entry of the array at [idx] moved by the
    offsets of the windows. *)
Lemma slice_row_lookup {A} dims ws (row : list A) idx :
  length row = numel dims → fits dims ws →
  in_range (slice_shape dims ws) idx →
  slice_row dims ws row !! ravel (slice_shape dims ws) idx
  = row !! ravel dims (shift ws idx).
Proof.
  revert ws row idx. induction dims as [|d ds IH]; intros ws row idx Hrow Hfit Hr.
  - destruct ws as [|[off cnt] ws]; simpl in Hr; inversion Hr; subst; done.
  - destruct ws as [|[off cnt] ws]; [by destruct idx|].
    simpl in Hfit, Hr, Hrow. destruct Hfit as [Hw Hfit].
    inversion Hr as [|i c idx' sh Hi Hr']; subst.
    cbn [slice_row slice_shape shift ravel].
    pose proof (ravel_lt _ _ Hr') as Hj.
    pose proof (ravel_lt _ _ (shift_in_range _ _ _ Hfit Hr')) as Hj'.
    rewrite (flat_map_seq_lookup _ (numel (slice_shape ds ws))); [|
      intros k Hk; apply slice_row_length; [|done];
      apply (chunk_length row (numel ds) d); [done|lia] | done | done].
    rewrite IH; [|apply (chunk_length row (numel ds) d); [done|lia]|done|done].
    by rewrite chunk_lookup.
Qed.

(** Two arrays of the same shape with the same entry at every index are
    equal. *)
Lemma row_ext {A} dims (r r' : list A) :
  length r = numel dims → length r' = numel dims →
  (∀ idx, in_range dims idx → r !! ravel dims idx = r' !! ravel dims idx) →
  r = r'.
Proof.
  intros Hr Hr' Hext. apply list_eq. intros j.
  destruct (positions dims !! j) as [idx|] eqn:Hj.
  - apply positions_lookup_inv in Hj as [Hin <-]. by apply Hext.
  - apply lookup_ge_None_1 in Hj. rewrite positions_length in Hj.
    by rewrite !lookup_ge_None_2 by lia.
Qed.

(** ** [SpatialCrop] *)

Lemma slice_bound_range d x : (0 ≤ slice_bound d x ≤ Z.of_nat d)%Z.
Proof. unfold slice_bound. destruct (Z.ltb_spec x 0); lia. Qed.

(** A window never leaves its axis, whatever the bounds. *)
Lemma windows_fits dims starts ends : fits dims (windows dims starts ends).
Proof.
  revert starts ends. induction dims as [|d ds IH]; intros [|s ss] [|e es];
    try done.
  cbn [windows fits window]. split; [|apply IH].
  pose proof (slice_bound_range d s). pose proof (slice_bound_range d e). lia.
Qed.

Lemma window_nat d s e :
  (s ≤ d)%nat → (e ≤ d)%nat →
  window d (Z.of_nat s) (Z.of_nat e) = (s, (e - s)%nat).
Proof.
  intros Hs He. unfold window, slice_bound.
  destruct (Z.ltb_spec (Z.of_nat s) 0); [lia|].
  destruct (Z.ltb_spec (Z.of_nat e) 0); [lia|].
  f_equal; lia.
Qed.

Lemma windows_nat dims s e :
  Forall2 le s e → Forall2 le e dims →
  windows dims (map Z.of_nat s) (map Z.of_nat e)
  = zip_with (λ s e, (s, (e - s)%nat)) s e.
Proof.
  intros Hse. revert dims.
  induction Hse as [|s0 e0 s e H0 _ IH]; intros dims Hed.
  - inversion Hed; subst. done.
  - inversion Hed as [|? d ? ds Hd Hed']; subst. simpl.
    rewrite window_nat by lia. by rewrite IH.
Qed.

Lemma slice_shape_nat dims s e :
  Forall2 le s e → Forall2 le e dims →
  slice_shape dims (zip_with (λ s e, (s, (e - s)%nat)) s e)
  = zip_with (λ e s, (e - s)%nat) e s.
Proof.
  intros Hse. revert dims.
  induction Hse as [|s0 e0 s e H0 _ IH]; intros dims Hed.
  - inversion Hed; subst. done.
  - inversion Hed as [|? d ? ds Hd Hed']; subst. simpl. by rewrite IH.
Qed.

Lemma shift_nat (s e idx : list nat) :
  length s = length e → length idx = length s →
  shift (zip_with (λ s e, (s, (e - s)%nat)) s e) idx = zip_with Nat.add s idx.
Proof.
  revert e idx. induction s as [|s0 s IH]; intros [|e0 e] [|i idx] He Hi;
    try done.
  simpl in *. rewrite IH by lia. done.
Qed.

Lemma broadcast_same op (a b : list Z) :
  length a = length b → broadcast op a b = Done (zip_with op a b).
Proof. intros H. unfold broadcast. by rewrite H, Nat.eqb_refl. Qed.

Lemma all_nonneg_room (s dims : list nat) :
  Forall2 le s dims →
  all_nonneg (zip_with Z.sub (map Z.of_nat dims) (map Z.of_nat s)) = true.
Proof.
  intros H. unfold all_nonneg. induction H as [|s0 d s dims H0 _ IH]; [done|].
  simpl. rewrite IH, andb_true_r. apply Z.leb_le. lia.
Qed.

Lemma all_nonneg_wrap16 (a b : list Z) :
  all_nonneg (zip_with (λ e s, wrap16 (e - s)) a b) = true.
Proof.
  unfold all_nonneg. revert b. induction a as [|x a IH]; intros [|y b]; try done.
  simpl. rewrite IH, andb_true_r. apply Z.leb_le. unfold wrap16.
  apply Z.mod_pos_bound. lia.
Qed.

(** The bounds of a ROI whose subtraction is entrywise pass the third
    check when the end is not before the start, and always in [uint16]. *)
Lemma roi_extent_nat (self : SpatialCrop) (s e : list nat) :
  sc_roi_start self = map Z.of_nat s → sc_roi_end self = map Z.of_nat e →
  Forall2 le s e →
  ∃ extent, roi_extent self = Done extent ∧ all_nonneg extent = true.
Proof.
  intros Hs He Hse. unfold roi_extent. rewrite Hs, He.
  rewrite broadcast_same
    by (rewrite !length_map; symmetry; apply (Forall2_length Hse)).
  eexists. split; [done|]. destruct (sc_dtype self).
  - apply all_nonneg_wrap16.
  - clear Hs He. unfold all_nonneg.
    induction Hse as [|s0 e0 s e H0 _ IH]; [done|].
    simpl. rewrite IH, andb_true_r. apply Z.leb_le. lia.
Qed.

Lemma Forall2_le_trans (a b c : list nat) :
  Forall2 le a b → Forall2 le b c → Forall2 le a c.
Proof.
  intros Hab. revert c. induction Hab as [|x y a b Hxy _ IH]; intros c Hbc;
    inversion Hbc; subst; constructor; [lia|auto].
Qed.

(** A ROI given by natural bounds [s <= e <= shape], one per spatial axis of
    an image with one to three spatial axes, is cut out. *)
Lemma SpatialCrop_call_nat (self : SpatialCrop) (img : tensor) (s e : list nat) :
  sc_roi_start self = map Z.of_nat s →
  sc_roi_end self = map Z.of_nat e →
  (1 ≤ length (spatial img) ≤ 3)%nat →
  Forall2 le s e → Forall2 le e (spatial img) →
  SpatialCrop_call self img
  = Done (mkTensor (zip_with (λ e s, (e - s)%nat) e s)
            (map (slice_row (spatial img)
                    (zip_with (λ s e, (s, (e - s)%nat)) s e))
                 (rows img))).
Proof.
  intros Hs He Hk Hse Hed.
  pose proof (Forall2_length Hse) as Lse.
  pose proof (Forall2_length Hed) as Led.
  destruct (roi_extent_nat self s e Hs He Hse) as (extent & Hext & Hnn).
  unfold SpatialCrop_call. rewrite Hext. rewrite Hs, He.
  rewrite !broadcast_same by (rewrite !length_map; lia).
  cbn [obind].
  rewrite all_nonneg_room by (by eapply Forall2_le_trans).
  rewrite all_nonneg_room by done. rewrite Hnn. cbn [negb].
  rewrite !length_map.
  assert (Nat.leb 1 (length s) && Nat.leb (length s) 3 = true) as ->.
  { apply andb_true_intro. split; apply Nat.leb_le; lia. }
  assert (Nat.ltb (length e) (length s) = false) as ->
    by (apply Nat.ltb_ge; lia).
  assert (Nat.ltb (length (spatial img)) (length s) = false) as ->
    by (apply Nat.ltb_ge; lia).
  by rewrite windows_nat, slice_shape_nat.
Qed.

Lemma fits_nat dims s e :
  Forall2 le s e → Forall2 le e dims →
  fits dims (zip_with (λ s e, (s, (e - s)%nat)) s e).
Proof.
  intros Hse Hed. rewrite <- (windows_nat dims s e) by done.
  apply windows_fits.
Qed.

Lemma wf_tensor_rows (t : tensor) (r : list num) :
  wf_tensor t = true → r ∈ rows t → length r = numel (spatial t).
Proof.
  intros Hwf Hr. unfold wf_tensor in Hwf. rewrite forallb_forall in Hwf.
  apply Nat.eqb_eq, Hwf. by apply list_elem_of_In.
Qed.

Lemma wf_tensor_intro (t : tensor) :
  (∀ r, r ∈ rows t → length r = numel (spatial t)) → wf_tensor t = true.
Proof.
  intros H. unfold wf_tensor. apply forallb_forall. intros r Hr.
  apply Nat.eqb_eq, H. by apply list_elem_of_In.
Qed.

Lemma slice_nat_length {A} dims (s e : list nat) (row : list A) :
  Forall2 le s e → Forall2 le e dims → length row = numel dims →
  length (slice_row dims (zip_with (λ s e, (s, (e - s)%nat)) s e) row)
  = numel (zip_with (λ e s, (e - s)%nat) e s).
Proof.
  intros Hse Hed Hrow.
  rewrite slice_row_length, slice_shape_nat; try done. by apply fits_nat.
Qed.

Lemma slice_nat_lookup {A} dims (s e : list nat) (row : list A) idx :
  Forall2 le s e → Forall2 le e dims → length row = numel dims →
  in_range (zip_with (λ e s, (e - s)%nat) e s) idx →
  slice_row dims (zip_with (λ s e, (s, (e - s)%nat)) s e) row
    !! ravel (zip_with (λ e s, (e - s)%nat) e s) idx
  = row !! ravel dims (zip_with Nat.add s idx).
Proof.
  intros Hse Hed Hrow Hidx.
  pose proof (Forall2_length Hse) as Lse.
  pose proof (Forall2_length Hidx) as Lidx. rewrite length_zip_with in Lidx.
  rewrite <- (slice_shape_nat dims s e) in Hidx |- * by done.
  rewrite slice_row_lookup; [|done|by apply fits_nat|done].
  rewrite shift_nat; [done|done|lia].
Qed.

(** X16.  [SpatialCrop] with a ROI [start <= end <= shape] that has one
    bound per spatial axis, on an image of shape [(C, *spatial)] with one to
    three spatial axes: the call succeeds; the result has the shape
    [(C, *(end - start))]; its entry at [(c, idx)] is the entry of the image
    at [(c, start + idx)]. *)
Theorem SpatialCrop_cuts_roi (self : SpatialCrop) (img : tensor)
    (s e : list nat) :
  sc_roi_start self = map Z.of_nat s →
  sc_roi_end self = map Z.of_nat e →
  (1 ≤ length (spatial img) ≤ 3)%nat →
  Forall2 le s e → Forall2 le e (spatial img) →
  wf_tensor img = true →
  ∃ out,
    SpatialCrop_call self img = Done out
    ∧ spatial out = zip_with (λ e s, (e - s)%nat) e s
    ∧ length (rows out) = length (rows img)
    ∧ wf_tensor out = true
    ∧ ∀ c row idx,
        rows img !! c = Some row → in_range (spatial out) idx →
        ∃ row',
          rows out !! c = Some row'
          ∧ row' !! ravel (spatial out) idx
            = row !! ravel (spatial img) (zip_with Nat.add s idx).
Proof.
  intros Hs He Hk Hse Hed Hwf.
  eexists. split; [by apply (SpatialCrop_call_nat self img s e)|].
  cbn [spatial rows]. split; [done|]. split; [by rewrite length_map|].
  split.
  - apply wf_tensor_intro. cbn [spatial rows]. intros r Hr.
    apply list_elem_of_fmap in Hr as (row & -> & Hrow).
    apply slice_nat_length; try done. by apply wf_tensor_rows.
  - intros c row idx Hc Hidx. eexists. split.
    { by rewrite list_lookup_fmap, Hc. }
    apply slice_nat_lookup; try done.
    apply wf_tensor_rows; [done|]. by eapply list_elem_of_lookup_2.
Qed.

(** X16 at [SpatialCrop(roi_start=[1,0], roi_end=[3,2])] and the (1,3,3)
    image: entry (0,0) of the crop is entry (1,0) of the image. *)
Lemma SpatialCrop_cuts_roi_witness :
  ∃ out,
    SpatialCrop_call (mkSpatialCrop [1;0]%Z [3;2]%Z PyInt) arr33 = Done out
    ∧ spatial out = [2;2]%nat
    ∧ ∃ row', rows out !! 0%nat = Some row' ∧ row' !! 0%nat = Some (qz 4).
Proof.
  destruct (SpatialCrop_cuts_roi (mkSpatialCrop [1;0]%Z [3;2]%Z PyInt) arr33
              [1;0]%nat [3;2]%nat)
    as (out & Hout & Hsp & _ & _ & Hget).
  - reflexivity.
  - reflexivity.
  - simpl. lia.
  - repeat constructor.
  - repeat constructor.
  - reflexivity.
  - exists out. split; [exact Hout|]. split; [exact Hsp|].
    destruct (Hget 0%nat (map qz [1;2;3;4;5;6;7;8;9]%Z) [0;0]%nat)
      as (row' & Hrow & Hentry).
    + reflexivity.
    + rewrite Hsp. repeat constructor.
    + exists row'. split; [exact Hrow|]. rewrite Hsp in Hentry. exact Hentry.
Defined.

Lemma Forall2_le_refl (l : list nat) : Forall2 le l l.
Proof. induction l; constructor; [lia|done]. Qed.

Lemma Forall2_zero_le (l : list nat) : Forall2 le (map (λ _, 0%nat) l) l.
Proof. induction l; constructor; [lia|done]. Qed.

Lemma sub_zeros (l : list nat) :
  zip_with (λ e s, (e - s)%nat) l (map (λ _, 0%nat) l) = l.
Proof. induction l as [|x l IH]; [done|]. simpl. rewrite IH. f_equal. lia. Qed.

Lemma add_zeros (l idx : list nat) :
  length idx = length l → zip_with Nat.add (map (λ _, 0%nat) l) idx = idx.
Proof.
  revert idx. induction l as [|x l IH]; intros [|i idx] H; try done.
  simpl in *. rewrite IH by lia. done.
Qed.

(** X17.  [SpatialCrop] with the ROI that starts at the origin and ends at
    the shape of the image returns the image (one to three spatial
    axes). *)
Theorem SpatialCrop_full_roi (self : SpatialCrop) (img : tensor) :
  sc_roi_start self = map (λ _, 0%Z) (spatial img) →
  sc_roi_end self = map Z.of_nat (spatial img) →
  (1 ≤ length (spatial img) ≤ 3)%nat →
  wf_tensor img = true →
  SpatialCrop_call self img = Done img.
Proof.
  intros Hs He Hk Hwf.
  rewrite (SpatialCrop_call_nat self img (map (λ _, 0%nat) (spatial img))
             (spatial img));
    [|by rewrite Hs, map_map|done|done|apply Forall2_zero_le
     |apply Forall2_le_refl].
  f_equal. destruct img as [dims rows0]. cbn [spatial rows] in *.
  rewrite sub_zeros at 1. f_equal.
  rewrite <- (map_id rows0) at 2. apply map_ext_in. intros row Hrow.
  assert (length row = numel dims) as Hlen.
  { apply (wf_tensor_rows (mkTensor dims rows0)); [done|].
    by apply list_elem_of_In. }
  apply (row_ext dims); [|done|].
  - rewrite slice_nat_length, sub_zeros;
      [done|apply Forall2_zero_le|apply Forall2_le_refl|done].
  - intros idx Hidx.
    rewrite <- (sub_zeros dims) in Hidx |- * at 1.
    rewrite slice_nat_lookup;
      [|apply Forall2_zero_le|apply Forall2_le_refl|done|done].
    rewrite sub_zeros in Hidx.
    by rewrite add_zeros by (apply (Forall2_length Hidx)).
Qed.

(** X17 at the (1,3,3) image. *)
Lemma SpatialCrop_full_roi_witness :
  SpatialCrop_call (mkSpatialCrop [0;0]%Z [3;3]%Z PyInt) arr33 = Done arr33.
Proof.
  apply (SpatialCrop_full_roi (mkSpatialCrop [0;0]%Z [3;3]%Z PyInt) arr33).
  - reflexivity.
  - reflexivity.
  - simpl. lia.
  - reflexivity.
Defined.

(** *** Cropping twice *)

Lemma nested_roi_bounds (s1 e1 s2 e2 dims : list nat) :
  Forall2 le s1 e1 → Forall2 le e1 dims →
  Forall2 le s2 e2 → Forall2 le e2 (zip_with (λ e s, (e - s)%nat) e1 s1) →
  Forall2 le (zip_with Nat.add s1 s2) (zip_with Nat.add s1 e2)
  ∧ Forall2 le (zip_with Nat.add s1 e2) dims.
Proof.
  intros H1 Hd H2 Hm.
  pose proof (Forall2_length H1) as L1. pose proof (Forall2_length Hd) as Ld.
  pose proof (Forall2_length H2) as L2. pose proof (Forall2_length Hm) as Lm.
  rewrite length_zip_with in Lm.
  split; apply Forall2_same_length_lookup_2;
    rewrite ?length_zip_with; try lia.
  - intros i x y Hx Hy.
    apply lookup_zip_with_Some in Hx as (a & b & -> & Ha & Hb).
    apply lookup_zip_with_Some in Hy as (a' & c & -> & Ha' & Hc).
    rewrite Ha in Ha'. injection Ha' as <-.
    pose proof (Forall2_lookup_lr _ _ _ _ _ _ H2 Hb Hc). lia.
  - intros i x d Hx Hd'.
    apply lookup_zip_with_Some in Hx as (a & c & -> & Ha & Hc).
    destruct (lookup_lt_is_Some_2 e1 i) as [b Hb];
      [apply lookup_lt_Some in Ha; lia|].
    pose proof (Forall2_lookup_lr _ _ _ _ _ _ H1 Ha Hb).
    pose proof (Forall2_lookup_lr _ _ _ _ _ _ Hd Hb Hd').
    assert (zip_with (λ e s, (e - s)%nat) e1 s1 !! i = Some (b - a)%nat) as Hz.
    { apply lookup_zip_with_Some. eauto. }
    pose proof (Forall2_lookup_lr _ _ _ _ _ _ Hm Hc Hz). lia.
Qed.

Lemma nested_roi_shape (s1 s2 e2 : list nat) :
  length s1 = length s2 → length s2 = length e2 →
  zip_with (λ e s, (e - s)%nat) (zip_with Nat.add s1 e2) (zip_with Nat.add s1 s2)
  = zip_with (λ e s, (e - s)%nat) e2 s2.
Proof.
  revert s2 e2. induction s1 as [|a s1 IH]; intros [|b s2] [|c e2] H1 H2;
    try done.
  simpl in *. rewrite IH by lia. f_equal. lia.
Qed.

Lemma nested_roi_index (s2 e2 m idx : list nat) :
  Forall2 le s2 e2 → Forall2 le e2 m →
  in_range (zip_with (λ e s, (e - s)%nat) e2 s2) idx →
  in_range m (zip_with Nat.add s2 idx).
Proof.
  intros H2 Hm Hidx. unfold in_range in *.
  pose proof (Forall2_length H2) as L2. pose proof (Forall2_length Hm) as Lm.
  pose proof (Forall2_length Hidx) as Li. rewrite length_zip_with in Li.
  apply Forall2_same_length_lookup_2; rewrite ?length_zip_with; try lia.
  intros i x d Hx Hd.
  apply lookup_zip_with_Some in Hx as (a & j & -> & Ha & Hj).
  destruct (lookup_lt_is_Some_2 e2 i) as [b Hb];
    [apply lookup_lt_Some in Ha; lia|].
  pose proof (Forall2_lookup_lr _ _ _ _ _ _ H2 Ha Hb).
  pose proof (Forall2_lookup_lr _ _ _ _ _ _ Hm Hb Hd).
  assert (zip_with (λ e s, (e - s)%nat) e2 s2 !! i = Some (b - a)%nat) as Hz.
  { apply lookup_zip_with_Some. eauto. }
  pose proof (Forall2_lookup_lr _ _ _ _ _ _ Hidx Hj Hz). lia.
Qed.

Lemma add_add_index (s1 s2 idx : list nat) :
  zip_with Nat.add s1 (zip_with Nat.add s2 idx)
  = zip_with Nat.add (zip_with Nat.add s1 s2) idx.
Proof.
  revert s2 idx. induction s1 as [|a s1 IH]; intros [|b s2] [|i idx]; try done.
  simpl. rewrite IH. f_equal. lia.
Qed.

(** X18.  Cropping a crop.  [SpatialCrop] with the ROI [s2 <= e2] applied
    to the result of [SpatialCrop] with the ROI [s1 <= e1] gives what one
    [SpatialCrop] with the ROI from [s1 + s2] to [s1 + e2] gives on the
    image, provided the first ROI lies in the image and the second one in
    the first crop. *)
Theorem SpatialCrop_twice (first second both : SpatialCrop) (img : tensor)
    (s1 e1 s2 e2 : list nat) :
  sc_roi_start first = map Z.of_nat s1 →
  sc_roi_end first = map Z.of_nat e1 →
  sc_roi_start second = map Z.of_nat s2 →
  sc_roi_end second = map Z.of_nat e2 →
  sc_roi_start both = map Z.of_nat (zip_with Nat.add s1 s2) →
  sc_roi_end both = map Z.of_nat (zip_with Nat.add s1 e2) →
  (1 ≤ length (spatial img) ≤ 3)%nat →
  Forall2 le s1 e1 → Forall2 le e1 (spatial img) →
  Forall2 le s2 e2 → Forall2 le e2 (zip_with (λ e s, (e - s)%nat) e1 s1) →
  wf_tensor img = true →
  obind (SpatialCrop_call first img) (SpatialCrop_call second)
  = SpatialCrop_call both img.
Proof.
  intros Hs1 He1 Hs2 He2 Hs He Hk H1 Hd H2 Hm Hwf.
  pose proof (Forall2_length H1) as L1. pose proof (Forall2_length Hd) as Ld.
  pose proof (Forall2_length H2) as L2. pose proof (Forall2_length Hm) as Lm.
  rewrite length_zip_with in Lm.
  destruct (nested_roi_bounds s1 e1 s2 e2 (spatial img)) as [Hb1 Hb2];
    try done.
  rewrite (SpatialCrop_call_nat first img s1 e1) by done. cbn [obind].
  rewrite (SpatialCrop_call_nat second _ s2 e2);
    [|done|done|cbn [spatial]; rewrite length_zip_with; lia|done|done].
  rewrite (SpatialCrop_call_nat both img _ _ Hs He) by done.
  cbn [spatial rows]. rewrite nested_roi_shape by lia. do 2 f_equal.
  rewrite map_map. apply map_ext_in. intros row Hrow.
  assert (length row = numel (spatial img)) as Hlen.
  { apply wf_tensor_rows; [done|]. by apply list_elem_of_In. }
  apply (row_ext (zip_with (λ e s, (e - s)%nat) e2 s2)).
  - rewrite slice_nat_length; [done|done|done|].
    by rewrite slice_nat_length.
  - rewrite slice_nat_length, nested_roi_shape; [done|lia|lia|done|done|done].
  - intros idx Hidx.
    rewrite slice_nat_lookup; [|done|done|by rewrite slice_nat_length|done].
    rewrite slice_nat_lookup;
      [|done|done|done|by apply (nested_roi_index s2 e2)].
    rewrite <- (nested_roi_shape s1 s2 e2) in Hidx |- * by lia.
    rewrite slice_nat_lookup; [|done|done|done|done].
    by rewrite add_add_index.
Qed.

(** X18 at the (1,3,3) image: the ROI from (1,1) to (2,2) of the ROI from
    (0,1) to (3,3) is the ROI from (1,2) to (2,3). *)
Lemma SpatialCrop_twice_witness :
  obind (SpatialCrop_call (mkSpatialCrop [0;1]%Z [3;3]%Z PyInt) arr33)
        (SpatialCrop_call (mkSpatialCrop [1;1]%Z [2;2]%Z PyInt))
  = SpatialCrop_call (mkSpatialCrop [1;2]%Z [2;3]%Z PyInt) arr33.
Proof.
  apply (SpatialCrop_twice (mkSpatialCrop [0;1]%Z [3;3]%Z PyInt)
           (mkSpatialCrop [1;1]%Z [2;2]%Z PyInt)
           (mkSpatialCrop [1;2]%Z [2;3]%Z PyInt) arr33
           [0;1]%nat [3;3]%nat [1;1]%nat [2;2]%nat).
  - reflexivity.
  - reflexivity.
  - reflexivity.
  - reflexivity.
  - reflexivity.
  - reflexivity.
  - simpl. lia.
  - repeat constructor.
  - repeat constructor.
  - repeat constructor.
  - simpl. repeat constructor.
  - reflexivity.
Defined.

(** *** Rejected ROIs *)

Lemma all_nonneg_room_iff (b dims : list nat) :
  length b = length dims →
  all_nonneg (zip_with Z.sub (map Z.of_nat dims) (map Z.of_nat b))
  = bool_decide (Forall2 le b dims).
Proof.
  revert dims. induction b as [|x b IH]; intros [|d dims] Hlen; try done.
  simpl in *. unfold all_nonneg in IH |- *. cbn [forallb].
  rewrite IH by lia. clear IH.
  destruct (Z.leb_spec 0 (Z.of_nat d - Z.of_nat x)) as [Hle|Hgt]; simpl.
  - apply bool_decide_ext. split.
    + intros H. constructor; [lia|done].
    + intros H. by inversion H.
  - symmetry. apply bool_decide_eq_false_2. intros H. inversion H. lia.
Qed.

(** X19.  A ROI with one bound per spatial axis that does not lie within
    the image is rejected by an assertion, whatever the number of axes: the
    message is 'roi start out of image space.' when a start exceeds the
    extent of its axis, and 'roi end out of image space.' when the starts
    fit and an end exceeds the extent of its axis. *)
Theorem SpatialCrop_rejects_outside (self : SpatialCrop) (img : tensor)
    (s e : list nat) :
  sc_roi_start self = map Z.of_nat s →
  sc_roi_end self = map Z.of_nat e →
  length s = length (spatial img) →
  length e = length (spatial img) →
  ¬ (Forall2 le s (spatial img) ∧ Forall2 le e (spatial img)) →
  SpatialCrop_call self img
  = Fail (AssertionError
            (if bool_decide (Forall2 le s (spatial img))
             then Messages.roi_end_outside
             else Messages.roi_start_outside)).
Proof.
  intros Hs He Ls Le Hout. unfold SpatialCrop_call. rewrite Hs, He.
  rewrite !broadcast_same by (rewrite !length_map; lia). cbn [obind].
  rewrite !all_nonneg_room_iff by done.
  case_bool_decide as H1; cbn [negb]; [|done].
  rewrite bool_decide_eq_false_2 by tauto. done.
Qed.

(** X19 at the (1,3,3) image and the ROI from (1,1) to (4,2). *)
Lemma SpatialCrop_rejects_outside_witness :
  SpatialCrop_call (mkSpatialCrop [1;1]%Z [4;2]%Z PyInt) arr33
  = Fail (AssertionError Messages.roi_end_outside).
Proof.
  apply (SpatialCrop_rejects_outside (mkSpatialCrop [1;1]%Z [4;2]%Z PyInt)
           arr33 [1;1]%nat [4;2]%nat).
  - reflexivity.
  - reflexivity.
  - reflexivity.
  - reflexivity.
  - intros [_ H]. inversion H as [|? ? ? ? Hle _]; subst. simpl in Hle. lia.
Defined.

Lemma broadcast_nonneg op (a b r : list Z) :
  (∀ x y, 0 ≤ op x y)%Z → broadcast op a b = Done r → all_nonneg r = true.
Proof.
  intros Hop Hr.
  assert (∀ r', Forall (λ z, 0 ≤ z)%Z r' → all_nonneg r' = true) as Hall.
  { intros r' H. unfold all_nonneg. apply forallb_forall. intros z Hz.
    rewrite Forall_forall in H. apply Z.leb_le. by apply H. }
  apply Hall. unfold broadcast in Hr.
  assert (∀ a b, Forall (λ z, 0 ≤ z)%Z (zip_with op a b)) as Hzip.
  { clear -Hop. intros a. induction a as [|x a IH]; intros [|y b]; simpl;
      constructor; auto. }
  assert (∀ (f : Z → Z) l, (∀ x, 0 ≤ f x)%Z → Forall (λ z, 0 ≤ z)%Z (map f l))
    as Hmap.
  { clear. intros f l Hf. induction l; simpl; constructor; auto. }
  destruct (Nat.eqb (length a) (length b)).
  - injection Hr as <-. apply Hzip.
  - destruct a as [|x [|x' a]], b as [|y [|y' b]]; try discriminate;
      injection Hr as <-;
      repeat first [ apply Hop | apply Hmap; intros | constructor ].
Qed.

Lemma wrap16_nonneg z : (0 ≤ wrap16 z)%Z.
Proof. unfold wrap16. pose proof (Z.mod_pos_bound z 65536). lia. Qed.

Lemma broadcast_fail op (a b : list Z) e :
  broadcast op a b = Fail e → e = Builtin ValueError.
Proof.
  unfold broadcast. destruct (Nat.eqb _ _); [done|].
  destruct a as [|? [|? ?]], b as [|? [|? ?]]; intros H; try discriminate;
    by injection H as <-.
Qed.

Lemma SpatialCrop_init_center_dtype roi_center roi_size roi_start roi_end self :
  SpatialCrop_init (Some roi_center) (Some roi_size) roi_start roi_end
    = Done self →
  sc_dtype self = Uint16.
Proof.
  unfold SpatialCrop_init. intros H.
  destruct (negb _); [discriminate|]. destruct (negb _); [discriminate|].
  destruct (broadcast _ _ _) as [start|]; [|discriminate]. cbn [obind] in H.
  destruct (broadcast _ _ _) as [stop|]; [|discriminate]. cbn [obind] in H.
  by injection H as <-.
Qed.

(** X20.  For a [SpatialCrop] built from a centre and a size the check
    'invalid roi range.' never fails, on any image: the bounds are [uint16]
    arrays, their difference wraps around instead of becoming negative. *)
Theorem SpatialCrop_center_size_range_check
    (roi_center roi_size : list Z) (roi_start roi_end : option (list Z))
    (self : SpatialCrop) (img : tensor) :
  SpatialCrop_init (Some roi_center) (Some roi_size) roi_start roi_end
    = Done self →
  SpatialCrop_call self img ≠ Fail (AssertionError Messages.invalid_roi_range).
Proof.
  intros Hinit. apply SpatialCrop_init_center_dtype in Hinit.
  unfold SpatialCrop_call.
  destruct (broadcast Z.sub _ (sc_roi_start self)) as [room1|e1] eqn:H1;
    [|by apply broadcast_fail in H1 as ->].
  cbn [obind]. destruct (negb (all_nonneg room1)); [done|].
  destruct (broadcast Z.sub _ (sc_roi_end self)) as [room2|e2] eqn:H2;
    [|by apply broadcast_fail in H2 as ->].
  cbn [obind]. destruct (negb (all_nonneg room2)); [done|].
  destruct (roi_extent self) as [extent|e3] eqn:Hext;
    [|by apply broadcast_fail in Hext as ->].
  cbn [obind]. unfold roi_extent in Hext. rewrite Hinit in Hext.
  assert (all_nonneg extent = true) as ->.
  { apply (broadcast_nonneg _ _ _ _ (λ x y, wrap16_nonneg (x - y)) Hext). }
  cbn [negb]. destruct (_ && _); [|done].
  destruct (Nat.ltb _ _); [done|]. destruct (Nat.ltb _ _); done.
Qed.

(** X20 at [SpatialCrop(roi_center=[1,1], roi_size=[4,4])], whose bounds
    wrap around, and the (1,3,3) image. *)
Lemma SpatialCrop_center_size_range_check_witness :
  SpatialCrop_init (Some [1;1]%Z) (Some [4;4]%Z) None None
    = Done (mkSpatialCrop [65535;65535]%Z [3;3]%Z Uint16)
  ∧ SpatialCrop_call (mkSpatialCrop [65535;65535]%Z [3;3]%Z Uint16) arr33
    ≠ Fail (AssertionError Messages.invalid_roi_range).
Proof.
  split; [reflexivity|].
  apply (SpatialCrop_center_size_range_check [1;1]%Z [4;4]%Z None None).
  reflexivity.
Defined.

(** *** ROIs given by centre and size *)

Lemma wrap16_small (n : nat) :
  (Z.of_nat n < 65536)%Z → wrap16 (Z.of_nat n) = Z.of_nat n.
Proof. intros H. unfold wrap16. apply Z.mod_small. lia. Qed.

(** The bounds the constructor computes from a centre and a size when
    nothing wraps around: [centre - size // 2] and that plus [size]. *)
Lemma SpatialCrop_init_center_size (c sz : list nat) roi_start roi_end :
  Forall2 (λ c n, (0 < c ∧ 0 < n ∧ n / 2 ≤ c)%nat
                  ∧ (Z.of_nat (c - n / 2 + n) < 65536)%Z) c sz →
  SpatialCrop_init (Some (map Z.of_nat c)) (Some (map Z.of_nat sz))
    roi_start roi_end
  = Done (mkSpatialCrop
            (map Z.of_nat (zip_with (λ c n, (c - n / 2)%nat) c sz))
            (map Z.of_nat (zip_with (λ c n, (c - n / 2 + n)%nat) c sz))
            Uint16).
Proof.
  intros H. unfold SpatialCrop_init.
  assert (forallb (λ x, 0 <? x)%Z (map Z.of_nat c) = true
          ∧ forallb (λ x, 0 <? x)%Z (map Z.of_nat sz) = true
          ∧ map wrap16 (map Z.of_nat c) = map Z.of_nat c
          ∧ map wrap16 (map Z.of_nat sz) = map Z.of_nat sz
          ∧ zip_with (λ c h, wrap16 (c - h)) (map Z.of_nat c)
              (map (λ s, s / 2)%Z (map Z.of_nat sz))
            = map Z.of_nat (zip_with (λ c n, (c - n / 2)%nat) c sz)
          ∧ zip_with (λ s n, wrap16 (s + n))
              (map Z.of_nat (zip_with (λ c n, (c - n / 2)%nat) c sz))
              (map Z.of_nat sz)
            = map Z.of_nat (zip_with (λ c n, (c - n / 2 + n)%nat) c sz))
    as (-> & -> & -> & -> & E1 & E2).
  { induction H as [|c0 n0 c sz ((Hc & Hn & Hh) & Hb) _ IH]; [done|].
    destruct IH as (I1 & I2 & I3 & I4 & I5 & I6).
    pose proof (Nat.Div0.div_le_upper_bound n0 2 n0 ltac:(lia)) as Hdiv.
    assert (Z.of_nat (n0 / 2) = Z.of_nat n0 / 2)%Z as Hhalf
      by apply (Nat2Z.inj_div n0 2).
    assert (wrap16 (Z.of_nat c0) = Z.of_nat c0) as W1
      by (apply wrap16_small; lia).
    assert (wrap16 (Z.of_nat n0) = Z.of_nat n0) as W2
      by (apply wrap16_small; lia).
    assert (wrap16 (Z.of_nat c0 - Z.of_nat n0 / 2) = Z.of_nat (c0 - n0 / 2))
      as W3.
    { rewrite <- (wrap16_small (c0 - n0 / 2)) by lia. f_equal.
      rewrite <- Hhalf. lia. }
    assert (wrap16 (Z.of_nat (c0 - n0 / 2) + Z.of_nat n0)
            = Z.of_nat (c0 - n0 / 2 + n0)) as W4.
    { rewrite <- (wrap16_small (c0 - n0 / 2 + n0)) by lia. f_equal. lia. }
    cbn [map forallb zip_with]. rewrite I1, I2, I3, I4, I5, I6.
    rewrite W1, W2, W3, W4.
    assert ((0 <? Z.of_nat c0)%Z = true) as -> by (apply Z.ltb_lt; lia).
    assert ((0 <? Z.of_nat n0)%Z = true) as -> by (apply Z.ltb_lt; lia).
    done. }
  cbn [negb].
  pose proof (Forall2_length H) as L.
  rewrite broadcast_same by (rewrite !length_map; lia). cbn [obind].
  rewrite E1.
  rewrite broadcast_same by (rewrite !length_map, length_zip_with; lia).
  cbn [obind]. by rewrite E2.
Qed.

(** X21.  [SpatialCrop] built from a centre and a size, one pair per
    spatial axis of an image with one to three spatial axes whose extents
    are below [2^16]: when every centre is at least half the size away from
    the origin ([size // 2 <= centre]) and the ROI ends within the image
    ([centre - size // 2 + size <= extent]), the result has the spatial
    shape [size] and its entry at [(c, idx)] is the entry of the image at
    [(c, centre - size // 2 + idx)]. *)
Theorem SpatialCrop_center_size (c sz : list nat)
    (roi_start roi_end : option (list Z)) (img : tensor) :
  let lo := zip_with (λ c n, (c - n / 2)%nat) c sz in
  let hi := zip_with (λ c n, (c - n / 2 + n)%nat) c sz in
  (1 ≤ length (spatial img) ≤ 3)%nat →
  Forall (λ d, Z.of_nat d < 65536)%Z (spatial img) →
  Forall2 (λ c n, 0 < c ∧ 0 < n ∧ n / 2 ≤ c)%nat c sz →
  Forall2 le hi (spatial img) →
  wf_tensor img = true →
  ∃ self out,
    SpatialCrop_init (Some (map Z.of_nat c)) (Some (map Z.of_nat sz))
      roi_start roi_end = Done self
    ∧ SpatialCrop_call self img = Done out
    ∧ spatial out = sz
    ∧ length (rows out) = length (rows img)
    ∧ ∀ k row idx,
        rows img !! k = Some row → in_range sz idx →
        ∃ row',
          rows out !! k = Some row'
          ∧ row' !! ravel sz idx
            = row !! ravel (spatial img) (zip_with Nat.add lo idx).
Proof.
  intros lo hi Hk Hsmall Hc Hhi Hwf.
  pose proof (Forall2_length Hc) as Lc.
  pose proof (Forall2_length Hhi) as Lhi.
  unfold hi in Lhi. rewrite length_zip_with in Lhi.
  assert (Forall2 le lo hi) as Hlohi.
  { apply Forall2_same_length_lookup_2;
      [unfold lo, hi; rewrite !length_zip_with; lia|].
    intros i x y Hx Hy.
    apply lookup_zip_with_Some in Hx as (a & n & -> & Ha & Hn).
    apply lookup_zip_with_Some in Hy as (a' & n' & -> & Ha' & Hn').
    rewrite Ha in Ha'. rewrite Hn in Hn'.
    injection Ha' as <-. injection Hn' as <-. lia. }
  assert (zip_with (λ e s, (e - s)%nat) hi lo = sz) as Hshape.
  { unfold lo, hi. clear -Lc. revert sz Lc.
    induction c as [|a c IH]; intros [|n sz] L; try done.
    simpl in *. rewrite IH by lia. f_equal. lia. }
  eexists. eexists. split.
  { apply SpatialCrop_init_center_size.
    apply Forall2_same_length_lookup_2; [done|].
    intros i a n Ha Hn.
    pose proof (Forall2_lookup_lr _ _ _ _ _ _ Hc Ha Hn) as (H1 & H2 & H3).
    destruct (lookup_lt_is_Some_2 (spatial img) i) as [d Hd];
      [apply lookup_lt_Some in Ha; lia|].
    assert (hi !! i = Some (a - n / 2 + n)%nat) as Hi.
    { unfold hi. apply lookup_zip_with_Some. eauto. }
    pose proof (Forall2_lookup_lr _ _ _ _ _ _ Hhi Hi Hd).
    rewrite Forall_forall in Hsmall.
    assert (Z.of_nat d < 65536)%Z
      by (apply Hsmall, list_elem_of_In; by eapply list_elem_of_lookup_2).
    split; [done|lia]. }
  split.
  { by apply (SpatialCrop_call_nat _ img lo hi). }
  cbn [spatial rows]. split; [done|]. split; [by rewrite length_map|].
  intros k row idx Hrow Hidx. eexists. split.
  { by rewrite list_lookup_fmap, Hrow. }
  rewrite <- Hshape in Hidx |- * at 1.
  apply slice_nat_lookup; try done.
  apply wf_tensor_rows; [done|]. by eapply list_elem_of_lookup_2.
Qed.

(** X21 at [SpatialCrop(roi_center=[1,2], roi_size=[2,2])] and the (1,3,3)
    image: the ROI from (0,1) to (2,3). *)
Lemma SpatialCrop_center_size_witness :
  ∃ self out,
    SpatialCrop_init (Some [1;2]%Z) (Some [2;2]%Z) None None = Done self
    ∧ SpatialCrop_call self arr33 = Done out
    ∧ spatial out = [2;2]%nat.
Proof.
  destruct (SpatialCrop_center_size [1;2]%nat [2;2]%nat None None arr33)
    as (self & out & Hinit & Hcall & Hsp & _).
  - simpl. lia.
  - repeat constructor; reflexivity.
  - repeat constructor.
  - repeat constructor.
  - reflexivity.
  - exists self, out. split; [exact Hinit|]. split; [exact Hcall|exact Hsp].
Defined.

(** The bounds the constructor computes from a centre and a size with as
    many entries. *)
Lemma SpatialCrop_init_center_eq (c sz : list Z) roi_start roi_end :
  Forall (λ x, 0 < x)%Z c → Forall (λ x, 0 < x)%Z sz →
  length c = length sz →
  let start :=
    zip_with (λ c h, wrap16 (c - h)) (map wrap16 c)
             (map (λ s, s / 2)%Z (map wrap16 sz)) in
  SpatialCrop_init (Some c) (Some sz) roi_start roi_end
  = Done (mkSpatialCrop start
            (zip_with (λ s n, wrap16 (s + n)) start (map wrap16 sz)) Uint16).
Proof.
  intros Hc Hsz Hlen start. unfold SpatialCrop_init.
  assert (∀ l, Forall (λ x, 0 < x)%Z l → forallb (λ x, 0 <? x)%Z l = true)
    as Hpos.
  { intros l H. apply forallb_forall. intros x Hx.
    rewrite Forall_forall in H. apply Z.ltb_lt. by apply H. }
  rewrite !Hpos by done. cbn [negb].
  rewrite broadcast_same by (rewrite !length_map; lia). cbn [obind].
  fold start.
  rewrite broadcast_same; [done|].
  unfold start. rewrite length_zip_with, !length_map. lia.
Qed.

Lemma all_nonneg_false (l : list Z) i x :
  l !! i = Some x → (x < 0)%Z → all_nonneg l = false.
Proof.
  intros Hi Hx. unfold all_nonneg. apply not_true_is_false. intros H.
  rewrite forallb_forall in H.
  assert ((0 <=? x)%Z = true) as Hle.
  { apply H, list_elem_of_In. by eapply list_elem_of_lookup_2. }
  apply Z.leb_le in Hle. lia.
Qed.

(** X22.  [SpatialCrop] built from a centre and a size whose ROI would
    begin before the origin along some axis ([centre < size // 2]): the
    [uint16] start wraps around to [2^16 + centre - size // 2], and the call
    fails with 'roi start out of image space.' on every image whose extent
    along that axis is below that value (centres and sizes below [2^16],
    one per spatial axis). *)
Theorem SpatialCrop_center_before_origin (c sz : list Z)
    (roi_start roi_end : option (list Z)) (img : tensor)
    (i : nat) (ci ni : Z) (di : nat) :
  Forall (λ x, 0 < x < 65536)%Z c → Forall (λ x, 0 < x < 65536)%Z sz →
  length c = length (spatial img) → length sz = length (spatial img) →
  c !! i = Some ci → sz !! i = Some ni → spatial img !! i = Some di →
  (ci < ni / 2)%Z → (Z.of_nat di < 65536 + ci - ni / 2)%Z →
  ∃ self,
    SpatialCrop_init (Some c) (Some sz) roi_start roi_end = Done self
    ∧ sc_roi_start self !! i = Some (65536 + ci - ni / 2)%Z
    ∧ SpatialCrop_call self img
      = Fail (AssertionError Messages.roi_start_outside).
Proof.
  intros Hc Hsz Lc Lsz Hci Hni Hdi Hlt Hd.
  assert (∀ l x, Forall (λ x, 0 < x < 65536)%Z l → x ∈ l → (0 < x < 65536)%Z)
    as Hin.
  { intros l x H Hx. rewrite Forall_forall in H. by apply H, list_elem_of_In. }
  assert (∀ l, Forall (λ x, 0 < x < 65536)%Z l → Forall (λ x, 0 < x)%Z l)
    as Hpos.
  { intros l H. eapply Forall_impl; [|exact H]. simpl. lia. }
  pose proof (Hin c ci Hc ltac:(by eapply list_elem_of_lookup_2)) as Bc.
  pose proof (Hin sz ni Hsz ltac:(by eapply list_elem_of_lookup_2)) as Bn.
  eexists. split.
  { apply SpatialCrop_init_center_eq; [by apply Hpos|by apply Hpos|lia]. }
  cbn [sc_roi_start].
  assert (zip_with (λ c h, wrap16 (c - h)) (map wrap16 c)
            (map (λ s, s / 2)%Z (map wrap16 sz)) !! i
          = Some (65536 + ci - ni / 2)%Z) as Hstart.
  { apply lookup_zip_with_Some. exists (wrap16 ci), (wrap16 ni / 2)%Z.
    split; [|split].
    - unfold wrap16. rewrite (Z.mod_small ci), (Z.mod_small ni) by lia.
      assert (0 ≤ ni / 2 < 65536)%Z
        by (split; [apply Z.div_pos; lia|apply Z.div_lt_upper_bound; lia]).
      symmetry. rewrite <- (Z.mod_add _ 1) by lia.
      rewrite Z.mod_small by lia. lia.
    - by rewrite list_lookup_fmap, Hci.
    - by rewrite !list_lookup_fmap, Hni. }
  split; [done|].
  unfold SpatialCrop_call. cbn [sc_roi_start].
  rewrite broadcast_same
    by (rewrite length_zip_with, !length_map; lia).
  cbn [obind].
  rewrite (all_nonneg_false _ i (Z.of_nat di - (65536 + ci - ni / 2))%Z);
    [done| |lia].
  apply lookup_zip_with_Some. eexists _, _. split; [done|].
  split; [by rewrite list_lookup_fmap, Hdi|done].
Qed.

(** X22 at [SpatialCrop(roi_center=[1,1], roi_size=[4,4])] and the (1,3,3)
    image. *)
Lemma SpatialCrop_center_before_origin_witness :
  ∃ self,
    SpatialCrop_init (Some [1;1]%Z) (Some [4;4]%Z) None None = Done self
    ∧ sc_roi_start self !! 0%nat = Some 65535%Z
    ∧ SpatialCrop_call self arr33
      = Fail (AssertionError Messages.roi_start_outside).
Proof.
  apply (SpatialCrop_center_before_origin [1;1]%Z [4;4]%Z None None arr33
           0%nat 1%Z 4%Z 3%nat).
  - repeat constructor.
  - repeat constructor.
  - reflexivity.
  - reflexivity.
  - reflexivity.
  - reflexivity.
  - reflexivity.
  - reflexivity.
  - reflexivity.
Defined.

(** *** What every successful call guarantees *)

Lemma slice_shape_le dims ws :
  fits dims ws → Forall2 le (slice_shape dims ws) dims.
Proof.
  revert ws. induction dims as [|d ds IH]; intros [|[off cnt] ws] Hfit;
    cbn [slice_shape]; try apply Forall2_le_refl.
  destruct Hfit as [Hw Hfit]. constructor; [lia|by apply IH].
Qed.

(** X23.  Whenever [SpatialCrop] returns, the ROI has one, two or three
    start entries, and the result has the channels and the number of axes
    of the image, no axis longer than in the image, and as many entries in
    every channel as its shape announces. *)
Theorem SpatialCrop_call_result (self : SpatialCrop) (img out : tensor) :
  SpatialCrop_call self img = Done out →
  wf_tensor img = true →
  (1 ≤ length (sc_roi_start self) ≤ 3)%nat
  ∧ length (rows out) = length (rows img)
  ∧ Forall2 le (spatial out) (spatial img)
  ∧ wf_tensor out = true.
Proof.
  unfold SpatialCrop_call. intros Hcall Hwf.
  destruct (broadcast Z.sub _ (sc_roi_start self)) as [room1|]; [|done].
  cbn [obind] in Hcall. destruct (negb (all_nonneg room1)); [done|].
  destruct (broadcast Z.sub _ (sc_roi_end self)) as [room2|]; [|done].
  cbn [obind] in Hcall. destruct (negb (all_nonneg room2)); [done|].
  destruct (roi_extent self) as [extent|]; [|done].
  cbn [obind] in Hcall. destruct (negb (all_nonneg extent)); [done|].
  destruct (Nat.leb 1 _ && Nat.leb _ 3) eqn:Hk; [|done].
  destruct (Nat.ltb _ _); [done|]. destruct (Nat.ltb _ _); [done|].
  injection Hcall as <-. cbn [spatial rows].
  pose proof (windows_fits (spatial img) (sc_roi_start self) (sc_roi_end self))
    as Hfit.
  apply andb_prop in Hk as [H1 H3].
  apply Nat.leb_le in H1. apply Nat.leb_le in H3.
  split; [lia|]. split; [by rewrite length_map|].
  split; [by apply slice_shape_le|].
  apply wf_tensor_intro. cbn [spatial rows]. intros r Hr.
  apply list_elem_of_fmap in Hr as (row & -> & Hrow).
  apply slice_row_length; [|done]. by apply wf_tensor_rows.
Qed.

(** X23 at the ROI from (1,0) to (3,2) of the (1,3,3) image. *)
Lemma SpatialCrop_call_result_witness :
  Forall2 le [2;2]%nat (spatial arr33).
Proof.
  destruct (SpatialCrop_call_result (mkSpatialCrop [1;0]%Z [3;2]%Z PyInt)
              arr33
              (mkTensor [2;2]%nat [[qz 4; qz 5; qz 7; qz 8]]))
    as (_ & _ & Hle & _).
  - reflexivity.
  - reflexivity.
  - exact Hle.
Defined.

(** ** [RandRotate90] *)

Lemma clamp_prob_nonpositive (prob : Qc) :
  prob ≤ 0 → Qc_min (Qc_max prob 0) 1 = (if Qc_ltb prob 0 then 0 else prob)
             ∧ Qc_min (Qc_max prob 0) 1 ≤ 0.
Proof.
  intros Hp. unfold Qc_min, Qc_max.
  assert (∀ x, x ≤ 0 → Qc_ltb 1 x = false) as Hone.
  { intros x Hx. unfold Qc_ltb. apply bool_decide_eq_false_2.
    intros H. unfold Qcle, Qclt in *. change (this 1) with 1%Q in H.
    change (this 0) with 0%Q in Hx. lra. }
  destruct (Qc_ltb prob 0).
  - rewrite Hone; [|apply Qcle_refl]. split; [done|apply Qcle_refl].
  - rewrite Hone by done. done.
Qed.

(** X24.  [RandRotate90] constructed with a probability that is not
    positive returns the image itself at every call, for every positive
    [max_k]: the probability is clamped to 0 and no draw of [random()] is
    below 0. *)
Theorem RandRotate90_prob_zero
    (np_rot90 : tensor → Z → nat * nat → result tensor)
    (prob : Qc) (max_k : Z) (axes : nat * nat) (R : IntRandomState)
    (img : tensor) :
  prob ≤ 0 → (0 < max_k)%Z →
  0 ≤ random_samples R (S (int_cursor R)) →
  (RandRotate90_call np_rot90 (RandRotate90_init prob max_k axes R) img).2
  = Ok img.
Proof.
  intros Hp Hk Hu. destruct (clamp_prob_nonpositive prob Hp) as [_ Hc].
  unfold RandRotate90_call, RandRotate90_randomize, RandRotate90_init,
    R_randint, R_random.
  cbn [rr_max_k rr_R rr_prob rr_axes].
  destruct (Z.leb_spec max_k 0) as [|_]; [lia|].
  cbn [rbind fst snd int_advance int_cursor random_samples rr_do_transform].
  assert (Qc_ltb (random_samples R (S (int_cursor R)))
            (Qc_min (Qc_max prob 0) 1) = false) as ->; [|done].
  unfold Qc_ltb. apply bool_decide_eq_false_2. intros H.
  unfold Qcle, Qclt in *. change (this 0) with 0%Q in *. lra.
Qed.

(** X24 at [RandRotate90(prob=-1)]. *)
Lemma RandRotate90_prob_zero_witness :
  (RandRotate90_call rot90_not_invoked
     (RandRotate90_init (-1) 3 (1, 2)%nat constant_int_source) arr33).2
  = Ok arr33.
Proof.
  apply (RandRotate90_prob_zero rot90_not_invoked (-1) 3 (1, 2)%nat
           constant_int_source arr33).
  - apply (bool_decide_unpack _). vm_compute. exact I.
  - lia.
  - apply (bool_decide_unpack _). vm_compute. exact I.
Defined.

(** X25.  [RandRotate90] with a [max_k] that is not positive fails at every
    call with the [ValueError] of [randint], whatever the probability (also
    when it is 0): the number of rotations is drawn before the decision.
    The object and its draw source are left as they were. *)
Theorem RandRotate90_max_k_not_positive
    (np_rot90 : tensor → Z → nat * nat → result tensor)
    (self : RandRotate90) (img : tensor) :
  (rr_max_k self ≤ 0)%Z →
  RandRotate90_call np_rot90 self img = (self, Raise ValueError).
Proof.
  intros Hk. unfold RandRotate90_call, RandRotate90_randomize, R_randint.
  destruct (Z.leb_spec (rr_max_k self) 0) as [_|]; [done|lia].
Qed.

(** X25 at [RandRotate90(prob=0, max_k=0)]. *)
Lemma RandRotate90_max_k_not_positive_witness :
  (RandRotate90_call rot90_not_invoked
     (RandRotate90_init 0 0 (1, 2)%nat constant_int_source) arr33).2
  = Raise ValueError.
Proof.
  rewrite (RandRotate90_max_k_not_positive rot90_not_invoked
             (RandRotate90_init 0 0 (1, 2)%nat constant_int_source) arr33).
  - reflexivity.
  - simpl. lia.
Defined.

(** X26.  One call of [RandRotate90] with a positive [max_k] makes two
    draws, [randint(max_k)] and then [random()], whatever the decision.
    The number of rotations is the integer drawn plus one, between 1 and
    [max_k] for a draw of [[0, max_k)]; the image is rotated by it in the
    plane [axes] when the value of [random()] is below the probability and
    returned as it is otherwise. *)
Theorem RandRotate90_call_draws
    (np_rot90 : tensor → Z → nat * nat → result tensor)
    (self : RandRotate90) (img : tensor) :
  let R := rr_R self in
  let v := int_samples R (int_cursor R) (rr_max_k self) in
  let u := random_samples R (S (int_cursor R)) in
  let out := RandRotate90_call np_rot90 self img in
  (0 < rr_max_k self)%Z → (0 ≤ v < rr_max_k self)%Z →
  int_drawn (rr_R out.1) = int_drawn R ++ [DRandint (rr_max_k self); DRandom]
  ∧ int_cursor (rr_R out.1) = S (S (int_cursor R))
  ∧ rr_rand_k out.1 = (v + 1)%Z
  ∧ (1 ≤ rr_rand_k out.1 ≤ rr_max_k self)%Z
  ∧ out.2 = (if Qc_ltb u (rr_prob self)
             then np_rot90 img (v + 1)%Z (rr_axes self)
             else Ok img).
Proof.
  intros R v u out Hk Hv. subst out.
  unfold RandRotate90_call, RandRotate90_randomize, R_randint, R_random.
  fold R. destruct (Z.leb_spec (rr_max_k self) 0) as [|_]; [lia|].
  cbn [rbind fst snd int_advance int_cursor random_samples rr_do_transform
       int_samples].
  fold v u. destruct (Qc_ltb u (rr_prob self));
    cbn [negb fst snd rr_R rr_rand_k int_drawn int_cursor Rotate90_call
         r90_k r90_plane_axes rr_axes];
    unfold int_advance; cbn [int_drawn int_cursor]; rewrite <- app_assoc;
    (split; [done|]); (split; [done|]); (split; [done|]);
    (split; [lia|done]).
Qed.

(** X26 at [RandRotate90(prob=1, max_k=3)] with the draws 2 and 3/4: the
    image is rotated three times. *)
Lemma RandRotate90_call_draws_witness :
  (RandRotate90_call (λ img k axes, Ok img)
     (RandRotate90_init 1 3 (1, 2)%nat constant_int_source) arr33).1.(rr_rand_k)
  = 3%Z.
Proof.
  destruct (RandRotate90_call_draws (λ img k axes, Ok img)
              (RandRotate90_init 1 3 (1, 2)%nat constant_int_source) arr33)
    as (_ & _ & Hk & _).
  - simpl. lia.
  - simpl. lia.
  - exact Hk.
Defined.

(** ** Constant images *)

Lemma Qc_ltb_spec (a b : Qc) :
  (Qc_ltb a b = true ∧ (this a < this b)%Q)
  ∨ (Qc_ltb a b = false ∧ (this b <= this a)%Q).
Proof.
  unfold Qc_ltb. case_bool_decide as H.
  - left. split; [done|exact H].
  - right. split; [done|]. apply Qnot_lt_le. exact H.
Qed.

(** Clamped coordinates lie on the axis. *)
Lemma clip_range q d :
  (1 ≤ d)%nat →
  (0 <= this (clip_coordinates q d)
   ∧ this (clip_coordinates q d) <= inject_Z (Z.of_nat d) - 1)%Q.
Proof.
  intros Hd.
  assert (1 <= inject_Z (Z.of_nat d))%Q as HD.
  { change 1%Q with (inject_Z 1). rewrite <- Zle_Qle. lia. }
  unfold clip_coordinates, Qc_min, Qc_max.
  destruct (Qc_ltb_spec q 0) as [[-> H1]|[-> H1]];
    match goal with |- context [Qc_ltb ?a ?b] =>
      destruct (Qc_ltb_spec a b) as [[-> H2]|[-> H2]] end;
    to_Q_in H1; to_Q_in H2; to_Q; lra.
Qed.

Lemma floor_range (p : Qc) (n : Z) :
  (0 <= this p)%Q → (this p <= inject_Z n)%Q →
  (0 ≤ Qc_floor p ≤ n)%Z
  ∧ (inject_Z (Qc_floor p) <= this p)%Q
  ∧ (this p < inject_Z (Qc_floor p) + 1)%Q.
Proof.
  intros H0 Hn. unfold Qc_floor.
  pose proof (Qfloor_le (this p)) as Hf1.
  pose proof (Qlt_floor (this p)) as Hf2.
  rewrite inject_Z_plus in Hf2. change (inject_Z 1) with 1%Q in Hf2.
  set (f := Qfloor (this p)) in *.
  split; [|done]. split.
  - assert (-1 < f)%Z; [|lia]. rewrite Zlt_Qlt.
    change (inject_Z (-1)) with (-1 # 1)%Q. lra.
  - rewrite Zle_Qle. lra.
Qed.

Lemma Qc_of_Z_succ f : Qc_of_Z (f + 1) = Qc_of_Z f + 1.
Proof. by rewrite Z2Qc_inj_add, Z2Qc_inj_1. Qed.

(** The pixels read along an axis at a clamped coordinate. *)
Lemma taps_good mode q d :
  (1 ≤ d)%nat → good_axis d (taps mode (clip_coordinates q d)).
Proof.
  intros Hd. destruct (clip_range q d Hd) as [H0 Hn].
  set (p := clip_coordinates q d) in *.
  assert (this p <= inject_Z (Z.of_nat d - 1))%Q as Hn'.
  { unfold Z.sub. rewrite inject_Z_plus, inject_Z_opp.
    change (inject_Z 1) with 1%Q. lra. }
  destruct (floor_range p _ H0 Hn') as ([Hf0 Hfn] & Hf1 & Hf2).
  set (f := Qc_floor p) in *.
  destruct mode; unfold good_axis, taps; fold f; cbn [fold_right fst snd].
  - split; [ring|]. constructor; [|constructor]. left. cbn [fst].
    unfold nearbyint. fold f.
    destruct (Qc_ltb_spec (p - Qc_of_Z f) (1 / 2)) as [[-> _]|[-> H1]]; [lia|].
    to_Q_in H1. rewrite this_of_Z in H1.
    assert (f < Z.of_nat d - 1)%Z as Hup by (rewrite Zlt_Qlt; lra).
    destruct (Qc_ltb (1 / 2) (p - Qc_of_Z f)); [lia|].
    destruct (Z.even f); lia.
  - split; [rewrite Qc_of_Z_succ; ring|].
    constructor; [left; cbn [fst]; lia|]. constructor; [|constructor].
    cbn [fst snd]. destruct (decide (f + 1 < Z.of_nat d)%Z) as [Hin|Hout].
    + left. lia.
    + right. assert (f = Z.of_nat d - 1)%Z as Hf by lia.
      apply Qc_is_canon. to_Q. rewrite this_of_Z.
      rewrite Hf in Hf1 |- *. change (this 0) with 0%Q. lra.
Qed.

Lemma in_bounds_cons k idx d dims :
  in_bounds (k :: idx) (d :: dims)
  = (Z.leb 0 k && Z.ltb k (Z.of_nat d)) && in_bounds idx dims.
Proof. done. Qed.

Lemma in_bounds_nat idx dims :
  length idx = length dims → in_bounds idx dims = true →
  ∃ idx', idx = map Z.of_nat idx' ∧ in_range dims idx'.
Proof.
  revert dims. induction idx as [|k idx IH]; intros [|d dims] Hlen Hin;
    try done.
  - exists []. split; [done|constructor].
  - rewrite in_bounds_cons in Hin.
    apply andb_prop in Hin as [Hk Hin]. apply andb_prop in Hk as [Hk0 Hkd].
    apply Z.leb_le in Hk0. apply Z.ltb_lt in Hkd.
    destruct (IH dims) as (idx' & -> & Hr); [simpl in Hlen; lia|done|].
    exists (Z.to_nat k :: idx'). split.
    + simpl. f_equal. lia.
    + constructor; [lia|done].
Qed.

(** A pixel of an image that is [v] everywhere. *)
Lemma pixel_constant dims (chan : list num) v idx :
  length chan = numel dims → Forall (λ x, x = Fin v) chan →
  length idx = length dims →
  pixel dims chan idx = Fin (if in_bounds idx dims then v else 0).
Proof.
  intros Hlen Hv Hidx. unfold pixel.
  destruct (in_bounds idx dims) eqn:Hin; [|done].
  destruct (in_bounds_nat _ _ Hidx Hin) as (idx' & -> & Hr).
  destruct (pixel_in_range dims chan idx' Hr Hlen) as (x & Hx & _).
  rewrite flat_index_ravel, Hx by done. simpl.
  rewrite Forall_forall in Hv. apply Hv, list_elem_of_In.
  by eapply list_elem_of_lookup_2.
Qed.

Lemma corners_length axes c :
  c ∈ corners axes → length c.1 = length axes.
Proof.
  revert c. induction axes as [|ts axes IH]; intros c Hc.
  - apply list_elem_of_singleton in Hc as ->. done.
  - simpl in Hc. apply list_elem_of_In, in_flat_map in Hc as (t & _ & Hc).
    apply list_elem_of_In, list_elem_of_fmap in Hc as (c' & -> & Hc').
    simpl. f_equal. by apply IH.
Qed.

Lemma fold_corner_sum dims (chan : list num) v (cs : list (list Z * Qc)) :
  length chan = numel dims → Forall (λ x, x = Fin v) chan →
  (∀ c, c ∈ cs → length c.1 = length dims) →
  fold_right (λ c acc, nadd (nmul (Fin c.2) (pixel dims chan c.1)) acc)
             (Fin 0) cs
  = Fin (corner_sum v dims cs).
Proof.
  intros Hlen Hv Hcs. induction cs as [|c cs IH]; [done|].
  cbn [fold_right corner_sum]. fold (corner_sum v dims cs).
  rewrite IH by (intros c' Hc'; apply Hcs; by right).
  rewrite (pixel_constant dims chan v) by (try done; apply Hcs; by left).
  done.
Qed.

Lemma corner_sum_app v dims cs cs' :
  corner_sum v dims (cs ++ cs') = corner_sum v dims cs + corner_sum v dims cs'.
Proof.
  unfold corner_sum. induction cs as [|c cs IH]; simpl; [ring|].
  rewrite IH. ring.
Qed.

Lemma corner_sum_cons v k w d dims cs :
  corner_sum v (d :: dims) (map (λ c, (k :: c.1, w * c.2)) cs)
  = w * (if Z.leb 0 k && Z.ltb k (Z.of_nat d) then 1 else 0)
    * corner_sum v dims cs.
Proof.
  unfold corner_sum. induction cs as [|c cs IH]; simpl; [ring|].
  simpl in IH. rewrite IH. cbn [fst snd]. rewrite in_bounds_cons.
  destruct (Z.leb 0 k && Z.ltb k (Z.of_nat d)), (in_bounds c.1 dims); simpl;
    ring.
Qed.

(** The weights of the corners add up to one, and the corners outside the
    image carry no weight. *)
Lemma corner_sum_corners v dims axes :
  Forall2 good_axis dims axes → corner_sum v dims (corners axes) = v.
Proof.
  intros H. induction H as [|d ts dims axes [Hsum Hin] _ IH].
  - unfold corner_sum. simpl. ring.
  - cbn [corners].
    assert (∀ ts',
      Forall (λ t, (0 ≤ t.1 < Z.of_nat d)%Z ∨ t.2 = 0) ts' →
      corner_sum v (d :: dims)
        (flat_map (λ t, map (λ c, (t.1 :: c.1, t.2 * c.2)) (corners axes)) ts')
      = fold_right (λ t acc, t.2 + acc) 0 ts' * v) as Hts.
    { intros ts' Hts'. induction Hts' as [|t ts' Ht _ IHts]; simpl.
      - unfold corner_sum. simpl. ring.
      - rewrite corner_sum_app, corner_sum_cons, IHts, IH.
        destruct Ht as [[H0 Hd]|Hw].
        + apply Z.leb_le in H0. apply Z.ltb_lt in Hd. rewrite H0, Hd.
          simpl. ring.
        + rewrite Hw. ring. }
    rewrite Hts by done. rewrite Hsum. ring.
Qed.

(** A coordinate on the axis is its own clamped value. *)
Lemma clip_coordinates_on_axis (z : Z) d :
  (0 ≤ z ≤ Z.of_nat d - 1)%Z → clip_coordinates (Qc_of_Z z) d = Qc_of_Z z.
Proof.
  intros [H0 Hd]. unfold clip_coordinates, Qc_max, Qc_min.
  assert (0 <= inject_Z z)%Q as H0'.
  { change 0%Q with (inject_Z 0). rewrite <- Zle_Qle. lia. }
  assert (inject_Z z <= inject_Z (Z.of_nat d) - 1)%Q as Hd'.
  { change 1%Q with (inject_Z 1). unfold Qminus.
    rewrite <- inject_Z_opp, <- inject_Z_plus, <- Zle_Qle. lia. }
  rewrite (Qc_ltb_false _ 0) by (rewrite this_of_Z; exact H0').
  destruct (Qc_ltb_spec (Qc_of_Z z) (Qc_of_nat d - 1)) as [[-> _]|[-> H1]];
    [done|].
  apply Qc_is_canon. to_Q_in H1. rewrite this_of_Z in H1. to_Q.
  rewrite this_of_Z. lra.
Qed.

Lemma clip_non_finite_range k x d :
  (1 ≤ d)%nat → (0 ≤ clip_non_finite k x d ≤ Z.of_nat d - 1)%Z.
Proof. intros Hd. destruct x, k; simpl; lia. Qed.

(** With clamped coordinates every coordinate, finite or not, reads pixels
    of the axis, with weights that add up to one. *)
Lemma axis_taps_good k mode pad x d :
  pad ≠ zeros → (1 ≤ d)%nat →
  ∃ ts, axis_taps k mode pad x d = Some ts ∧ good_axis d ts.
Proof.
  intros Hpad Hd.
  assert (∀ y, good_axis d (taps mode (Qc_of_Z (clip_non_finite k y d)))) as Hnf.
  { intros y.
    rewrite <- (clip_coordinates_on_axis _ d (clip_non_finite_range k y d Hd)).
    by apply taps_good. }
  destruct x as [q| | |]; (destruct pad; [done| |]); cbn [axis_taps];
    eexists; (split; [reflexivity|]); try apply Hnf.
  all: cbn [compute_coordinates]; by apply taps_good.
Qed.

(** With clamped coordinates every point reads [v] from an image that is
    [v] everywhere, in both interpolation modes. *)
Lemma sample_point_constant k mode pad dims (chan : list num) v pt :
  pad ≠ zeros →
  Forall (λ d, 0 < d)%nat dims → length pt = length dims →
  length chan = numel dims → Forall (λ x, x = Fin v) chan →
  sample_point k mode pad dims chan pt = Fin v.
Proof.
  intros Hpad Hpos Hpt Hlen Hv. unfold sample_point.
  assert (∃ axes,
            mapM (λ xd, axis_taps k mode pad xd.1 xd.2) (zip (reverse pt) dims)
            = Some axes
            ∧ Forall2 good_axis dims axes) as (axes & -> & Hgood).
  { rewrite <- (length_reverse pt) in Hpt. revert Hpt.
    generalize (reverse pt) as xs. clear Hlen Hv.
    induction Hpos as [|d dims Hd _ IH]; intros [|x xs] Lxs; try done.
    - exists []. split; [done|constructor].
    - destruct (IH xs) as (axes & Haxes & Hgood); [simpl in Lxs; lia|].
      destruct (axis_taps_good k mode pad x d Hpad) as (ts & Hts & Hg); [lia|].
      exists (ts :: axes). split; [|by constructor].
      cbn [zip zip_with mapM fst snd]. cbn [zip] in Haxes.
      rewrite Hts. cbn [mbind option_bind]. rewrite Haxes. done. }
  rewrite (fold_corner_sum dims chan v); [|done|done|].
  - by rewrite corner_sum_corners.
  - intros c Hc. rewrite (corners_length _ _ Hc).
    symmetry. apply (Forall2_length Hgood).
Qed.

(** X27.  Constant images stay constant under clamped sampling: with
    [padding_mode] 'border' or 'reflection', in both interpolation modes,
    on a well-shaped call every entry of the result of a channel that is
    [v] everywhere is [v] (the statement also allows NaN, which the kernels
    modelled here do not give under these padding modes): the weights of
    the pixels read add up to one and the pixels outside the image carry no
    weight, also where a non-finite coordinate is clamped onto the axis. *)
Theorem Resample_constant_channel self img grid mode k chan v :
  rs_padding_mode self ≠ zeros →
  length (spatial (data img)) = 2%nat ∨ length (spatial (data img)) = 3%nat →
  length (spatial (data grid)) = length (spatial (data img)) →
  (length (spatial (data img)) + 1 ≤ length (rows (data grid)))%nat →
  Forall (λ d, 0 < d)%nat (spatial (data img)) →
  placed self img = placed self grid →
  rows (data img) !! k = Some chan →
  length chan = numel (spatial (data img)) →
  Forall (λ x, x = Fin v) chan →
  ∃ out o,
    Resample_apply self img grid mode = Ok out
    ∧ rows (data out) !! k = Some o
    ∧ Forall (λ x, x = Fin v ∨ x = NaN) o.
Proof.
  intros Hpad HD Hrank Hn Hpos Hdev Hk Hlen Hv.
  destruct (Resample_apply_explicit self img grid mode HD Hrank Hn Hpos Hdev)
    as (c & Hc & _ & _ & ->).
  destruct (sampling_grid_ok (data img) (data grid) Hn) as (c' & Hc' & _ & Hpts).
  rewrite Hc in Hc'. injection Hc' as <-.
  eexists _, _. split; [reflexivity|]. split.
  - destruct (rs_as_tensor_output self); simpl;
      by rewrite list_lookup_fmap, Hk.
  - apply Forall_fmap, Forall_forall. intros pt Hpt. simpl.
    rewrite Forall_forall in Hpts.
    left. by apply sample_point_constant; [| |apply Hpts| |].
Qed.

(** X27 at an image of shape (1,2,2) that is 1 everywhere, the identity
    grid and bilinear interpolation. *)
Lemma Resample_constant_channel_witness :
  ∃ out o,
    Resample_apply (mkResample border false None)
      (NdArray (mkTensor [2;2]%nat [replicate 4 (qz 1)]))
      (NdArray (create_grid [2;2]%nat)) bilinear = Ok out
    ∧ rows (data out) !! 0%nat = Some o
    ∧ Forall (λ x, x = qz 1 ∨ x = NaN) o.
Proof.
  apply (Resample_constant_channel (mkResample border false None)
           (NdArray (mkTensor [2;2]%nat [replicate 4 (qz 1)]))
           (NdArray (create_grid [2;2]%nat)) bilinear 0%nat
           (replicate 4 (qz 1)) (Qc_of_Z 1)).
  - discriminate.
  - left. reflexivity.
  - reflexivity.
  - simpl. lia.
  - simpl. repeat constructor.
  - reflexivity.
  - reflexivity.
  - reflexivity.
  - repeat constructor.
Defined.
